(** * Kakoune: the window, its selections and the incremental inserter

    A shallow embedding of [src/window.cc]: selections and their merge
    rule, the window's edit, selection, scroll and filter operations, the
    coordinate mapping through the display buffer, and the
    [IncrementalInserter] session.

    The file has two parts: the model (every definition), then the
    properties proved about it. *)

From Stdlib Require Import ZArith List String Ascii Bool Arith Lia.
Import ListNotations.

(* ================================================================== *)
(** * Part I: the model                                                *)
(* ================================================================== *)

(** ** Coordinates *)

(** Modelled from the spec: [line_and_column.hh] is absent.  A coordinate
    is a pair of signed integers (C++ [int]; signed overflow is undefined
    there, so the model covers the values in range) with component-wise
    sum and difference and lexicographic comparison (spec, section 3). *)
Record LineAndColumn : Type := mkCoord { line : Z; column : Z }.

Definition BufferCoord := LineAndColumn.
Definition DisplayCoord := LineAndColumn.

Module Coord.

(** Modelled from the spec: [a + b], component by component. *)
Definition add (a b : LineAndColumn) : LineAndColumn :=
  mkCoord (line a + line b) (column a + column b).

(** Modelled from the spec: [a - b], component by component. *)
Definition sub (a b : LineAndColumn) : LineAndColumn :=
  mkCoord (line a - line b) (column a - column b).

(** Modelled from the spec: [a < b], by line and then by column. *)
Definition ltb (a b : LineAndColumn) : bool :=
  if (line a =? line b)%Z then (column a <? column b)%Z
  else (line a <? line b)%Z.

(** Modelled from the spec: [a <= b], by line and then by column. *)
Definition leb (a b : LineAndColumn) : bool :=
  if (line a =? line b)%Z then (column a <=? column b)%Z
  else (line a <? line b)%Z.

(** Modelled from the spec: [a == b]. *)
Definition eqb (a b : LineAndColumn) : bool :=
  (line a =? line b)%Z && (column a =? column b)%Z.

Definition origin : LineAndColumn := mkCoord 0 0.

End Coord.

(** ** The buffer *)

Definition BufferChar := ascii.
Definition BufferString := list ascii.

(** The text of a string literal. *)
Definition text (s : string) : BufferString := list_ascii_of_string s.

Definition newline : ascii := "010"%char.

(** Modelled from the spec: [buffer.hh] is absent.  A [BufferIterator] is a
    position in the text of its buffer, counted from the beginning
    (offset 0); the end is the offset [length].  Iterators are totally
    ordered by their offset and [it + n] adds to it (section 3).
    [window.cc] never re-bases an iterator after an edit; the buffer does
    (sections 4.4, 5(b) and 6): an iterator that is stored when the buffer
    inserts or erases stays on the character it pointed to, or goes to
    the nearest boundary that survives.  [Buffer.after_insert] and
    [Buffer.after_erase] below say where a stored iterator goes, and every
    insertion and erasure of the window, [Window.buffer_insert] and
    [Window.buffer_erase], applies them to the iterators the window
    stores: the ends of its selections and the ranges of its display
    atoms. *)
Definition BufferIterator := nat.

(** What the undo log of a buffer records: text inserted at an offset, or
    text deleted from an offset. *)
Inductive Modification : Type :=
| Insertion (pos : nat) (content : BufferString)
| Deletion (pos : nat) (content : BufferString).

(** The calls a buffer has received, kept to state how an undo group
    brackets the mutations. *)
Inductive BufferCall : Type :=
| CallBeginUndoGroup
| CallEndUndoGroup
| CallInsert (pos : BufferIterator) (s : BufferString)
| CallErase (b e : BufferIterator)
| CallUndo.

(** Modelled from the spec: the class [Buffer] ([buffer.hh], [buffer.cc])
    is absent.  The spec (section 6 and glossary) asks of it: [insert],
    [erase], [begin_undo_group] / [end_undo_group], which bundle the
    enclosed mutations into one undoable step, and [undo], which takes the
    last step back and says whether there was one. *)
Record Buffer : Type := mkBuffer {
  m_content : BufferString;
  m_history : list (list Modification);       (* committed steps, last first *)
  m_current_undo_group : list Modification;   (* pending, last first *)
  m_calls : list BufferCall                   (* calls received, in order *)
}.

Module Buffer.

(** Modelled from the spec: the number of characters of the text. *)
Definition length (b : Buffer) : nat := List.length (m_content b).

(** Modelled from the spec: [begin()], the first position. *)
Definition begin (b : Buffer) : BufferIterator := 0.

(** Modelled from the spec: [it.is_begin()]. *)
Definition is_begin (it : BufferIterator) : bool := it =? 0.

(** Modelled from the spec: [it.is_end()]. *)
Definition is_end (b : Buffer) (it : BufferIterator) : bool :=
  it =? length b.

(** Modelled from the spec: [*it], the character under the iterator;
    there is none at the end (section 3: dereference of an end iterator
    is undefined). *)
Definition deref (b : Buffer) (it : BufferIterator) : option BufferChar :=
  nth_error (m_content b) it.

(** Modelled from the spec: [it + n] and [++it] (section 3), the offset
    [n] further; the end of a caret is one past it wherever it is. *)
Definition plus (b : Buffer) (it : BufferIterator) (n : nat)
  : BufferIterator := it + n.

(** Modelled from the spec: [it - n] and [--it]; moving backward stops
    at the beginning. *)
Definition minus (it : BufferIterator) (n : nat) : BufferIterator :=
  it - n.

(** Records a call in the trace of the buffer. *)
Definition log (c : BufferCall) (b : Buffer) : Buffer :=
  mkBuffer (m_content b) (m_history b) (m_current_undo_group b)
           (m_calls b ++ [c]).

(** Modelled from the spec: [begin_undo_group()]; the mutations that
    follow are recorded in the current group. *)
Definition begin_undo_group (b : Buffer) : Buffer :=
  log CallBeginUndoGroup b.

(** Modelled from the spec: [end_undo_group()] commits the current group
    as one step of the history. *)
Definition end_undo_group (b : Buffer) : Buffer :=
  mkBuffer (m_content b)
           (m_current_undo_group b :: m_history b)
           []
           (m_calls b ++ [CallEndUndoGroup]).

(** Modelled from the spec: [insert(pos, s)] puts [s] before the
    character at [pos] and records the insertion.  Where the stored
    iterators are afterwards is [after_insert], below. *)
Definition insert (b : Buffer) (pos : BufferIterator) (s : BufferString)
  : Buffer :=
  let c := m_content b in
  mkBuffer (firstn pos c ++ s ++ skipn pos c)
           (m_history b)
           (Insertion (Nat.min pos (length b)) s :: m_current_undo_group b)
           (m_calls b ++ [CallInsert pos s]).

(** Modelled from the spec: [string(begin, end)], the text between two
    iterators. *)
Definition string (b : Buffer) (first last : BufferIterator)
  : BufferString :=
  firstn (last - first) (skipn first (m_content b)).

(** Modelled from the spec: [erase(begin, end)] removes the text
    between the two iterators and records the deletion.  Where the
    stored iterators are afterwards is [after_erase], below. *)
Definition erase (b : Buffer) (first last : BufferIterator) : Buffer :=
  let c := m_content b in
  mkBuffer (firstn first c ++ skipn (Nat.max first last) c)
           (m_history b)
           (Deletion (Nat.min first (length b)) (string b first last)
              :: m_current_undo_group b)
           (m_calls b ++ [CallErase first last]).

(** Modelled from the spec: taking one recorded modification back. *)
Definition undo_modification (c : BufferString) (m : Modification)
  : BufferString :=
  match m with
  | Insertion pos s => firstn pos c ++ skipn (pos + List.length s) c
  | Deletion pos s => firstn pos c ++ s ++ skipn pos c
  end.

(** Modelled from the spec: [undo()] takes the last committed step
    back, its modifications from the last to the first, and says whether
    there was a step. *)
Definition undo (b : Buffer) : bool * Buffer :=
  match m_history b with
  | [] => (false, log CallUndo b)
  | group :: older =>
      (true,
       mkBuffer (fold_left undo_modification group (m_content b))
                older
                (m_current_undo_group b)
                (m_calls b ++ [CallUndo]))
  end.

(** Modelled from the spec: the iterator stability contract (section
    6).  After [insert(pos, s)] with [n] the length of [s], a stored
    iterator at or after [pos] is on the character it pointed to, [n]
    further; one before [pos] has not moved. *)
Definition after_insert (pos n : nat) (it : BufferIterator)
  : BufferIterator :=
  if pos <=? it then it + n else it.

(** Modelled from the spec: the iterator stability contract (section
    6).  After [erase(first, last)] a stored iterator before [first] has
    not moved, one inside the erased range is at [first], the boundary
    that survives, and one at or after [last] is on the character it
    pointed to, as many positions back as were erased. *)
Definition after_erase (first last : nat) (it : BufferIterator)
  : BufferIterator :=
  if it <? first then it
  else if it <? last then first
  else it - (last - first).

(** The calls that change the text. *)
Definition is_mutation (c : BufferCall) : bool :=
  match c with
  | CallInsert _ _ | CallErase _ _ => true
  | _ => false
  end.

(** [b'] is [b] after the mutations [calls] and nothing else: they are
    the calls received since, no step was committed, and taking back
    what was recorded since gives the text of [b] again. *)
Definition extends_by (calls : list BufferCall) (b b' : Buffer) : Prop :=
  m_calls b' = m_calls b ++ calls
  /\ forallb is_mutation calls = true
  /\ m_history b' = m_history b
  /\ exists group,
       m_current_undo_group b' = group ++ m_current_undo_group b
       /\ fold_left undo_modification group (m_content b') = m_content b.

End Buffer.

(** Modelled from the spec: the two coordinate queries of the buffer
    ([iterator_at] and [line_and_column_at], section 6) are absent with
    the rest of [buffer.cc]; the window only delegates to them, so they
    are taken as an interface. *)
Class BufferQueries : Type := {
  buffer_iterator_at : Buffer -> BufferCoord -> BufferIterator;
  buffer_line_and_column_at : Buffer -> BufferIterator -> BufferCoord
}.

(** ** Selections *)

Definition CaptureList := list BufferString.

Record Selection : Type := mkSelection {
  m_first : BufferIterator;
  m_last : BufferIterator;
  m_captures : CaptureList
}.

Module Selection.

(** [Selection(first, last)]: the captures default to none. *)
Definition make (first last : BufferIterator) : Selection :=
  mkSelection first last [].

Definition begin (s : Selection) : BufferIterator :=
  Nat.min (m_first s) (m_last s).

Definition end_ (b : Buffer) (s : Selection) : BufferIterator :=
  Buffer.plus b (Nat.max (m_first s) (m_last s)) 1.

Definition merge_with (s selection : Selection) : Selection :=
  mkSelection
    (if m_first s <=? m_last s
     then Nat.min (m_first s) (m_first selection)
     else Nat.max (m_first s) (m_first selection))
    (m_last selection)
    (m_captures s).

Definition capture (s : Selection) (index : nat) : BufferString :=
  if index <? List.length (m_captures s)
  then nth index (m_captures s) []
  else [].

(** The selection after the buffer has moved its two iterators. *)
Definition moved (f : BufferIterator -> BufferIterator) (s : Selection)
  : Selection :=
  mkSelection (f (m_first s)) (f (m_last s)) (m_captures s).

End Selection.

(** ** The display buffer *)

(** Modelled from the spec: [display_buffer.hh] is absent.  An atom has
    the display coordinate of its first cell and the buffer range it
    renders (spec section 3). *)
Record DisplayAtom : Type := mkAtom {
  atom_coord : DisplayCoord;
  atom_begin : BufferIterator;
  atom_end : BufferIterator
}.

Definition DisplayBuffer := list DisplayAtom.

(** Modelled from the spec: [DisplayBuffer::check_invariant] is absent.
    The spec (section 3) asks of a display buffer that its first atom is
    at (0,0) and that the coordinates of its atoms never decrease. *)
Fixpoint coords_nondecreasing (atoms : DisplayBuffer) : bool :=
  match atoms with
  | a :: rest =>
      match rest with
      | b :: _ => Coord.leb (atom_coord a) (atom_coord b)
      | [] => true
      end && coords_nondecreasing rest
  | [] => true
  end.

Definition display_buffer_invariant (atoms : DisplayBuffer) : bool :=
  match atoms with
  | front :: _ => Coord.eqb (atom_coord front) Coord.origin
  | [] => true
  end && coords_nondecreasing atoms.

(** Modelled from the spec: the two queries of an atom (section 3),
    absent with [display_buffer.cc] and taken as an interface. *)
Class DisplayAtomQueries : Type := {
  atom_iterator_at : DisplayAtom -> DisplayCoord -> BufferIterator;
  atom_line_and_column_at : DisplayAtom -> BufferIterator -> DisplayCoord
}.

(** Modelled from the spec: [DisplayBuffer::check_invariant], which
    [update_display_buffer] asserts after every filter, is absent; it is
    taken as an interface. *)
Class DisplayBufferCheck : Type := {
  display_buffer_check_invariant : DisplayBuffer -> bool
}.

(** The buffer ranges of the atoms follow one another: no atom begins
    after the end of the atom before it. *)
Fixpoint ranges_chained (atoms : DisplayBuffer) : bool :=
  match atoms with
  | a :: rest =>
      match rest with
      | b :: _ => atom_begin b <=? atom_end a
      | [] => true
      end && ranges_chained rest
  | [] => true
  end.

(** ** Failures and the window monad *)

(** How an operation can end other than by returning.  [assert]
    ([assert.hh], absent) raises [assert_failed]; it unwinds the stack as
    any other exception does.  [undefined_behaviour] marks a step the C++
    leaves undefined (reading through the end iterator, stepping before
    the first atom); the model stops there. *)
Inductive error : Type :=
| assert_failed
| filter_id_not_unique (id : string)
| undefined_behaviour.

Inductive outcome (A : Type) : Type :=
| Ret (a : A)
| Fail (e : error).

Arguments Ret {A} a.
Arguments Fail {A} e.

(** A computation over a state [S]: the outcome and the state it leaves,
    which is kept when the computation fails. *)
Definition M (S A : Type) : Type := S -> outcome A * S.

Definition ret {S A} (a : A) : M S A := fun s => (Ret a, s).

Definition fail {S A} (e : error) : M S A := fun s => (Fail e, s).

Definition bind {S A B} (m : M S A) (k : A -> M S B) : M S B :=
  fun s =>
    match m s with
    | (Ret a, s') => k a s'
    | (Fail e, s') => (Fail e, s')
    end.

Definition gets {S A} (f : S -> A) : M S A := fun s => (Ret (f s), s).

Definition modify {S} (f : S -> S) : M S unit := fun s => (Ret tt, f s).

(** A query that may fail and leaves the state alone. *)
Definition query {S A} (f : S -> outcome A) : M S A := fun s => (f s, s).

Definition assert {S} (condition : bool) : M S unit :=
  if condition then ret tt else fail assert_failed.

Declare Scope monad_scope.
Delimit Scope monad_scope with monad.
Notation "x <- m ;; k" := (bind m (fun x => k))
  (at level 61, m at next level, right associativity) : monad_scope.
Notation "m ;; k" := (bind m (fun _ => k))
  (at level 61, right associativity) : monad_scope.
Local Open Scope monad_scope.

(** ** The window *)

Definition Filter := DisplayBuffer -> DisplayBuffer.
Definition FilterAndId := (string * Filter)%type.

Record Window : Type := mkWindow {
  m_buffer : Buffer;
  m_position : BufferCoord;
  m_dimensions : DisplayCoord;
  m_selections : list Selection;
  m_display_buffer : DisplayBuffer;
  m_filters : list FilterAndId;
  m_current_inserter : option nat      (* the address of the inserter *)
}.

Definition Selector := BufferIterator -> Selection.
Definition MultiSelector := Selection -> list Selection.

(** [v.back()]: the last element; undefined on an empty vector. *)
Fixpoint back {A} (v : list A) : option A :=
  match v with
  | [] => None
  | [x] => Some x
  | _ :: rest => back rest
  end.

(** [measure_string]: the line and column reached after a text. *)
Fixpoint measure_from (result : DisplayCoord) (s : BufferString)
  : DisplayCoord :=
  match s with
  | [] => result
  | c :: rest =>
      if Ascii.eqb c newline
      then measure_from (mkCoord (line result + 1) 0) rest
      else measure_from (mkCoord (line result) (column result + 1)) rest
  end.

Definition measure_string (s : BufferString) : DisplayCoord :=
  measure_from (mkCoord 0 0) s.

Module Window.
Section WithCollaborators.

Context {buffer_queries : BufferQueries}.
Context {atom_queries : DisplayAtomQueries}.

Definition WM := M Window.

Definition set_buffer (b : Buffer) (w : Window) : Window :=
  mkWindow b (m_position w) (m_dimensions w) (m_selections w)
           (m_display_buffer w) (m_filters w) (m_current_inserter w).

Definition set_position (p : BufferCoord) (w : Window) : Window :=
  mkWindow (m_buffer w) p (m_dimensions w) (m_selections w)
           (m_display_buffer w) (m_filters w) (m_current_inserter w).

Definition set_dimensions (d : DisplayCoord) (w : Window) : Window :=
  mkWindow (m_buffer w) (m_position w) d (m_selections w)
           (m_display_buffer w) (m_filters w) (m_current_inserter w).

Definition set_selections (l : list Selection) (w : Window) : Window :=
  mkWindow (m_buffer w) (m_position w) (m_dimensions w) l
           (m_display_buffer w) (m_filters w) (m_current_inserter w).

Definition set_filters (l : list FilterAndId) (w : Window) : Window :=
  mkWindow (m_buffer w) (m_position w) (m_dimensions w) (m_selections w)
           (m_display_buffer w) l (m_current_inserter w).

Definition set_current_inserter (i : option nat) (w : Window) : Window :=
  mkWindow (m_buffer w) (m_position w) (m_dimensions w) (m_selections w)
           (m_display_buffer w) (m_filters w) i.

Definition on_buffer (f : Buffer -> Buffer) : WM unit :=
  modify (fun w => set_buffer (f (m_buffer w)) w).

(** The atom after the buffer has moved its two iterators. *)
Definition moved_atom (f : BufferIterator -> BufferIterator)
           (a : DisplayAtom) : DisplayAtom :=
  mkAtom (atom_coord a) (f (atom_begin a)) (f (atom_end a)).

(** The window after the buffer has moved the iterators stored in it. *)
Definition iterators_moved (f : BufferIterator -> BufferIterator)
           (w : Window) : Window :=
  mkWindow (m_buffer w) (m_position w) (m_dimensions w)
           (map (Selection.moved f) (m_selections w))
           (map (moved_atom f) (m_display_buffer w))
           (m_filters w) (m_current_inserter w).

(** [m_buffer.insert(pos, s)]: the text changes and the buffer moves
    the stored iterators. *)
Definition buffer_insert (pos : BufferIterator) (s : BufferString)
  : WM unit :=
  modify (fun w =>
            iterators_moved (Buffer.after_insert pos (List.length s))
                            (set_buffer (Buffer.insert (m_buffer w) pos s)
                                        w)).

(** [m_buffer.erase(first, last)]: the text changes and the buffer
    moves the stored iterators. *)
Definition buffer_erase (first last : BufferIterator) : WM unit :=
  modify (fun w =>
            iterators_moved (Buffer.after_erase first last)
                            (set_buffer
                               (Buffer.erase (m_buffer w) first last) w)).

(** [m_selections[index]]. *)
Definition selection_at (index : nat) : WM Selection :=
  query (fun w => match nth_error (m_selections w) index with
                  | Some sel => Ret sel
                  | None => Fail undefined_behaviour
                  end).

(** [v[index] = x]. *)
Fixpoint store {A} (index : nat) (x : A) (v : list A) : list A :=
  match v, index with
  | [], _ => []
  | _ :: rest, 0 => x :: rest
  | y :: rest, S i => y :: store i x rest
  end.

(** [for (auto& sel : m_selections) body(sel)], from the selection at
    [index] on, [count] of them: [sel] is the stored selection, read
    when its turn comes, after what the turns before have done to the
    buffer. *)
Fixpoint visit (body : nat -> Selection -> WM unit) (index count : nat)
  : WM unit :=
  match count with
  | 0 => ret tt
  | S count' =>
      sel <- selection_at index ;;
      body index sel ;;
      visit body (S index) count'
  end.

Definition each_selection (body : Selection -> WM unit) : WM unit :=
  sels <- gets m_selections ;;
  visit (fun _ => body) 0 (List.length sels).

(** [struct scoped_undo_group]: the constructor opens the group, the
    destructor closes it when the scope is left, by return or by an
    exception.  Nothing runs after undefined behaviour. *)
Definition scoped_undo_group {A} (body : WM A) : WM A :=
  fun w =>
    match body (set_buffer (Buffer.begin_undo_group (m_buffer w)) w) with
    | (Fail undefined_behaviour, w') => (Fail undefined_behaviour, w')
    | (r, w') => (r, set_buffer (Buffer.end_undo_group (m_buffer w')) w')
    end.

Definition check_invariant : WM unit :=
  sels <- gets m_selections ;;
  assert (negb (match sels with [] => true | _ => false end)).

(** [m_selections.back()]. *)
Definition primary : WM Selection :=
  query (fun w => match back (m_selections w) with
                  | Some sel => Ret sel
                  | None => Fail undefined_behaviour
                  end).

(** The loop of [Window::iterator_at]: [previous] is the atom before
    [atoms]; returning [None] is leaving the loop without a [return]. *)
Fixpoint iterator_at_loop (previous : option DisplayAtom)
         (atoms : DisplayBuffer) (window_pos : DisplayCoord)
  : option (outcome BufferIterator) :=
  match atoms with
  | [] => None
  | atom :: rest =>
      if Coord.ltb window_pos (atom_coord atom)
      then Some (match previous with
                 | Some before => Ret (atom_iterator_at before window_pos)
                 | None => Fail undefined_behaviour
                 end)
      else iterator_at_loop (Some atom) rest window_pos
  end.

Definition iterator_at (w : Window) (window_pos : DisplayCoord)
  : outcome BufferIterator :=
  match m_display_buffer w with
  | [] => Ret (Buffer.begin (m_buffer w))
  | atoms =>
      let fallback :=
        Ret (buffer_iterator_at (m_buffer w)
                                (Coord.add (m_position w) window_pos)) in
      if Coord.leb Coord.origin window_pos
      then match iterator_at_loop None atoms window_pos with
           | Some found => found
           | None => fallback
           end
      else fallback
  end.

(** The loop of [Window::line_and_column_at]. *)
Fixpoint line_and_column_at_loop (atoms : DisplayBuffer)
         (iterator : BufferIterator) : option (outcome DisplayCoord) :=
  match atoms with
  | [] => None
  | atom :: rest =>
      if iterator <? atom_end atom
      then Some (if atom_begin atom <=? iterator
                 then Ret (atom_line_and_column_at atom iterator)
                 else Fail assert_failed)
      else line_and_column_at_loop rest iterator
  end.

Definition line_and_column_at (w : Window) (iterator : BufferIterator)
  : outcome DisplayCoord :=
  match m_display_buffer w with
  | [] => Ret (mkCoord 0 0)
  | front :: _ =>
      let coord := buffer_line_and_column_at (m_buffer w) iterator in
      let fallback :=
        Ret (mkCoord (line coord - line (m_position w))
                     (column coord - column (m_position w))) in
      match back (m_display_buffer w) with
      | None => fallback
      | Some last_atom =>
          if (atom_begin front <=? iterator)
             && (iterator <? atom_end last_atom)
          then match line_and_column_at_loop (m_display_buffer w)
                                             iterator with
               | Some found => found
               | None => fallback
               end
          else fallback
      end
  end.

Definition set_position_line (l : Z) : WM unit :=
  modify (fun w => set_position (mkCoord l (column (m_position w))) w).

Definition set_position_column (c : Z) : WM unit :=
  modify (fun w => set_position (mkCoord (line (m_position w)) c) w).

Definition scroll_to_keep_cursor_visible_ifn : WM unit :=
  check_invariant ;;
  sel <- primary ;;
  cursor <- query (fun w => line_and_column_at w (m_last sel)) ;;
  position <- gets m_position ;;
  dimensions <- gets m_dimensions ;;
  (if (line cursor <? 0)%Z
   then set_position_line (Z.max (line position + line cursor) 0)
   else if (line dimensions <=? line cursor)%Z
   then set_position_line
          (line position + (line cursor - (line dimensions - 1)))
   else ret tt) ;;
  (if (column cursor <? 0)%Z
   then set_position_column (Z.max (column position + column cursor) 0)
   else if (column dimensions <=? column cursor)%Z
   then set_position_column
          (column position + (column cursor - (column dimensions - 1)))
   else ret tt).

(** *** Edits *)

Definition erase_noundo : WM unit :=
  check_invariant ;;
  each_selection (fun sel =>
    b <- gets m_buffer ;;
    buffer_erase (Selection.begin sel) (Selection.end_ b sel)) ;;
  scroll_to_keep_cursor_visible_ifn.

Definition erase : WM unit := scoped_undo_group erase_noundo.

Definition insert_noundo (s : BufferString) : WM unit :=
  each_selection (fun sel => buffer_insert (Selection.begin sel) s) ;;
  scroll_to_keep_cursor_visible_ifn.

Definition insert (s : BufferString) : WM unit :=
  scoped_undo_group (insert_noundo s).

Definition append_noundo (s : BufferString) : WM unit :=
  each_selection (fun sel =>
    b <- gets m_buffer ;;
    buffer_insert (Selection.end_ b sel) s) ;;
  scroll_to_keep_cursor_visible_ifn.

Definition append (s : BufferString) : WM unit :=
  scoped_undo_group (append_noundo s).

Definition replace (s : BufferString) : WM unit :=
  scoped_undo_group (erase_noundo ;; insert_noundo s).

Definition undo : WM bool :=
  fun w => let (done, b) := Buffer.undo (m_buffer w) in
           (Ret done, set_buffer b w).

(** *** Selections *)

Definition clear_selections : WM unit :=
  check_invariant ;;
  last_sel <- primary ;;
  modify (set_selections [Selection.make (m_last last_sel)
                                         (m_last last_sel)]).

Definition select (selector : Selector) (append : bool) : WM unit :=
  check_invariant ;;
  (if negb append
   then last_sel <- primary ;;
        modify (set_selections [selector (m_last last_sel)])
   else modify (fun w =>
          set_selections
            (map (fun sel => Selection.merge_with sel (selector (m_last sel)))
                 (m_selections w)) w)) ;;
  scroll_to_keep_cursor_visible_ifn.

Definition multi_select (selector : MultiSelector) : WM unit :=
  check_invariant ;;
  modify (fun w => set_selections (flat_map selector (m_selections w)) w) ;;
  scroll_to_keep_cursor_visible_ifn.

Definition move_cursor_to (iterator : BufferIterator) : WM unit :=
  modify (set_selections [Selection.make iterator iterator]) ;;
  scroll_to_keep_cursor_visible_ifn.

(** [sel = x], for the selection at [index]. *)
Definition assign (index : nat) (sel : Selection) : WM unit :=
  modify (fun w => set_selections (store index sel (m_selections w)) w).

(** [for (auto& sel : m_selections) sel = body(sel)]: the selections
    are rewritten in place, one after the other; when the body fails the
    ones already rewritten stay so. *)
Definition for_each (body : Selection -> WM Selection)
           (index count : nat) : WM unit :=
  visit (fun i sel => sel' <- body sel ;; assign i sel') index count.

Definition for_each_selection (body : Selection -> WM Selection)
  : WM unit :=
  sels <- gets m_selections ;;
  for_each body 0 (List.length sels).

(** *** Filters *)

(** The loop of [add_filter]: is the id taken? *)
Fixpoint has_filter_id (id : string) (filters : list FilterAndId) : bool :=
  match filters with
  | [] => false
  | f :: rest => if String.eqb (fst f) id then true
                 else has_filter_id id rest
  end.

Definition add_filter (filter : FilterAndId) : WM unit :=
  filters <- gets m_filters ;;
  if has_filter_id (fst filter) filters
  then fail (filter_id_not_unique (fst filter))
  else modify (set_filters (filters ++ [filter])).

(** The loop of [remove_filter]: erase the first filter of that id. *)
Fixpoint erase_filter_id (id : string) (filters : list FilterAndId)
  : list FilterAndId :=
  match filters with
  | [] => []
  | f :: rest => if String.eqb (fst f) id then rest
                 else f :: erase_filter_id id rest
  end.

Definition remove_filter (id : string) : WM unit :=
  modify (fun w => set_filters (erase_filter_id id (m_filters w)) w).

(** *** Queries, cursor motion and rendering *)

Definition cursor_iterator : WM BufferIterator :=
  check_invariant ;;
  sel <- primary ;;
  ret (m_last sel).

Definition cursor_position : WM DisplayCoord :=
  check_invariant ;;
  it <- cursor_iterator ;;
  query (fun w => line_and_column_at w it).

Definition selection_content : WM BufferString :=
  check_invariant ;;
  sel <- primary ;;
  b <- gets m_buffer ;;
  ret (Buffer.string b (Selection.begin sel) (Selection.end_ b sel)).

Definition move_cursor (offset : DisplayCoord) (append : bool) : WM unit :=
  if negb append
  then it <- cursor_iterator ;;
       b <- gets m_buffer ;;
       let pos := buffer_line_and_column_at b it in
       move_cursor_to (buffer_iterator_at b (Coord.add pos offset))
  else modify (fun w =>
         set_selections
           (map (fun sel =>
                   let pos :=
                     buffer_line_and_column_at (m_buffer w) (m_last sel) in
                   Selection.make
                     (m_first sel)
                     (buffer_iterator_at (m_buffer w) (Coord.add pos offset)))
                (m_selections w)) w) ;;
       scroll_to_keep_cursor_visible_ifn.

Definition set_display_buffer (d : DisplayBuffer) (w : Window) : Window :=
  mkWindow (m_buffer w) (m_position w) (m_dimensions w) (m_selections w)
           d (m_filters w) (m_current_inserter w).

(** The loop of [update_display_buffer]: every filter rewrites the
    display buffer in place, and the invariant is asserted after it. *)
Fixpoint run_filters {display_check : DisplayBufferCheck}
         (filters : list FilterAndId) : WM unit :=
  match filters with
  | [] => ret tt
  | filter :: rest =>
      modify (fun w => set_display_buffer (snd filter (m_display_buffer w)) w) ;;
      d <- gets m_display_buffer ;;
      assert (display_buffer_check_invariant d) ;;
      run_filters rest
  end.

Definition update_display_buffer {display_check : DisplayBufferCheck}
  : WM unit :=
  modify (set_display_buffer []) ;;
  b <- gets m_buffer ;;
  position <- gets m_position ;;
  dimensions <- gets m_dimensions ;;
  let first := buffer_iterator_at b position in
  let last :=
    Buffer.plus b
      (buffer_iterator_at
         b (Coord.add position
                      (mkCoord (line dimensions) (column dimensions))))
      1 in
  if first =? last then ret tt
  else modify (set_display_buffer [mkAtom (mkCoord 0 0) first last]) ;;
       filters <- gets m_filters ;;
       run_filters filters.

(** [Window::set_dimensions]. *)
Definition resize (dimensions : DisplayCoord) : WM unit :=
  modify (set_dimensions dimensions).

Definition complete_filterid (prefix : string) (cursor_pos : nat)
  : WM (list string) :=
  let real_prefix := substring 0 cursor_pos prefix in
  filters <- gets m_filters ;;
  ret (map fst
         (filter (fun f =>
                    String.eqb
                      (substring 0 (String.length real_prefix) (fst f))
                      real_prefix)
                 filters)).

(** [Window::Window], before the registry installs the default filters
    (the registry is absent). *)
Definition initial (buffer : Buffer) : Window :=
  mkWindow buffer (mkCoord 0 0) (mkCoord 0 0)
           [Selection.make (Buffer.begin buffer) (Buffer.begin buffer)]
           [] [] None.

End WithCollaborators.
End Window.

(** ** The incremental inserter *)

Inductive Mode : Type :=
| Insert
| Append
| Change
| OpenLineBelow
| AppendAtLineEnd
| OpenLineAbove
| InsertAtLineBegin.

Module IncrementalInserter.
Section WithCollaborators.

Context {buffer_queries : BufferQueries}.
Context {atom_queries : DisplayAtomQueries}.

Import Window.

(** [while (not pos.is_end() and *pos != '\n') ++pos;]
    Each turn moves one character closer to the end, so [fuel] equal to
    the length of the buffer is never used up. *)
Fixpoint advance_to_newline (fuel : nat) (b : Buffer)
         (pos : BufferIterator) : outcome BufferIterator :=
  if Buffer.is_end b pos then Ret pos
  else match Buffer.deref b pos with
       | None => Fail undefined_behaviour
       | Some c =>
           if Ascii.eqb c newline then Ret pos
           else match fuel with
                | 0 => Fail undefined_behaviour
                | S fuel' =>
                    advance_to_newline fuel' b (Buffer.plus b pos 1)
                end
       end.

(** [while (not pos.is_begin() and *pos != '\n') --pos;] *)
Fixpoint retreat_to_newline (fuel : nat) (b : Buffer)
         (pos : BufferIterator) : outcome BufferIterator :=
  if Buffer.is_begin pos then Ret pos
  else match Buffer.deref b pos with
       | None => Fail undefined_behaviour
       | Some c =>
           if Ascii.eqb c newline then Ret pos
           else match fuel with
                | 0 => Fail undefined_behaviour
                | S fuel' =>
                    retreat_to_newline fuel' b (Buffer.minus pos 1)
                end
       end.

(** The [switch (mode)] of the constructor: where the caret of [sel]
    goes, and what is inserted on the way. *)
Definition position_for (mode : Mode) (sel : Selection)
  : WM BufferIterator :=
  match mode with
  | Insert => ret (Selection.begin sel)
  | Append => b <- gets m_buffer ;; ret (Selection.end_ b sel)
  | Change => ret (Selection.begin sel)
  | OpenLineBelow | AppendAtLineEnd =>
      b <- gets m_buffer ;;
      pos <- query (fun _ =>
               advance_to_newline (Buffer.length b) b
                 (Buffer.minus (Selection.end_ b sel) 1)) ;;
      match mode with
      | OpenLineBelow =>
          let pos := Buffer.plus b pos 1 in
          buffer_insert pos [newline] ;;
          ret pos
      | _ => ret pos
      end
  | OpenLineAbove | InsertAtLineBegin =>
      b <- gets m_buffer ;;
      pos <- query (fun _ =>
               retreat_to_newline (Selection.begin sel) b
                 (Selection.begin sel)) ;;
      match mode with
      | OpenLineAbove => buffer_insert pos [newline]
      | _ => ret tt
      end ;;
      b' <- gets m_buffer ;;
      ret (Buffer.plus b' pos 1)
  end.

(** [IncrementalInserter::IncrementalInserter]; [this] is the address
    of the inserter. *)
Definition construct (this : nat) (mode : Mode) : WM unit :=
  current <- gets m_current_inserter ;;
  assert (match current with None => true | Some _ => false end) ;;
  modify (set_current_inserter (Some this)) ;;
  check_invariant ;;
  on_buffer Buffer.begin_undo_group ;;
  match mode with
  | Change => erase_noundo
  | _ => ret tt
  end ;;
  for_each_selection (fun sel =>
    pos <- position_for mode sel ;;
    ret (mkSelection pos pos (m_captures sel))).

Definition move_cursor (offset : DisplayCoord) : WM unit :=
  for_each_selection (fun sel =>
    pos <- query (fun w => line_and_column_at w (m_last sel)) ;;
    it <- query (fun w => iterator_at w (Coord.add pos offset)) ;;
    ret (Selection.make it it)).

(** [IncrementalInserter::~IncrementalInserter]. *)
Definition destroy (this : nat) : WM unit :=
  move_cursor (mkCoord 0 (-1)) ;;
  current <- gets m_current_inserter ;;
  assert (match current with
          | Some registered => registered =? this
          | None => false
          end) ;;
  modify (set_current_inserter None) ;;
  on_buffer Buffer.end_undo_group.

Definition insert (s : BufferString) : WM unit := insert_noundo s.

Definition insert_capture (index : nat) : WM unit :=
  each_selection (fun sel =>
    buffer_insert (Selection.begin sel) (Selection.capture sel index)) ;;
  scroll_to_keep_cursor_visible_ifn.

Definition erase : WM unit :=
  for_each_selection (fun sel =>
    ret (Selection.make (Buffer.minus (m_first sel) 1)
                        (Buffer.minus (m_last sel) 1))) ;;
  erase_noundo ;;
  scroll_to_keep_cursor_visible_ifn.

(** The words of the spec for [OpenLineBelow] (section 4.10): from
    [sel.end() - 1] advance until end-of-buffer or the next newline,
    insert a newline there, advance past it.  Kept beside
    [position_for] to compare the two. *)
Definition open_line_below_as_specified (sel : Selection)
  : WM BufferIterator :=
  b <- gets m_buffer ;;
  pos <- query (fun _ =>
           advance_to_newline (Buffer.length b) b
             (Buffer.minus (Selection.end_ b sel) 1)) ;;
  buffer_insert pos [newline] ;;
  b' <- gets m_buffer ;;
  ret (Buffer.plus b' pos 1).

(** The public methods of an inserter, as the calls a client makes on
    it between its construction and its destruction. *)
Inductive Key : Type :=
| KeyInsert (s : BufferString)
| KeyInsertCapture (index : nat)
| KeyErase
| KeyMoveCursor (offset : DisplayCoord).

Definition press (key : Key) : WM unit :=
  match key with
  | KeyInsert s => insert s
  | KeyInsertCapture index => insert_capture index
  | KeyErase => erase
  | KeyMoveCursor offset => move_cursor offset
  end.

Fixpoint press_all (keys : list Key) : WM unit :=
  match keys with
  | [] => ret tt
  | key :: rest => press key ;; press_all rest
  end.

(** [{ IncrementalInserter inserter(window, mode); ... }]: the life of
    an inserter in which every call returns. *)
Definition session (this : nat) (mode : Mode) (keys : list Key)
  : WM unit :=
  construct this mode ;;
  press_all keys ;;
  destroy this.

End WithCollaborators.
End IncrementalInserter.

(** ** What the properties speak of *)

(** [w'] is [w] but for its buffer, its scroll position and where the
    buffer has put the stored iterators: the dimensions, the filters
    and the inserter are the same, every selection has the captures it
    had and every atom the coordinate it had. *)
Definition edited (w w' : Window) : Prop :=
  m_dimensions w' = m_dimensions w
  /\ m_filters w' = m_filters w
  /\ m_current_inserter w' = m_current_inserter w
  /\ map m_captures (m_selections w') = map m_captures (m_selections w)
  /\ map atom_coord (m_display_buffer w')
     = map atom_coord (m_display_buffer w).

(** A body of an edit loop: of the edit loops: one call to the buffer, which then
    moves the stored iterators. *)
Definition one_call (kind : BufferCall -> Prop)
           (body : Selection -> Window.WM unit) : Prop :=
  forall sel w,
    exists f b1 call,
      body sel w
      = (Ret tt, Window.iterators_moved f (Window.set_buffer b1 w))
      /\ Buffer.extends_by [call] (m_buffer w) b1
      /\ kind call.

Definition is_erase (call : BufferCall) : Prop :=
  exists first last, call = CallErase first last.

Definition is_insert (s : BufferString) (call : BufferCall) : Prop :=
  exists pos, call = CallInsert pos s.

Definition is_insertion (call : BufferCall) : Prop :=
  exists pos s, call = CallInsert pos s.

(** The text [t] with [s] in the place of its characters from [lo] to
    [hi], the last excluded. *)
Definition splice (s : BufferString) (lo hi : nat) (t : BufferString)
  : BufferString :=
  firstn lo t ++ s ++ skipn hi t.

(** Where the range that an edit takes out for a selection ends: after
    its last character when the edit takes the [whole] selection out,
    at its beginning when it only inserts there. *)
Definition upto (whole : bool) (sel : Selection) : nat :=
  if whole then S (Nat.max (m_first sel) (m_last sel))
  else Selection.begin sel.

(** The text [t] with [s] put in at every selection: in the place of
    the selection when [whole], before it otherwise. *)
Definition spliced (s : BufferString) (whole : bool)
           (sels : list Selection) (t : BufferString) : BufferString :=
  fold_right (fun sel t => splice s (Selection.begin sel) (upto whole sel) t)
             t sels.

(** The selections follow one another in a text of [size] characters:
    the first begins at [from] or after, each begins at or after where
    the range of the one before ends, and the range of the last ends
    inside the text. *)
Fixpoint spaced (whole : bool) (from : nat) (sels : list Selection)
         (size : nat) : Prop :=
  match sels with
  | [] => from <= size
  | sel :: rest =>
      from <= Selection.begin sel
      /\ spaced whole (upto whole sel) rest size
  end.

(** The selections follow one another in the text without overlap, the
    last one ending inside it. *)
Definition apart (sels : list Selection) (size : nat) : Prop :=
  spaced true 0 sels size.

(** Where the buffer leaves the selections it has erased one after the
    other: each one a caret where its text was, [erased] characters
    having gone before it. *)
Fixpoint collapsed (erased : nat) (sels : list Selection)
  : list Selection :=
  match sels with
  | [] => []
  | sel :: rest =>
      mkSelection (Selection.begin sel - erased)
                  (Selection.begin sel - erased) (m_captures sel)
      :: collapsed (erased + (upto true sel - Selection.begin sel)) rest
  end.

(** Where the buffer leaves the selections before each of which it has
    inserted [n] characters, one after the other: each one on its text,
    after what was inserted before it and for it. *)
Fixpoint pushed (n inserted : nat) (sels : list Selection)
  : list Selection :=
  match sels with
  | [] => []
  | sel :: rest =>
      Selection.moved (fun it => it + (inserted + n)) sel
      :: pushed n (inserted + n) rest
  end.

(** Where the modes that open no line put a caret. *)
Definition placed (mode : Mode) (b : Buffer) (sel sel' : Selection)
  : Prop :=
  m_first sel' = m_last sel'
  /\ m_captures sel' = m_captures sel
  /\ match mode with
     | Insert | Change => m_last sel' = Selection.begin sel
     | Append => m_last sel' = Selection.end_ b sel
     | AppendAtLineEnd =>
         Buffer.minus (Selection.end_ b sel) 1 <= m_last sel'
         /\ (m_last sel' = Buffer.length b
             \/ Buffer.deref b (m_last sel') = Some newline)
         /\ forall q,
              Buffer.minus (Selection.end_ b sel) 1 <= q < m_last sel' ->
              Buffer.deref b q <> Some newline
     | InsertAtLineBegin =>
         exists stop,
           stop <= Selection.begin sel
           /\ (stop = 0 \/ Buffer.deref b stop = Some newline)
           /\ (forall q, stop < q <= Selection.begin sel ->
                         Buffer.deref b q <> Some newline)
           /\ m_last sel' = Buffer.plus b stop 1
     | _ => True
     end.

(** ** A plain setting for the worked examples

    One instance of the two interfaces, over unfiltered text: the buffer
    counts lines and columns as [measure_string] does, an atom renders its
    range on one display line. *)
Module Plain.

(** The offset at which line [l] of a text starts. *)
Fixpoint line_start (c : BufferString) (l : nat) : nat :=
  match l, c with
  | 0, _ => 0
  | S _, [] => 0
  | S l', ch :: rest =>
      if Ascii.eqb ch newline then S (line_start rest l')
      else S (line_start rest l)
  end.

Definition buffer_queries : BufferQueries :=
  {| buffer_iterator_at b c :=
       Nat.min (line_start (m_content b) (Z.to_nat (line c))
                + Z.to_nat (column c))
               (Buffer.length b);
     buffer_line_and_column_at b it :=
       measure_string (firstn it (m_content b)) |}.

Definition atom_queries : DisplayAtomQueries :=
  {| atom_iterator_at a c :=
       atom_begin a + Z.to_nat (column c - column (atom_coord a));
     atom_line_and_column_at a it :=
       mkCoord (line (atom_coord a))
               (column (atom_coord a) + Z.of_nat (it - atom_begin a)) |}.

Definition buffer_of (s : string) : Buffer := mkBuffer (text s) [] [] [].

Definition buffer_of_text (t : BufferString) : Buffer :=
  mkBuffer t [] [] [].

Definition caret (it : BufferIterator) : Selection := Selection.make it it.

(** A window on [b] with the given selections and nothing rendered. *)
Definition window (b : Buffer) (sels : list Selection) : Window :=
  mkWindow b (mkCoord 0 0) (mkCoord 0 0) sels [] [] None.

(** Twelve lines of one letter each: line [n] starts at offset [2 n]. *)
Definition twelve_lines : BufferString :=
  List.concat (repeat ["a"%char; newline] 12).

(** A three-line, eighty-column window on [twelve_lines], scrolled to
    the top, its first four characters rendered, the caret on line 10. *)
Definition scrolled_window : Window :=
  mkWindow (buffer_of_text twelve_lines) (mkCoord 0 0) (mkCoord 3 80)
           [caret 20] [mkAtom (mkCoord 0 0) 0 4] [] None.

(** The same window before anything has been rendered. *)
Definition unrendered_window : Window :=
  mkWindow (buffer_of_text twelve_lines) (mkCoord 0 0) (mkCoord 3 80)
           [caret 20] [] [] None.

(** The two lines of scenario S4. *)
Definition abc_def : BufferString :=
  text "abc" ++ [newline] ++ text "def".

(** A window on them, the caret inside the first line. *)
Definition two_lines : Window :=
  window (buffer_of_text abc_def) [caret 1].

(** One line without a final newline. *)
Definition one_line : Window := window (buffer_of "abc") [caret 0].

(** The text of scenario S3, all of it selected. *)
Definition foo : Window := window (buffer_of "foo") [Selection.make 0 2].

(** Two lines and a selection that carries two captures. *)
Definition with_captures : Window :=
  window (buffer_of_text abc_def) [mkSelection 2 1 [text "foo"; text "bar"]].

(** A window with the three default filter ids installed. *)
Definition default_filters : Window :=
  mkWindow (buffer_of "hello world") (mkCoord 0 0) (mkCoord 3 80)
           [caret 0] []
           [("expand_tabs"%string, fun d => d);
            ("highlight_selections"%string, fun d => d);
            ("hlcpp"%string, fun d => d)]
           None.

(** A selection with two captures. *)
Definition captured : Selection :=
  mkSelection 2 5 [text "foo"; text "bar"].

(** A window whose display buffer has three atoms on the first line. *)
Definition three_atoms : Window :=
  mkWindow (buffer_of "hello world") (mkCoord 0 0) (mkCoord 3 80)
           [caret 0]
           [mkAtom (mkCoord 0 0) 0 3; mkAtom (mkCoord 0 3) 3 6;
            mkAtom (mkCoord 0 6) 6 11]
           [] None.

(** A check of the display buffer: the coordinates invariant. *)
Definition display_check : DisplayBufferCheck :=
  {| display_buffer_check_invariant := display_buffer_invariant |}.

(** [three_atoms] in the middle of an insertion session, with a
    forward and a reverse selection. *)
Definition inserting : Window :=
  mkWindow (Buffer.begin_undo_group (buffer_of "hello world"))
           (mkCoord 0 0) (mkCoord 3 80)
           [Selection.make 0 4; Selection.make 8 7]
           [mkAtom (mkCoord 0 0) 0 3; mkAtom (mkCoord 0 3) 3 6;
            mkAtom (mkCoord 0 6) 6 11]
           [] (Some 1).

End Plain.

(* ================================================================== *)
(** * Part II: properties                                              *)
(* ================================================================== *)

(** ** Selections *)

(** C1, as amended.  After [sel.merge_with(other)] the cursor is
    [other]'s cursor and the anchor is the smaller (forward selection) or
    the larger (reverse selection) of the two anchors.  A forward
    selection stays forward exactly when its anchor or [other]'s anchor is
    at or before [other]'s cursor; a reverse selection stays reverse
    exactly when its anchor or [other]'s anchor is at or after [other]'s
    cursor. *)
Theorem merge_with_direction (sel other : Selection) :
  let merged := Selection.merge_with sel other in
  m_last merged = m_last other
  /\ (m_first sel <= m_last sel ->
      m_first merged = Nat.min (m_first sel) (m_first other)
      /\ (m_first merged <= m_last merged <->
          m_first sel <= m_last other \/ m_first other <= m_last other))
  /\ (m_first sel > m_last sel ->
      m_first merged = Nat.max (m_first sel) (m_first other)
      /\ (m_first merged >= m_last merged <->
          m_first sel >= m_last other \/ m_first other >= m_last other)).
Proof.
  unfold Selection.merge_with; cbn.
  split; [reflexivity|].
  split; intros Hdir.
  - apply Nat.leb_le in Hdir. rewrite Hdir. split; [reflexivity|lia].
  - assert (Hf : (m_first sel <=? m_last sel) = false)
      by (apply Nat.leb_gt; lia).
    rewrite Hf. split; [reflexivity|lia].
Qed.

(** The merge of scenario S5 of the spec, both ways. *)
Lemma merge_with_direction_witness :
  Selection.merge_with (Selection.make 2 5) (Selection.make 0 10)
    = Selection.make 0 10
  /\ (m_first (Selection.merge_with (Selection.make 2 5)
                                    (Selection.make 0 10))
      <= m_last (Selection.merge_with (Selection.make 2 5)
                                      (Selection.make 0 10))
      <-> 2 <= 10 \/ 0 <= 10).
Proof.
  split; [reflexivity|].
  apply (merge_with_direction (Selection.make 2 5) (Selection.make 0 10)).
  cbn; lia.
Defined.

(** C1, as stated, fails: a forward selection merged with a reverse one
    whose cursor lies before both anchors comes out reverse, and the
    reverse selection of scenario S5 comes out forward. *)
Lemma merge_with_direction_counterexample :
  exists sel other : Selection,
    let merged := Selection.merge_with sel other in
    (m_first sel <= m_last sel /\ ~ m_first merged <= m_last merged)
  /\ exists sel' other' : Selection,
    let merged' := Selection.merge_with sel' other' in
    m_first sel' > m_last sel' /\ ~ m_first merged' >= m_last merged'.
Proof.
  exists (Selection.make 2 5), (Selection.make 10 0).
  cbn. split; [lia|].
  exists (Selection.make 9 7), (Selection.make 0 10).
  cbn. lia.
Qed.

(** [merge_with] assigns the anchor and the cursor only. *)
Lemma merge_with_captures (sel other : Selection) :
  m_captures (Selection.merge_with sel other) = m_captures sel.
Proof. reflexivity. Qed.

(** [capture] is the indexed capture, or the empty string. *)
Lemma capture_nth_error (sel : Selection) (index : nat) :
  Selection.capture sel index
  = match nth_error (m_captures sel) index with
    | Some s => s
    | None => []
    end.
Proof.
  unfold Selection.capture.
  destruct (index <? List.length (m_captures sel)) eqn:Hlt.
  - apply Nat.ltb_lt in Hlt.
    destruct (nth_error (m_captures sel) index) eqn:Hnth.
    + now apply nth_error_nth.
    + apply nth_error_None in Hnth. lia.
  - apply Nat.ltb_ge in Hlt.
    apply nth_error_None in Hlt. now rewrite Hlt.
Qed.

(** ** Filters *)

Section Filters.

Context {buffer_queries : BufferQueries}.
Context {atom_queries : DisplayAtomQueries}.

Lemma has_filter_id_In (id : string) (filters : list FilterAndId) :
  Window.has_filter_id id filters = true <-> In id (map fst filters).
Proof.
  induction filters as [|f rest IH]; cbn.
  - split; [discriminate|tauto].
  - destruct (String.eqb (fst f) id) eqn:Heq.
    + apply String.eqb_eq in Heq. tauto.
    + apply String.eqb_neq in Heq. rewrite IH. tauto.
Qed.

Lemma erase_filter_id_absent (id : string) (filters : list FilterAndId) :
  ~ In id (map fst filters) -> Window.erase_filter_id id filters = filters.
Proof.
  induction filters as [|f rest IH]; cbn; intros Hnot; [reflexivity|].
  destruct (String.eqb (fst f) id) eqn:Heq.
  - apply String.eqb_eq in Heq. tauto.
  - rewrite IH; tauto.
Qed.

Lemma set_filters_same (w : Window) :
  Window.set_filters (m_filters w) w = w.
Proof. now destruct w. Qed.

(** C8.  [add_filter] raises [filter_id_not_unique], carrying the id,
    exactly when a filter of that id is installed, and then leaves the
    window as it was; otherwise it returns and the pair is the new last
    element of the filter list. *)
Theorem add_filter_unique_id (filter : FilterAndId) (w : Window) :
  (In (fst filter) (map fst (m_filters w)) <->
   fst (Window.add_filter filter w)
     = Fail (filter_id_not_unique (fst filter)))
  /\ (In (fst filter) (map fst (m_filters w)) ->
      Window.add_filter filter w
        = (Fail (filter_id_not_unique (fst filter)), w))
  /\ (~ In (fst filter) (map fst (m_filters w)) ->
      Window.add_filter filter w
        = (Ret tt, Window.set_filters (m_filters w ++ [filter]) w)).
Proof.
  unfold Window.add_filter, bind, gets, fail, modify; cbn.
  destruct (Window.has_filter_id (fst filter) (m_filters w)) eqn:Hhas.
  - assert (Hin : In (fst filter) (map fst (m_filters w)))
      by now apply has_filter_id_In.
    cbn. repeat split; auto; tauto.
  - assert (Hnot : ~ In (fst filter) (map fst (m_filters w))).
    { intros Hin. apply has_filter_id_In in Hin. congruence. }
    cbn. repeat split; auto; try tauto. discriminate.
Qed.

(** C9.  [capture(i)] never fails: it is the i-th capture when [i] is
    in range and the empty string otherwise; [remove_filter] of an id
    that no installed filter has leaves the window, and so its filter
    list, unchanged. *)
Theorem capture_and_remove_filter_silent :
  (forall (sel : Selection) (index : nat),
      (index < List.length (m_captures sel) ->
       nth_error (m_captures sel) index
         = Some (Selection.capture sel index))
      /\ (List.length (m_captures sel) <= index ->
          Selection.capture sel index = []))
  /\ (forall (id : string) (w : Window),
         ~ In id (map fst (m_filters w)) ->
         Window.remove_filter id w = (Ret tt, w)).
Proof.
  split.
  - intros sel index. rewrite capture_nth_error. split; intros Hi.
    + destruct (nth_error (m_captures sel) index) eqn:Hnth;
        [reflexivity|].
      apply nth_error_None in Hnth. lia.
    + apply nth_error_None in Hi. now rewrite Hi.
  - intros id w Hnot. unfold Window.remove_filter, modify.
    rewrite erase_filter_id_absent by assumption.
    now rewrite set_filters_same.
Qed.

End Filters.

(** ** Running the window monad *)

Ltac run :=
  unfold Window.check_invariant, Window.primary, Window.on_buffer,
    Window.set_position_line, Window.set_position_column,
    bind, ret, gets, modify, query, assert, fail in *;
  cbn [fst snd] in *.

(** How a sequence of two computations ends. *)
Lemma bind_inv {S A B} (m : M S A) (k : A -> M S B) (s s' : S)
      (r : outcome B) :
  bind m k s = (r, s') ->
  (exists a s1, m s = (Ret a, s1) /\ k a s1 = (r, s'))
  \/ (exists e, m s = (Fail e, s') /\ r = Fail e).
Proof.
  unfold bind. destruct (m s) as [[a|e] s1].
  - intros H. left. eauto.
  - intros [= <- <-]. right. eauto.
Qed.

Lemma assert_state {S} (condition : bool) (s s' : S) (r : outcome unit) :
  assert condition s = (r, s') -> s' = s.
Proof. unfold assert, ret, fail. destruct condition; now intros [= _ <-]. Qed.

Lemma back_nonempty {A} (v : list A) (x : A) : back v = Some x -> v <> [].
Proof. destruct v; [discriminate|discriminate]. Qed.

Lemma back_some {A} (v : list A) : v <> [] -> exists x, back v = Some x.
Proof.
  induction v as [|y v IH]; [congruence|intros _].
  destruct v as [|z v]; [now exists y|].
  destruct IH as [x Hx]; [discriminate|]. now exists x.
Qed.

(** Registering [hlcpp] twice fails; a new id goes to the end. *)
Lemma add_filter_unique_id_witness :
  Window.add_filter ("hlcpp"%string, fun d => d) Plain.default_filters
  = (Fail (filter_id_not_unique "hlcpp"), Plain.default_filters)
  /\ Window.add_filter ("show_spaces"%string, fun d => d)
                       Plain.default_filters
     = (Ret tt,
        Window.set_filters
          (m_filters Plain.default_filters
             ++ [("show_spaces"%string, fun d => d)])
          Plain.default_filters).
Proof.
  split.
  - apply (proj1 (proj2 (add_filter_unique_id
                           ("hlcpp"%string, fun d => d)
                           Plain.default_filters))).
    cbn. tauto.
  - apply (proj2 (proj2 (add_filter_unique_id
                           ("show_spaces"%string, fun d => d)
                           Plain.default_filters))).
    cbn. intros [H|[H|[H|[]]]]; discriminate H.
Defined.

(** The second capture of two, the missing third, and the removal of a
    filter that is not installed. *)
Lemma capture_and_remove_filter_silent_witness :
  nth_error (m_captures Plain.captured) 1
    = Some (Selection.capture Plain.captured 1)
  /\ Selection.capture Plain.captured 2 = []
  /\ Window.remove_filter "show_spaces" Plain.default_filters
     = (Ret tt, Plain.default_filters).
Proof.
  split; [|split].
  - apply (proj1 capture_and_remove_filter_silent Plain.captured 1).
    cbn. lia.
  - apply (proj1 capture_and_remove_filter_silent Plain.captured 2).
    cbn. lia.
  - apply (proj2 capture_and_remove_filter_silent).
    cbn. intros [H|[H|[H|[]]]]; discriminate H.
Defined.

(** ** Scrolling *)

Section Scrolling.

Context {buffer_queries : BufferQueries}.
Context {atom_queries : DisplayAtomQueries}.

Lemma check_invariant_nonempty (w : Window) :
  m_selections w <> [] -> Window.check_invariant w = (Ret tt, w).
Proof. run. now destruct (m_selections w). Qed.

Lemma check_invariant_state (w w' : Window) (r : outcome unit) :
  Window.check_invariant w = (r, w') -> w' = w.
Proof.
  unfold Window.check_invariant, bind, gets. apply assert_state.
Qed.

Lemma check_invariant_empty (w : Window) :
  m_selections w = [] -> Window.check_invariant w = (Fail assert_failed, w).
Proof. run. now intros ->. Qed.

(** An iterator outside the rendered range maps to its buffer
    coordinate less the scroll position. *)
Lemma line_and_column_at_off_screen
      (w : Window) (front last_atom : DisplayAtom) (rest : DisplayBuffer)
      (it : BufferIterator) :
  m_display_buffer w = front :: rest ->
  back (m_display_buffer w) = Some last_atom ->
  it < atom_begin front \/ atom_end last_atom <= it ->
  Window.line_and_column_at w it
  = Ret (Coord.sub (buffer_line_and_column_at (m_buffer w) it)
                   (m_position w)).
Proof.
  intros Hd Hback Hout. unfold Window.line_and_column_at.
  rewrite Hback. rewrite Hd.
  assert (Hrange : (atom_begin front <=? it) && (it <? atom_end last_atom)
                   = false).
  { apply andb_false_iff. destruct Hout.
    - left. apply Nat.leb_gt. lia.
    - right. apply Nat.ltb_ge. lia. }
  now rewrite Hrange.
Qed.

(** The display mapping returns or fails an assertion. *)
Lemma line_and_column_at_defined (w : Window) (it : BufferIterator) :
  Window.line_and_column_at w it <> Fail undefined_behaviour.
Proof.
  unfold Window.line_and_column_at.
  assert (Hloop : forall atoms found,
             Window.line_and_column_at_loop atoms it = Some found ->
             found <> Fail undefined_behaviour).
  { induction atoms as [|a atoms IH];
      cbn [Window.line_and_column_at_loop]; [discriminate|].
    intros found. destruct (it <? atom_end a).
    - destruct (atom_begin a <=? it); intros [= <-]; discriminate.
    - apply IH. }
  destruct (m_display_buffer w) as [|front rest] eqn:Hd; [discriminate|].
  destruct (back (front :: rest)); [|discriminate].
  destruct ((atom_begin front <=? it) && (it <? atom_end d));
    [|discriminate].
  destruct (Window.line_and_column_at_loop (front :: rest) it) eqn:Hl;
    [|discriminate].
  now apply (Hloop _ _ Hl).
Qed.

Lemma scroll_runs (w : Window) (sel : Selection) (cursor : DisplayCoord) :
  back (m_selections w) = Some sel ->
  Window.line_and_column_at w (m_last sel) = Ret cursor ->
  Window.scroll_to_keep_cursor_visible_ifn w
  = (Ret tt,
     Window.set_position
       (mkCoord
          (if (line cursor <? 0)%Z
           then Z.max (line (m_position w) + line cursor) 0
           else if (line (m_dimensions w) <=? line cursor)%Z
           then line (m_position w)
                + (line cursor - (line (m_dimensions w) - 1))
           else line (m_position w))
          (if (column cursor <? 0)%Z
           then Z.max (column (m_position w) + column cursor) 0
           else if (column (m_dimensions w) <=? column cursor)%Z
           then column (m_position w)
                + (column cursor - (column (m_dimensions w) - 1))
           else column (m_position w)))
       w).
Proof.
  intros Hback Hcursor.
  unfold Window.scroll_to_keep_cursor_visible_ifn.
  unfold bind at 1.
  rewrite (check_invariant_nonempty w (back_nonempty _ _ Hback)).
  run. rewrite Hback, Hcursor.
  destruct w as [b [pl pc] [dl dc] sels d fs ins]; cbn in *.
  destruct (line cursor <? 0)%Z, (dl <=? line cursor)%Z,
    (column cursor <? 0)%Z, (dc <=? column cursor)%Z; reflexivity.
Qed.

(** A scroll moves the position only; it fails, by assertion, when
    there is no selection or the display mapping fails. *)
Lemma scroll_frame (w w' : Window) (r : outcome unit) :
  Window.scroll_to_keep_cursor_visible_ifn w = (r, w') ->
  (exists p, w' = Window.set_position p w)
  /\ r <> Fail undefined_behaviour
  /\ (r = Ret tt -> m_selections w <> []).
Proof.
  destruct (m_selections w) as [|s0 l0] eqn:Hs.
  - unfold Window.scroll_to_keep_cursor_visible_ifn. unfold bind at 1.
    rewrite (check_invariant_empty w Hs). intros [= <- <-].
    split; [|split; [discriminate|discriminate]].
    exists (m_position w). now destruct w.
  - destruct (@back_some _ (m_selections w)) as [sel Hback];
      [rewrite Hs; discriminate|].
    destruct (Window.line_and_column_at w (m_last sel)) as [cursor|e]
      eqn:Hcursor.
    + rewrite (scroll_runs w sel cursor Hback Hcursor). intros [= <- <-].
      split; [eauto|]. split; discriminate.
    + unfold Window.scroll_to_keep_cursor_visible_ifn. unfold bind at 1.
      rewrite (check_invariant_nonempty w) by (rewrite Hs; discriminate).
      run. rewrite Hback, Hcursor. intros [= <- <-].
      split; [exists (m_position w); now destruct w|].
      split; [|discriminate].
      intros [= ->]. now apply (line_and_column_at_defined w (m_last sel)).
Qed.

(** C5, as amended.  [scroll_to_keep_cursor_visible_ifn] maps the
    primary cursor through the display mapping; a cursor line below zero
    moves the position line up by it, but not above zero; a cursor line
    at or past the height moves it down by the excess over the last
    visible line; the columns likewise.  With dimensions (3,80) and
    position (0,0), a cursor that the mapping puts on line 10 leaves the
    position on line 8; the mapping puts a cursor on buffer line 10
    there when something is rendered and the cursor is outside the
    rendered range. *)
Theorem scroll_to_keep_cursor_visible_rule
        (w : Window) (sel : Selection) (cursor : DisplayCoord) :
  back (m_selections w) = Some sel ->
  Window.line_and_column_at w (m_last sel) = Ret cursor ->
  let position := m_position w in
  let dimensions := m_dimensions w in
  Window.scroll_to_keep_cursor_visible_ifn w
  = (Ret tt,
     Window.set_position
       (mkCoord
          (if (line cursor <? 0)%Z
           then Z.max (line position + line cursor) 0
           else if (line dimensions <=? line cursor)%Z
           then line position + (line cursor - (line dimensions - 1))
           else line position)
          (if (column cursor <? 0)%Z
           then Z.max (column position + column cursor) 0
           else if (column dimensions <=? column cursor)%Z
           then column position
                + (column cursor - (column dimensions - 1))
           else column position))
       w)
  /\ (dimensions = mkCoord 3 80 -> position = mkCoord 0 0 ->
      line cursor = 10%Z ->
      line (m_position (snd (Window.scroll_to_keep_cursor_visible_ifn w)))
      = 8%Z)
  /\ (forall front rest last_atom,
         m_display_buffer w = front :: rest ->
         back (m_display_buffer w) = Some last_atom ->
         m_last sel < atom_begin front
         \/ atom_end last_atom <= m_last sel ->
         line (buffer_line_and_column_at (m_buffer w) (m_last sel))
         = 10%Z ->
         dimensions = mkCoord 3 80 -> position = mkCoord 0 0 ->
         line (m_position
                 (snd (Window.scroll_to_keep_cursor_visible_ifn w)))
         = 8%Z).
Proof.
  intros Hback Hcursor position dimensions.
  pose proof (scroll_runs w sel cursor Hback Hcursor) as Hrun.
  fold position dimensions in Hrun.
  assert (Hten : dimensions = mkCoord 3 80 -> position = mkCoord 0 0 ->
                 line cursor = 10%Z ->
                 line (m_position
                   (snd (Window.scroll_to_keep_cursor_visible_ifn w)))
                 = 8%Z).
  { intros Hdim Hpos Hline. rewrite Hrun. cbn.
    rewrite Hdim, Hpos, Hline. reflexivity. }
  split; [exact Hrun|]. split; [exact Hten|].
  intros front rest last_atom Hd Hlast Hout Hline Hdim Hpos.
  apply Hten; try assumption.
  rewrite (line_and_column_at_off_screen
             w front last_atom rest (m_last sel) Hd Hlast Hout) in Hcursor.
  injection Hcursor as <-. cbn. fold position. rewrite Hpos, Hline.
  reflexivity.
Qed.

End Scrolling.

(** Scenario S6: three lines shown from the top, the caret on line 10. *)
Lemma scroll_to_keep_cursor_visible_rule_witness :
  back (m_selections Plain.scrolled_window) = Some (Plain.caret 20)
  /\ Window.line_and_column_at
       (buffer_queries := Plain.buffer_queries)
       (atom_queries := Plain.atom_queries)
       Plain.scrolled_window 20 = Ret (mkCoord 10 0)
  /\ line (m_position
       (snd (Window.scroll_to_keep_cursor_visible_ifn
               (buffer_queries := Plain.buffer_queries)
               (atom_queries := Plain.atom_queries)
               Plain.scrolled_window))) = 8%Z.
Proof.
  split; [reflexivity|]. split; [reflexivity|].
  apply (proj1 (proj2
    (@scroll_to_keep_cursor_visible_rule
       Plain.buffer_queries Plain.atom_queries
       Plain.scrolled_window (Plain.caret 20) (mkCoord 10 0)
       eq_refl eq_refl))); reflexivity.
Defined.

(** C5, as stated, fails.  With dimensions (3,80), position (0,0) and
    the caret on buffer line 10, but nothing rendered, the display
    mapping puts the cursor at (0,0) and the position stays on line 0. *)
Lemma scroll_to_keep_cursor_visible_counterexample :
  m_dimensions Plain.unrendered_window = mkCoord 3 80
  /\ m_position Plain.unrendered_window = mkCoord 0 0
  /\ back (m_selections Plain.unrendered_window) = Some (Plain.caret 20)
  /\ line (buffer_line_and_column_at
             (BufferQueries := Plain.buffer_queries)
             (m_buffer Plain.unrendered_window) 20) = 10%Z
  /\ Window.line_and_column_at
       (buffer_queries := Plain.buffer_queries)
       (atom_queries := Plain.atom_queries)
       Plain.unrendered_window 20 = Ret (mkCoord 0 0)
  /\ Window.scroll_to_keep_cursor_visible_ifn
       (buffer_queries := Plain.buffer_queries)
       (atom_queries := Plain.atom_queries)
       Plain.unrendered_window
     = (Ret tt, Plain.unrendered_window)
  /\ line (m_position
       (snd (Window.scroll_to_keep_cursor_visible_ifn
               (buffer_queries := Plain.buffer_queries)
               (atom_queries := Plain.atom_queries)
               Plain.unrendered_window))) <> 8%Z.
Proof. repeat split; vm_compute; discriminate. Qed.

(** ** The selection list *)

Section SelectionList.

Context {buffer_queries : BufferQueries}.
Context {atom_queries : DisplayAtomQueries}.

(** [multi_select] assigns whatever the selector returns, and only then
    does [scroll_to_keep_cursor_visible_ifn] check the invariant. *)
Lemma multi_select_nothing_selected (selector : MultiSelector) (w : Window) :
  m_selections w <> [] ->
  flat_map selector (m_selections w) = [] ->
  Window.multi_select selector w
  = (Fail assert_failed, Window.set_selections [] w).
Proof.
  intros Hne Hnone. unfold Window.multi_select.
  unfold bind at 1. rewrite (check_invariant_nonempty w Hne).
  unfold bind at 1, modify at 1. rewrite Hnone.
  unfold Window.scroll_to_keep_cursor_visible_ifn.
  unfold bind at 1. now rewrite check_invariant_empty.
Qed.

(** C3, evaluated where it fails.  On a fresh window, whose single
    selection is the caret at the beginning of the buffer,
    [multi_select] with a selector that selects nothing leaves the list
    of selections empty and ends in the failed assertion of
    [check_invariant]. *)
Theorem multi_select_empties_selections (b : Buffer) :
  m_selections (Window.initial b) = [Selection.make 0 0]
  /\ Window.multi_select (fun _ => []) (Window.initial b)
     = (Fail assert_failed, Window.set_selections [] (Window.initial b))
  /\ m_selections
       (snd (Window.multi_select (fun _ => []) (Window.initial b))) = [].
Proof.
  split; [reflexivity|].
  rewrite multi_select_nothing_selected by (cbn; congruence).
  split; reflexivity.
Qed.

(** When [multi_select] returns, it has selected something. *)
Lemma multi_select_returns_nonempty
      (selector : MultiSelector) (w w' : Window) :
  Window.multi_select selector w = (Ret tt, w') -> m_selections w' <> [].
Proof.
  unfold Window.multi_select. unfold bind at 1.
  destruct (Window.check_invariant w) as [[[]|e] w0]; [|discriminate].
  unfold bind at 1, modify at 1. intros Hscroll.
  apply scroll_frame in Hscroll.
  destruct Hscroll as [[p ->] [_ Hne]]. now apply Hne.
Qed.

End SelectionList.

(** ** The display mapping *)

Section CoordOrder.

Lemma ltb_negb_leb (a b : LineAndColumn) :
  Coord.ltb a b = negb (Coord.leb b a).
Proof.
  unfold Coord.ltb, Coord.leb.
  destruct (Z.eqb_spec (line a) (line b)) as [He|He];
    destruct (Z.eqb_spec (line b) (line a)) as [He'|He']; lia.
Qed.

Lemma leb_trans (a b c : LineAndColumn) :
  Coord.leb a b = true -> Coord.leb b c = true -> Coord.leb a c = true.
Proof.
  unfold Coord.leb.
  destruct (Z.eqb_spec (line a) (line b)), (Z.eqb_spec (line b) (line c)),
    (Z.eqb_spec (line a) (line c));
    rewrite ?Z.leb_le, ?Z.ltb_lt; lia.
Qed.

Lemma eqb_origin_leb (a p : LineAndColumn) :
  Coord.eqb a Coord.origin = true ->
  Coord.leb a p = Coord.leb Coord.origin p.
Proof.
  unfold Coord.eqb. intros H. apply andb_true_iff in H.
  destruct H as [Hl Hc]. apply Z.eqb_eq in Hl, Hc.
  destruct a as [l c]; cbn in *. now subst.
Qed.

(** In a display buffer whose coordinates never decrease, no atom lies
    after the last one. *)
Lemma nondecreasing_below_last (atoms : DisplayBuffer) (last_atom : DisplayAtom) :
  coords_nondecreasing atoms = true ->
  back atoms = Some last_atom ->
  forall a, In a atoms ->
            Coord.leb (atom_coord a) (atom_coord last_atom) = true.
Proof.
  induction atoms as [|x atoms IH]; [discriminate|].
  intros Hsorted Hback a Hin.
  destruct atoms as [|y atoms].
  - cbn in Hback. injection Hback as <-.
    destruct Hin as [<-|[]].
    unfold Coord.leb. rewrite Z.eqb_refl. apply Z.leb_refl.
  - cbn [coords_nondecreasing] in Hsorted.
    apply andb_true_iff in Hsorted. destruct Hsorted as [Hxy Hrest].
    assert (Hlast : forall a', In a' (y :: atoms) ->
               Coord.leb (atom_coord a') (atom_coord last_atom) = true)
      by (apply IH; assumption).
    destruct Hin as [<-|Hin]; [|now apply Hlast].
    apply (leb_trans _ _ _ Hxy). apply Hlast. now left.
Qed.

End CoordOrder.

Section DisplayMapping.

Context {buffer_queries : BufferQueries}.
Context {atom_queries : DisplayAtomQueries}.

(** The loop leaves without a [return] when no atom starts after the
    position. *)
Lemma iterator_at_loop_none
      (atoms : DisplayBuffer) (previous : option DisplayAtom)
      (window_pos : DisplayCoord) :
  (forall a, In a atoms -> Coord.ltb window_pos (atom_coord a) = false) ->
  Window.iterator_at_loop previous atoms window_pos = None.
Proof.
  revert previous. induction atoms as [|a atoms IH]; intros previous Hall;
    [reflexivity|].
  cbn [Window.iterator_at_loop].
  rewrite (Hall a) by now left.
  apply IH. intros a' Hin. apply Hall. now right.
Qed.

(** The loop returns at the first atom that starts after the position,
    from the atom before it. *)
Lemma iterator_at_loop_first
      (earlier later : DisplayBuffer) (before atom : DisplayAtom)
      (previous : option DisplayAtom) (window_pos : DisplayCoord) :
  (forall a, In a (earlier ++ [before]) ->
             Coord.ltb window_pos (atom_coord a) = false) ->
  Coord.ltb window_pos (atom_coord atom) = true ->
  Window.iterator_at_loop previous (earlier ++ before :: atom :: later)
                          window_pos
  = Some (Ret (atom_iterator_at before window_pos)).
Proof.
  revert previous.
  induction earlier as [|a earlier IH]; intros previous Hall Hatom.
  - cbn [app Window.iterator_at_loop].
    rewrite (Hall before) by now left. now rewrite Hatom.
  - cbn [app Window.iterator_at_loop].
    rewrite (Hall a) by now left.
    apply IH; [|assumption].
    intros a' Hin. apply Hall. now right.
Qed.

(** Once the loop has passed an atom it returns from an atom or not at
    all. *)
Lemma iterator_at_loop_after_first
      (atoms : DisplayBuffer) (previous : DisplayAtom)
      (window_pos : DisplayCoord) (found : outcome BufferIterator) :
  Window.iterator_at_loop (Some previous) atoms window_pos = Some found ->
  exists it, found = Ret it.
Proof.
  revert previous. induction atoms as [|a atoms IH]; intros previous;
    cbn [Window.iterator_at_loop]; [discriminate|].
  destruct (Coord.ltb window_pos (atom_coord a)).
  - intros [= <-]. eauto.
  - apply IH.
Qed.

(** In a display buffer that keeps its invariant the mapping is defined
    at every position. *)
Lemma iterator_at_defined (w : Window) (window_pos : DisplayCoord) :
  display_buffer_invariant (m_display_buffer w) = true ->
  exists it, Window.iterator_at w window_pos = Ret it.
Proof.
  unfold Window.iterator_at, display_buffer_invariant.
  destruct (m_display_buffer w) as [|front rest]; [eauto|].
  intros Hinv. apply andb_true_iff in Hinv. destruct Hinv as [Hfront _].
  destruct (Coord.leb Coord.origin window_pos) eqn:Horigin; [|eauto].
  cbn [Window.iterator_at_loop].
  rewrite ltb_negb_leb, (eqb_origin_leb _ window_pos Hfront), Horigin.
  cbn [negb].
  destruct (Window.iterator_at_loop (Some front) rest window_pos)
    as [found|] eqn:Hloop; [|eauto].
  apply iterator_at_loop_after_first in Hloop.
  destruct Hloop as [it ->]. eauto.
Qed.

(** C6.  [iterator_at] returns the beginning of the buffer when the
    display buffer is empty; at a position at or after (0,0) it asks the
    atom before the first atom that starts strictly after the position;
    at a position before (0,0), and, in a display buffer that keeps its
    invariant, at a position at or after the start of the last atom, it
    returns [buffer.iterator_at(position + window_pos)]; under that
    invariant it is defined at every position. *)
Theorem iterator_at_cases (w : Window) (window_pos : DisplayCoord) :
  (m_display_buffer w = [] ->
   Window.iterator_at w window_pos = Ret (Buffer.begin (m_buffer w)))
  /\ (forall earlier before atom later,
         m_display_buffer w = earlier ++ before :: atom :: later ->
         Coord.leb Coord.origin window_pos = true ->
         (forall a, In a (earlier ++ [before]) ->
                    Coord.ltb window_pos (atom_coord a) = false) ->
         Coord.ltb window_pos (atom_coord atom) = true ->
         Window.iterator_at w window_pos
         = Ret (atom_iterator_at before window_pos))
  /\ (m_display_buffer w <> [] ->
      Coord.leb Coord.origin window_pos = false ->
      Window.iterator_at w window_pos
      = Ret (buffer_iterator_at (m_buffer w)
                                (Coord.add (m_position w) window_pos)))
  /\ (forall last_atom,
         display_buffer_invariant (m_display_buffer w) = true ->
         back (m_display_buffer w) = Some last_atom ->
         Coord.leb (atom_coord last_atom) window_pos = true ->
         Window.iterator_at w window_pos
         = Ret (buffer_iterator_at (m_buffer w)
                                   (Coord.add (m_position w) window_pos)))
  /\ (display_buffer_invariant (m_display_buffer w) = true ->
      exists it, Window.iterator_at w window_pos = Ret it).
Proof.
  split; [|split; [|split; [|split]]]; [| | | |apply iterator_at_defined];
    unfold Window.iterator_at.
  - now intros ->.
  - intros earlier before atom later Hd Horigin Hall Hatom.
    pose proof (iterator_at_loop_first earlier later before atom None
                  window_pos Hall Hatom) as Hloop.
    rewrite Hd.
    destruct earlier; cbn [app] in *; cbv beta iota;
      rewrite Horigin, Hloop; reflexivity.
  - intros Hne Hneg. rewrite Hneg.
    now destruct (m_display_buffer w).
  - intros last_atom Hinv Hback Hpast.
    destruct (m_display_buffer w) as [|front rest] eqn:Hd; [discriminate|].
    unfold display_buffer_invariant in Hinv.
    apply andb_true_iff in Hinv. destruct Hinv as [Hfront Hsorted].
    rewrite iterator_at_loop_none;
      [destruct (Coord.leb Coord.origin window_pos); reflexivity|].
    intros a Hin. rewrite ltb_negb_leb.
    apply negb_false_iff.
    apply (leb_trans _ (atom_coord last_atom)); [|assumption].
    now apply (nondecreasing_below_last (front :: rest)).
Qed.

End DisplayMapping.

(** Inside the second atom, past the start of the last one, and above
    the first line. *)
Lemma iterator_at_cases_witness :
  Window.iterator_at (buffer_queries := Plain.buffer_queries)
                     (atom_queries := Plain.atom_queries)
                     Plain.three_atoms (mkCoord 0 4) = Ret 4
  /\ Window.iterator_at (buffer_queries := Plain.buffer_queries)
                        (atom_queries := Plain.atom_queries)
                        Plain.three_atoms (mkCoord 0 7) = Ret 7
  /\ Window.iterator_at (buffer_queries := Plain.buffer_queries)
                        (atom_queries := Plain.atom_queries)
                        Plain.three_atoms (mkCoord (-1) 2) = Ret 2.
Proof.
  pose proof (@iterator_at_cases Plain.buffer_queries Plain.atom_queries
                Plain.three_atoms) as H.
  split; [|split].
  - apply (proj1 (proj2 (H (mkCoord 0 4)))
             [mkAtom (mkCoord 0 0) 0 3] (mkAtom (mkCoord 0 3) 3 6)
             (mkAtom (mkCoord 0 6) 6 11) []); try reflexivity.
    intros a [<-|[<-|[]]]; reflexivity.
  - apply (proj1 (proj2 (proj2 (proj2 (H (mkCoord 0 7)))))
             (mkAtom (mkCoord 0 6) 6 11)); reflexivity.
  - apply (proj1 (proj2 (proj2 (H (mkCoord (-1) 2))))); [discriminate|].
    reflexivity.
Defined.


(** ** Loops over the selections *)

Section Stored.

Lemma store_length {A} (index : nat) (x : A) (v : list A) :
  List.length (Window.store index x v) = List.length v.
Proof.
  revert index. induction v as [|y v IH]; intros [|index]; cbn; auto.
Qed.

Lemma store_same {A} (index : nat) (x : A) (v : list A) :
  index < List.length v -> nth_error (Window.store index x v) index = Some x.
Proof.
  revert index. induction v as [|y v IH]; intros [|index]; cbn;
    try lia; [reflexivity|]. intros H. apply IH. lia.
Qed.

Lemma store_other {A} (index other : nat) (x : A) (v : list A) :
  other <> index ->
  nth_error (Window.store index x v) other = nth_error v other.
Proof.
  revert index other.
  induction v as [|y v IH]; intros [|index] [|other]; cbn; auto;
    try congruence.
Qed.

Lemma store_map {A B} (f : A -> B) (index : nat) (x : A) (v : list A) :
  map f (Window.store index x v) = Window.store index (f x) (map f v).
Proof.
  revert index. induction v as [|y v IH]; intros [|index]; cbn;
    congruence.
Qed.

(** Storing what is there already changes nothing. *)
Lemma store_there {A} (index : nat) (x : A) (v : list A) :
  nth_error v index = Some x -> Window.store index x v = v.
Proof.
  revert index. induction v as [|y v IH]; intros [|index]; cbn;
    try discriminate.
  - now intros [= ->].
  - intros H. now rewrite IH.
Qed.

Lemma store_after {A} (done rest : list A) (old x : A) :
  Window.store (List.length done) x (done ++ old :: rest)
  = done ++ x :: rest.
Proof. induction done; cbn; congruence. Qed.

End Stored.

Section Visit.

Context {buffer_queries : BufferQueries}.
Context {atom_queries : DisplayAtomQueries}.

Variable body : nat -> Selection -> Window.WM unit.
Variable n : nat.
Variable Inv : nat -> Window -> Prop.
Variable Stop : error -> Window -> Prop.

Hypothesis Inv_length :
  forall i w, Inv i w -> List.length (m_selections w) = n.

Hypothesis body_step :
  forall i w sel r w1,
    i < n -> Inv i w ->
    nth_error (m_selections w) i = Some sel ->
    body i sel w = (r, w1) ->
    match r with
    | Ret _ => Inv (S i) w1
    | Fail e => Stop e w1
    end.

(** A loop that keeps an invariant from one selection to the next ends
    with it; a loop that fails ends as its body failed. *)
Lemma visit_inv (count i : nat) (w w' : Window) (r : outcome unit) :
  i + count = n ->
  Inv i w ->
  Window.visit body i count w = (r, w') ->
  match r with
  | Ret _ => Inv n w'
  | Fail e => Stop e w'
  end.
Proof.
  revert i w. induction count as [|count IH]; intros i w Hn Hinv Hrun.
  - cbn in Hrun. injection Hrun as <- <-.
    now replace n with i by lia.
  - cbn [Window.visit] in Hrun. unfold bind at 1 in Hrun.
    unfold Window.selection_at at 1, query at 1 in Hrun.
    destruct (nth_error (m_selections w) i) as [sel|] eqn:Hsel.
    2:{ apply nth_error_None in Hsel.
        rewrite (Inv_length _ _ Hinv) in Hsel. lia. }
    unfold bind at 1 in Hrun.
    destruct (body i sel w) as [[[]|e] w1] eqn:Hbody.
    + apply (body_step i w sel _ _) in Hbody; [|lia|assumption|assumption].
      apply (IH (S i) w1); [lia|assumption|assumption].
    + injection Hrun as <- <-.
      apply (body_step i w sel _ _) in Hbody; [|lia|assumption|assumption].
      exact Hbody.
Qed.

Hypothesis body_returns :
  forall i w sel,
    i < n -> Inv i w ->
    nth_error (m_selections w) i = Some sel ->
    exists w1, body i sel w = (Ret tt, w1).

(** A loop whose body returns wherever the invariant holds returns. *)
Lemma visit_returns (count i : nat) (w : Window) :
  i + count = n ->
  Inv i w ->
  exists w', Window.visit body i count w = (Ret tt, w').
Proof.
  revert i w. induction count as [|count IH]; intros i w Hn Hinv.
  - cbn. unfold ret. eauto.
  - cbn [Window.visit]. unfold bind at 1.
    unfold Window.selection_at at 1, query at 1.
    destruct (nth_error (m_selections w) i) as [sel|] eqn:Hsel.
    2:{ apply nth_error_None in Hsel.
        rewrite (Inv_length _ _ Hinv) in Hsel. lia. }
    unfold bind at 1.
    destruct (body_returns i w sel) as [w1 Hbody];
      [lia|assumption|assumption|].
    rewrite Hbody.
    apply (body_step i w sel _ _) in Hbody; [|lia|assumption|assumption].
    apply IH; [lia|assumption].
Qed.

End Visit.

Section Runs.

Context {buffer_queries : BufferQueries}.
Context {atom_queries : DisplayAtomQueries}.

(** The windows a returned loop went through: the one before every
    turn, and the last. *)
Lemma visit_run (body : nat -> Selection -> Window.WM unit)
      (count i : nat) (w w' : Window) :
  Window.visit body i count w = (Ret tt, w') ->
  exists run,
    List.length run = S count
    /\ nth_error run 0 = Some w
    /\ nth_error run count = Some w'
    /\ forall k before after,
         nth_error run k = Some before ->
         nth_error run (S k) = Some after ->
         exists sel,
           nth_error (m_selections before) (i + k) = Some sel
           /\ body (i + k) sel before = (Ret tt, after).
Proof.
  revert i w. induction count as [|count IH]; intros i w Hrun.
  - cbn in Hrun. injection Hrun as <-.
    exists [w]. repeat split.
    intros [|k] before after H1 H2; cbn in H2; [discriminate|].
    now destruct k.
  - cbn [Window.visit] in Hrun. unfold bind at 1 in Hrun.
    unfold Window.selection_at at 1, query at 1 in Hrun.
    destruct (nth_error (m_selections w) i) as [sel|] eqn:Hsel;
      [|discriminate Hrun].
    unfold bind at 1 in Hrun.
    destruct (body i sel w) as [[[]|e] w1] eqn:Hbody;
      [|discriminate Hrun].
    destruct (IH _ _ Hrun) as (run & Hlen & Hfirst & Hlast & Hsteps).
    exists (w :: run). cbn [List.length nth_error].
    split; [now rewrite Hlen|]. split; [reflexivity|].
    split; [exact Hlast|].
    intros [|k] before after H1 H2.
    + change (nth_error run 0 = Some after) in H2.
      injection H1 as <-. rewrite Hfirst in H2. injection H2 as <-.
      rewrite Nat.add_0_r. eauto.
    + change (nth_error run k = Some before) in H1.
      change (nth_error run (S k) = Some after) in H2.
      destruct (Hsteps k before after H1 H2) as (sel' & Hsel' & Hbody').
      exists sel'. replace (i + S k) with (S i + k) by lia. eauto.
Qed.

End Runs.

(** ** The incremental inserter *)

Section LineScans.

Lemma deref_inside (b : Buffer) (pos : BufferIterator) :
  pos < Buffer.length b -> exists c, Buffer.deref b pos = Some c.
Proof.
  intros Hlt. unfold Buffer.deref.
  destruct (nth_error (m_content b) pos) eqn:Hnth; [eauto|].
  apply nth_error_None in Hnth. unfold Buffer.length in Hlt. lia.
Qed.

(** The forward scan stops at the end of the buffer or on the first
    newline at or after its start. *)
Lemma advance_to_newline_stops (fuel : nat) (b : Buffer)
      (pos : BufferIterator) :
  pos <= Buffer.length b ->
  Buffer.length b - pos <= fuel ->
  exists stop,
    IncrementalInserter.advance_to_newline fuel b pos = Ret stop
    /\ pos <= stop <= Buffer.length b
    /\ (stop = Buffer.length b \/ Buffer.deref b stop = Some newline)
    /\ (forall q, pos <= q < stop -> Buffer.deref b q <> Some newline).
Proof.
  revert pos. induction fuel as [|fuel IH]; intros pos Hle Hfuel.
  - assert (pos = Buffer.length b) as -> by lia.
    exists (Buffer.length b). cbn.
    unfold Buffer.is_end. rewrite Nat.eqb_refl.
    repeat split; auto; lia.
  - cbn [IncrementalInserter.advance_to_newline].
    unfold Buffer.is_end.
    destruct (Nat.eqb_spec pos (Buffer.length b)) as [->|Hne].
    + exists (Buffer.length b). repeat split; auto; lia.
    + destruct (deref_inside b pos) as [c Hc]; [lia|].
      rewrite Hc.
      destruct (Ascii.eqb_spec c newline) as [->|Hnl].
      * exists pos. repeat split; auto; lia.
      * assert (Hplus : Buffer.plus b pos 1 = S pos)
          by (unfold Buffer.plus; lia).
        rewrite Hplus.
        destruct (IH (S pos)) as [stop [Hrun [Hrange [Hstop Hnone]]]];
          [lia|lia|].
        exists stop. repeat split; auto; try lia.
        intros q Hq.
        destruct (Nat.eq_dec q pos) as [->|Hqp];
          [rewrite Hc; congruence|apply Hnone; lia].
Qed.

(** The backward scan, started inside the text or at its beginning,
    stops at the beginning of the buffer or on the first newline at or
    before its start. *)
Lemma retreat_to_newline_stops (fuel : nat) (b : Buffer)
      (pos : BufferIterator) :
  pos <= fuel ->
  pos < Buffer.length b \/ pos = 0 ->
  exists stop,
    IncrementalInserter.retreat_to_newline fuel b pos = Ret stop
    /\ stop <= pos
    /\ (stop = 0 \/ Buffer.deref b stop = Some newline)
    /\ (forall q, stop < q <= pos -> Buffer.deref b q <> Some newline).
Proof.
  revert pos. induction fuel as [|fuel IH]; intros pos Hfuel Hin.
  - assert (pos = 0) as -> by lia.
    exists 0. cbn. repeat split; auto; lia.
  - cbn [IncrementalInserter.retreat_to_newline].
    unfold Buffer.is_begin.
    destruct (Nat.eqb_spec pos 0) as [->|Hne].
    + exists 0. repeat split; auto; lia.
    + destruct (deref_inside b pos) as [c Hc]; [lia|].
      rewrite Hc.
      destruct (Ascii.eqb_spec c newline) as [->|Hnl].
      * exists pos. repeat split; auto; lia.
      * unfold Buffer.minus.
        destruct (IH (pos - 1)) as [stop [Hrun [Hrange [Hstop Hnone]]]];
          [lia|lia|].
        exists stop. repeat split; auto; try lia.
        intros q Hq.
        destruct (Nat.eq_dec q pos) as [->|Hqp];
          [rewrite Hc; congruence|apply Hnone; lia].
Qed.

(** What a returned backward scan says, whatever its start. *)
Lemma retreat_to_newline_returned (fuel : nat) (b : Buffer)
      (pos stop : BufferIterator) :
  IncrementalInserter.retreat_to_newline fuel b pos = Ret stop ->
  stop <= pos
  /\ (stop = 0 \/ Buffer.deref b stop = Some newline)
  /\ (forall q, stop < q <= pos -> Buffer.deref b q <> Some newline).
Proof.
  revert pos. induction fuel as [|fuel IH]; intros pos Hrun;
    cbn [IncrementalInserter.retreat_to_newline] in Hrun;
    unfold Buffer.is_begin in Hrun;
    (destruct (Nat.eqb_spec pos 0) as [Hzero|Hne];
     [injection Hrun as <-; repeat split; auto; lia|]);
    (destruct (Buffer.deref b pos) as [c|] eqn:Hc; [|discriminate]);
    (destruct (Ascii.eqb_spec c newline) as [Hnl|Hnl];
     [injection Hrun as <-; subst c; repeat split; auto; lia|]).
  - discriminate.
  - apply IH in Hrun. unfold Buffer.minus in Hrun.
    destruct Hrun as [Hle [Hstop Hnone]].
    repeat split; auto; try lia.
    intros q Hq.
    destruct (Nat.eq_dec q pos) as [->|Hqp];
      [rewrite Hc; congruence|apply Hnone; lia].
Qed.

End LineScans.

Section Texts.

Lemma measure_from_app (s1 s2 : BufferString) (from : DisplayCoord) :
  measure_from from (s1 ++ s2) = measure_from (measure_from from s1) s2.
Proof.
  revert from. induction s1 as [|c s1 IH]; intros from; [reflexivity|].
  cbn. destruct (Ascii.eqb c newline); apply IH.
Qed.

(** A text splits around the character at an offset. *)
Lemma split_at (c : BufferString) (n : nat) (x : ascii) :
  nth_error c n = Some x ->
  firstn (S n) c = firstn n c ++ [x]
  /\ skipn n c = x :: skipn (S n) c
  /\ List.length (firstn n c) = n.
Proof.
  revert n. induction c as [|y c IH]; intros [|n]; cbn; try discriminate.
  - intros [= ->]. auto.
  - intros Hn. destruct (IH n Hn) as [Hf [Hs Hl]].
    cbn in Hf. rewrite Hf, Hl. auto.
Qed.

Lemma firstn_exact {A} (l1 l2 : list A) :
  firstn (List.length l1) (l1 ++ l2) = l1.
Proof. induction l1; cbn; [now destruct l2|congruence]. Qed.

Lemma skipn_exact {A} (l1 l2 : list A) :
  skipn (List.length l1) (l1 ++ l2) = l2.
Proof. induction l1; cbn; congruence. Qed.

Lemma firstn_succ_app {A} (l1 l2 : list A) (x : A) :
  firstn (S (List.length l1)) (l1 ++ x :: l2) = l1 ++ [x].
Proof.
  induction l1 as [|a l1 IH]; [reflexivity|].
  cbn [List.length app]. now rewrite firstn_cons, IH.
Qed.

Lemma nth_error_after {A} (l1 l2 : list A) (x : A) :
  nth_error (l1 ++ x :: l2) (List.length l1) = Some x.
Proof. induction l1; cbn; [reflexivity|assumption]. Qed.

Lemma length_firstn_min {A} (n : nat) (l : list A) :
  List.length (firstn n l) = Nat.min n (List.length l).
Proof.
  revert n; induction l as [|x l IH]; intros [|n]; cbn; auto.
Qed.

End Texts.


(** ** The buffer and the iterators it moves *)

Section UndoLog.

Lemma undo_insertion (c s : BufferString) (pos : nat) :
  Buffer.undo_modification (firstn pos c ++ s ++ skipn pos c)
    (Insertion (Nat.min pos (List.length c)) s) = c.
Proof.
  cbn [Buffer.undo_modification].
  rewrite <- length_firstn_min, firstn_exact.
  rewrite app_assoc, <- length_app, skipn_exact.
  apply firstn_skipn.
Qed.

Lemma undo_deletion (c : BufferString) (first last : nat) :
  Buffer.undo_modification (firstn first c ++ skipn (Nat.max first last) c)
    (Deletion (Nat.min first (List.length c))
              (firstn (last - first) (skipn first c))) = c.
Proof.
  cbn [Buffer.undo_modification].
  rewrite <- length_firstn_min, firstn_exact, skipn_exact.
  replace (Nat.max first last) with ((last - first) + first) by lia.
  rewrite <- skipn_skipn, firstn_skipn.
  apply firstn_skipn.
Qed.

Lemma extends_by_nil (b : Buffer) : Buffer.extends_by [] b b.
Proof.
  unfold Buffer.extends_by. rewrite app_nil_r.
  repeat split. now exists [].
Qed.

Lemma extends_by_app (c1 c2 : list BufferCall) (b b1 b2 : Buffer) :
  Buffer.extends_by c1 b b1 -> Buffer.extends_by c2 b1 b2 ->
  Buffer.extends_by (c1 ++ c2) b b2.
Proof.
  intros [Hc1 [Hm1 [Hh1 [g1 [Hg1 Hu1]]]]] [Hc2 [Hm2 [Hh2 [g2 [Hg2 Hu2]]]]].
  unfold Buffer.extends_by. repeat split.
  - now rewrite Hc2, Hc1, app_assoc.
  - rewrite forallb_app, Hm1, Hm2. reflexivity.
  - congruence.
  - exists (g2 ++ g1). split.
    + now rewrite Hg2, Hg1, app_assoc.
    + now rewrite fold_left_app, Hu2.
Qed.

Lemma extends_by_insert (b : Buffer) (pos : BufferIterator)
      (s : BufferString) :
  Buffer.extends_by [CallInsert pos s] b (Buffer.insert b pos s).
Proof.
  unfold Buffer.extends_by, Buffer.insert. cbn [m_calls m_history
    m_current_undo_group m_content forallb Buffer.is_mutation andb].
  repeat split.
  exists [Insertion (Nat.min pos (Buffer.length b)) s]. split; [reflexivity|].
  cbn [fold_left]. apply undo_insertion.
Qed.

Lemma extends_by_erase (b : Buffer) (first last : BufferIterator) :
  Buffer.extends_by [CallErase first last] b (Buffer.erase b first last).
Proof.
  unfold Buffer.extends_by, Buffer.erase. cbn [m_calls m_history
    m_current_undo_group m_content forallb Buffer.is_mutation andb].
  repeat split.
  exists [Deletion (Nat.min first (Buffer.length b))
                   (Buffer.string b first last)].
  split; [reflexivity|].
  cbn [fold_left]. apply undo_deletion.
Qed.

End UndoLog.

Section Frames.

Context {buffer_queries : BufferQueries}.
Context {atom_queries : DisplayAtomQueries}.

Lemma edited_refl (w : Window) : edited w w.
Proof. repeat split. Qed.

Lemma edited_trans (w1 w2 w3 : Window) :
  edited w1 w2 -> edited w2 w3 -> edited w1 w3.
Proof.
  intros (A1 & A2 & A3 & A4 & A5) (B1 & B2 & B3 & B4 & B5).
  repeat split; congruence.
Qed.

Lemma edited_length (w w' : Window) :
  edited w w' ->
  List.length (m_selections w') = List.length (m_selections w).
Proof.
  intros (_ & _ & _ & H & _).
  rewrite <- (length_map m_captures (m_selections w')), H.
  apply length_map.
Qed.

(** The buffer moves the stored iterators and nothing else. *)
Lemma edited_moved (f : BufferIterator -> BufferIterator) (b : Buffer)
      (w : Window) :
  edited w (Window.iterators_moved f (Window.set_buffer b w)).
Proof.
  unfold edited, Window.iterators_moved, Window.set_buffer.
  cbn [m_dimensions m_filters m_current_inserter m_selections
       m_display_buffer].
  repeat split.
  - rewrite map_map. apply map_ext. reflexivity.
  - rewrite map_map. apply map_ext. reflexivity.
Qed.

Lemma edited_position (p : BufferCoord) (w : Window) :
  edited w (Window.set_position p w).
Proof. repeat split. Qed.

Lemma edited_buffer (b : Buffer) (w : Window) :
  edited w (Window.set_buffer b w).
Proof. repeat split. Qed.

(** Assigning a selection that has the captures of the one it
    replaces. *)
Lemma edited_assign (index : nat) (sel sel' : Selection) (w : Window) :
  nth_error (m_selections w) index = Some sel ->
  m_captures sel' = m_captures sel ->
  edited w (Window.set_selections
              (Window.store index sel' (m_selections w)) w).
Proof.
  intros Hsel Hcaptures. unfold edited, Window.set_selections.
  cbn [m_dimensions m_filters m_current_inserter m_selections
       m_display_buffer].
  repeat split.
  rewrite store_map, Hcaptures. apply store_there.
  now rewrite nth_error_map, Hsel.
Qed.

Lemma scroll_edited (w w' : Window) (r : outcome unit) :
  Window.scroll_to_keep_cursor_visible_ifn w = (r, w') ->
  edited w w'
  /\ m_buffer w' = m_buffer w
  /\ m_selections w' = m_selections w
  /\ r <> Fail undefined_behaviour.
Proof.
  intros H. apply scroll_frame in H. destruct H as [[p ->] [Hdefined _]].
  split; [apply edited_position|]. repeat split. exact Hdefined.
Qed.

End Frames.

Section EditLoops.

Context {buffer_queries : BufferQueries}.
Context {atom_queries : DisplayAtomQueries}.

(** A loop of such bodies always returns; it makes one call to the
    buffer for every selection and leaves the scroll position alone. *)
Lemma each_selection_calls (kind : BufferCall -> Prop)
      (body : Selection -> Window.WM unit) (w : Window) :
  one_call kind body ->
  exists w' calls,
    Window.each_selection body w = (Ret tt, w')
    /\ edited w w'
    /\ m_position w' = m_position w
    /\ Buffer.extends_by calls (m_buffer w) (m_buffer w')
    /\ List.length calls = List.length (m_selections w)
    /\ Forall kind calls.
Proof.
  intros Hbody. unfold Window.each_selection. unfold bind at 1, gets at 1.
  set (n := List.length (m_selections w)).
  set (Inv := fun (i : nat) (w1 : Window) =>
                edited w w1
                /\ m_position w1 = m_position w
                /\ exists calls,
                    Buffer.extends_by calls (m_buffer w) (m_buffer w1)
                    /\ List.length calls = i
                    /\ Forall kind calls).
  assert (Hlength : forall i w1, Inv i w1 ->
                                 List.length (m_selections w1) = n).
  { intros i w1 (He & _). exact (edited_length _ _ He). }
  assert (Hstep : forall i w1 sel r w2,
    i < n -> Inv i w1 -> nth_error (m_selections w1) i = Some sel ->
    body sel w1 = (r, w2) ->
    match r with Ret _ => Inv (S i) w2 | Fail _ => False end).
  { intros i w1 sel r w2 _ (He & Hp & calls & Hext & Hlen & Hkind) _ Hrun.
    destruct (Hbody sel w1) as (f & b1 & call & Hrun' & Hcall & Hk).
    rewrite Hrun' in Hrun. injection Hrun as <- <-.
    split; [exact (edited_trans _ _ _ He (edited_moved _ _ _))|].
    split; [exact Hp|]. exists (calls ++ [call]).
    split; [exact (extends_by_app _ _ _ _ _ Hext Hcall)|].
    split; [rewrite length_app; cbn; lia|].
    apply Forall_app. split; [exact Hkind|now constructor]. }
  assert (Hstart : Inv 0 w).
  { split; [apply edited_refl|]. split; [reflexivity|].
    exists []. split; [apply extends_by_nil|]. split; [reflexivity|].
    constructor. }
  destruct (visit_returns (fun _ => body) n Inv (fun _ _ => False)
              Hlength Hstep) with (count := n) (i := 0) (w := w)
    as [w' Hrun]; [|reflexivity|exact Hstart|].
  { intros i w1 sel _ _ _.
    destruct (Hbody sel w1) as (f & b1 & call & Hrun' & _). eauto. }
  exists w'.
  pose proof (visit_inv (fun _ => body) n Inv (fun _ _ => False)
                Hlength Hstep n 0 w w' (Ret tt) eq_refl Hstart Hrun)
    as (He & Hp & calls & Hext & Hlen & Hkind).
  exists calls.
  split; [exact Hrun|]. split; [exact He|]. split; [exact Hp|].
  split; [exact Hext|]. split; [exact Hlen|exact Hkind].
Qed.

Lemma erase_body_one_call :
  one_call is_erase
           (fun sel =>
              b <- gets m_buffer ;;
              Window.buffer_erase (Selection.begin sel)
                                  (Selection.end_ b sel))%monad.
Proof.
  intros sel w. do 3 eexists. split; [reflexivity|].
  split; [apply extends_by_erase|]. unfold is_erase. eauto.
Qed.

Lemma insert_body_one_call (s : BufferString) :
  one_call (is_insert s)
           (fun sel => Window.buffer_insert (Selection.begin sel) s).
Proof.
  intros sel w. do 3 eexists. split; [reflexivity|].
  split; [apply extends_by_insert|]. unfold is_insert. eauto.
Qed.

Lemma append_body_one_call (s : BufferString) :
  one_call (is_insert s)
           (fun sel =>
              b <- gets m_buffer ;;
              Window.buffer_insert (Selection.end_ b sel) s)%monad.
Proof.
  intros sel w. do 3 eexists. split; [reflexivity|].
  split; [apply extends_by_insert|]. unfold is_insert. eauto.
Qed.

Lemma capture_body_one_call (index : nat) :
  one_call is_insertion
           (fun sel =>
              Window.buffer_insert (Selection.begin sel)
                                   (Selection.capture sel index)).
Proof.
  intros sel w. do 3 eexists. split; [reflexivity|].
  split; [apply extends_by_insert|]. unfold is_insertion. eauto.
Qed.

(** What the three edits without a group of their own do, however
    they end: one call to the buffer for every selection. *)
Lemma erase_noundo_spec (w w' : Window) (r : outcome unit) :
  Window.erase_noundo w = (r, w') ->
  r <> Fail undefined_behaviour
  /\ edited w w'
  /\ exists erasures,
      Buffer.extends_by erasures (m_buffer w) (m_buffer w')
      /\ List.length erasures = List.length (m_selections w)
      /\ Forall is_erase erasures.
Proof.
  unfold Window.erase_noundo. intros H. apply bind_inv in H.
  destruct H as [([] & w1 & H1 & H)|(e & H1 & ->)].
  - apply check_invariant_state in H1. subst w1.
    destruct (each_selection_calls _ _ w erase_body_one_call)
      as (w1 & calls & Hrun & He & _ & Hext & Hlen & Hkind).
    unfold bind at 1 in H. rewrite Hrun in H.
    apply scroll_edited in H. destruct H as (He' & Hb & _ & Hdefined).
    split; [exact Hdefined|].
    split; [exact (edited_trans _ _ _ He He')|].
    exists calls. rewrite Hb. auto.
  - pose proof (check_invariant_state _ _ _ H1) as ->.
    destruct (m_selections w) as [|s0 l0] eqn:Hs.
    + rewrite (check_invariant_empty w Hs) in H1. injection H1 as <-.
      split; [discriminate|]. split; [apply edited_refl|].
      exists []. split; [apply extends_by_nil|].
      split; [reflexivity|constructor].
    + rewrite check_invariant_nonempty in H1 by (rewrite Hs; discriminate).
      discriminate H1.
Qed.

Lemma insert_noundo_spec (s : BufferString) (w w' : Window)
      (r : outcome unit) :
  Window.insert_noundo s w = (r, w') ->
  r <> Fail undefined_behaviour
  /\ edited w w'
  /\ exists insertions,
      Buffer.extends_by insertions (m_buffer w) (m_buffer w')
      /\ List.length insertions = List.length (m_selections w)
      /\ Forall (is_insert s) insertions.
Proof.
  unfold Window.insert_noundo. intros H.
  destruct (each_selection_calls _ _ w (insert_body_one_call s))
    as (w1 & calls & Hrun & He & _ & Hext & Hlen & Hkind).
  unfold bind at 1 in H. rewrite Hrun in H.
  apply scroll_edited in H. destruct H as (He' & Hb & _ & Hdefined).
  split; [exact Hdefined|].
  split; [exact (edited_trans _ _ _ He He')|].
  exists calls. rewrite Hb. auto.
Qed.

Lemma append_noundo_spec (s : BufferString) (w w' : Window)
      (r : outcome unit) :
  Window.append_noundo s w = (r, w') ->
  r <> Fail undefined_behaviour
  /\ edited w w'
  /\ exists insertions,
      Buffer.extends_by insertions (m_buffer w) (m_buffer w')
      /\ List.length insertions = List.length (m_selections w)
      /\ Forall (is_insert s) insertions.
Proof.
  unfold Window.append_noundo. intros H.
  destruct (each_selection_calls _ _ w (append_body_one_call s))
    as (w1 & calls & Hrun & He & _ & Hext & Hlen & Hkind).
  unfold bind at 1 in H. rewrite Hrun in H.
  apply scroll_edited in H. destruct H as (He' & Hb & _ & Hdefined).
  split; [exact Hdefined|].
  split; [exact (edited_trans _ _ _ He He')|].
  exists calls. rewrite Hb. auto.
Qed.

End EditLoops.

(** ** Edits at several selections *)

Section Splicing.

Lemma moved_ext (f g : BufferIterator -> BufferIterator) (sel : Selection) :
  f (m_first sel) = g (m_first sel) ->
  f (m_last sel) = g (m_last sel) ->
  Selection.moved f sel = Selection.moved g sel.
Proof. unfold Selection.moved. now intros -> ->. Qed.

Lemma moved_id (f : BufferIterator -> BufferIterator) (sel : Selection) :
  f (m_first sel) = m_first sel ->
  f (m_last sel) = m_last sel ->
  Selection.moved f sel = sel.
Proof. unfold Selection.moved. intros -> ->. now destruct sel. Qed.

(** Moving the selections that lie at or after [k] by one function or
    by another that agrees with it there. *)
Lemma map_moved_ext (f g : BufferIterator -> BufferIterator) (k : nat)
      (sels : list Selection) :
  (forall x, k <= x -> f x = g x) ->
  Forall (fun sel => k <= m_first sel /\ k <= m_last sel) sels ->
  map (Selection.moved f) sels = map (Selection.moved g) sels.
Proof.
  intros Hfg Hall. induction Hall as [|sel sels [H1 H2] _ IH];
    [reflexivity|].
  cbn [map]. rewrite IH. f_equal. apply moved_ext; now apply Hfg.
Qed.

Lemma map_moved_id (f : BufferIterator -> BufferIterator) (k : nat)
      (sels : list Selection) :
  (forall x, x <= k -> f x = x) ->
  Forall (fun sel => m_first sel <= k /\ m_last sel <= k) sels ->
  map (Selection.moved f) sels = sels.
Proof.
  intros Hf Hall. induction Hall as [|sel sels [H1 H2] _ IH];
    [reflexivity|].
  cbn [map]. rewrite IH. f_equal. apply moved_id; now apply Hf.
Qed.

Lemma begin_moved_up (k : nat) (sel : Selection) :
  Selection.begin (Selection.moved (fun x => x + k) sel)
  = Selection.begin sel + k.
Proof.
  unfold Selection.begin, Selection.moved. cbn [m_first m_last]. lia.
Qed.

Lemma upto_moved_up (whole : bool) (k : nat) (sel : Selection) :
  upto whole (Selection.moved (fun x => x + k) sel) = upto whole sel + k.
Proof.
  unfold upto, Selection.begin, Selection.moved.
  destruct whole; cbn [m_first m_last]; lia.
Qed.

Lemma begin_caret (p : nat) (captures : CaptureList) :
  Selection.begin (mkSelection p p captures) = p.
Proof. unfold Selection.begin. cbn [m_first m_last]. lia. Qed.

Lemma upto_caret (p : nat) (captures : CaptureList) :
  upto false (mkSelection p p captures) = p.
Proof. apply begin_caret. Qed.

Lemma begin_le_upto (whole : bool) (sel : Selection) :
  Selection.begin sel <= upto whole sel.
Proof. unfold upto, Selection.begin. destruct whole; lia. Qed.

(** The selections of a spaced list lie at or after its start. *)
Lemma spaced_above (whole : bool) (sels : list Selection)
      (from size : nat) :
  spaced whole from sels size ->
  Forall (fun sel => from <= m_first sel /\ from <= m_last sel) sels.
Proof.
  revert from. induction sels as [|sel sels IH]; intros from;
    [constructor|].
  cbn [spaced]. intros [Hfrom Hrest]. constructor.
  - unfold Selection.begin in Hfrom. lia.
  - apply IH in Hrest. eapply Forall_impl; [|exact Hrest].
    intros s' [H1 H2].
    pose proof (begin_le_upto whole sel). lia.
Qed.

Lemma spaced_weaken (whole : bool) (sels : list Selection)
      (from from' size : nat) :
  from' <= from -> spaced whole from sels size ->
  spaced whole from' sels size.
Proof.
  destruct sels as [|sel sels]; cbn [spaced]; intros Hle H;
    [lia|]. destruct H. split; [lia|assumption].
Qed.

Lemma spaced_inside (whole : bool) (sels : list Selection)
      (from size : nat) :
  spaced whole from sels size -> from <= size.
Proof.
  revert from. induction sels as [|sel sels IH]; intros from;
    cbn [spaced]; [auto|].
  intros [Hfrom Hrest]. apply IH in Hrest.
  pose proof (begin_le_upto whole sel). lia.
Qed.

(** The buffer moving a spaced list, all of it, keeps it spaced. *)
Lemma spaced_moved (whole : bool) (k n : nat) (sels : list Selection)
      (from size : nat) :
  k <= from ->
  spaced whole from sels size ->
  spaced whole (from - k + n)
         (map (Selection.moved (fun x => x - k + n)) sels)
         (size - k + n).
Proof.
  revert from. induction sels as [|sel sels IH]; intros from Hk;
    cbn [spaced map]; [lia|].
  intros [Hfrom Hrest].
  pose proof (begin_le_upto whole sel) as Hle.
  assert (Hb : Selection.begin
                 (Selection.moved (fun x => x - k + n) sel)
               = Selection.begin sel - k + n).
  { unfold Selection.begin, Selection.moved in *. cbn [m_first m_last].
    lia. }
  assert (Hu : upto whole (Selection.moved (fun x => x - k + n) sel)
               = upto whole sel - k + n).
  { unfold upto, Selection.begin, Selection.moved in *.
    destruct whole; cbn [m_first m_last]; lia. }
  rewrite Hb, Hu. split; [lia|]. apply IH; [lia|assumption].
Qed.

(** Splicing behind a prefix leaves the prefix alone. *)
Lemma spliced_prefix (s : BufferString) (whole : bool)
      (prefix t : BufferString) (sels : list Selection) :
  spliced s whole
          (map (Selection.moved (fun x => x + List.length prefix)) sels)
          (prefix ++ t)
  = prefix ++ spliced s whole sels t.
Proof.
  induction sels as [|sel sels IH]; [reflexivity|].
  cbn [map]. unfold spliced in *. cbn [fold_right]. rewrite IH.
  rewrite begin_moved_up, upto_moved_up. unfold splice.
  rewrite firstn_app, skipn_app.
  rewrite firstn_all2 by lia. rewrite skipn_all2 by lia.
  replace (Selection.begin sel + List.length prefix - List.length prefix)
    with (Selection.begin sel) by lia.
  replace (upto whole sel + List.length prefix - List.length prefix)
    with (upto whole sel) by lia.
  cbn [app]. now rewrite <- app_assoc.
Qed.

Lemma map_moved_back (k : nat) (sels : list Selection) :
  Forall (fun sel => k <= m_first sel /\ k <= m_last sel) sels ->
  map (Selection.moved (fun x => x + k))
      (map (Selection.moved (fun x => x - k)) sels)
  = sels.
Proof.
  intros Hall. induction Hall as [|sel sels [H1 H2] _ IH]; [reflexivity|].
  cbn [map]. rewrite IH. f_equal.
  destruct sel as [f l caps]. unfold Selection.moved.
  cbn [m_first m_last m_captures] in *. f_equal; lia.
Qed.

Lemma map_moved_via (f : BufferIterator -> BufferIterator) (k n : nat)
      (sels : list Selection) :
  (forall x, k <= x -> f x = x - k + n) ->
  Forall (fun sel => k <= m_first sel /\ k <= m_last sel) sels ->
  map (Selection.moved f) sels
  = map (Selection.moved (fun x => x + n))
        (map (Selection.moved (fun x => x - k)) sels).
Proof.
  intros Hf Hall. induction Hall as [|sel sels [H1 H2] _ IH]; [reflexivity|].
  cbn [map]. rewrite IH. f_equal.
  unfold Selection.moved. cbn [m_first m_last m_captures].
  now rewrite !Hf.
Qed.

(** An edit at a range, then the edits at the selections after it,
    where the buffer has moved them: the same text as the edits at the
    selections where they were, then the edit at the range. *)
Lemma spliced_step (s : BufferString) (whole : bool) (lo hi : nat)
      (c : BufferString) (rest : list Selection) :
  lo <= hi <= List.length c ->
  Forall (fun sel => hi <= m_first sel /\ hi <= m_last sel) rest ->
  spliced s whole
          (map (Selection.moved (fun x => x - (hi - lo) + List.length s))
               rest)
          (splice s lo hi c)
  = splice s lo hi (spliced s whole rest c).
Proof.
  intros Hrange Hall.
  assert (Hlo : List.length (firstn lo c ++ s) = lo + List.length s)
    by (rewrite length_app, length_firstn_min; lia).
  assert (Hhi : List.length (firstn hi c) = hi)
    by (rewrite length_firstn_min; lia).
  rewrite (map_moved_via _ hi (List.length (firstn lo c ++ s)) rest);
    [|intros x Hx; lia|exact Hall].
  unfold splice at 1. rewrite app_assoc, spliced_prefix.
  rewrite <- (map_moved_back hi rest Hall) at 2.
  rewrite <- (firstn_skipn hi c) at 3.
  pose proof (spliced_prefix
                s whole (firstn hi c) (skipn hi c)
                (map (Selection.moved (fun x => x - hi)) rest)) as Hx.
  rewrite Hhi in Hx. rewrite Hx.
  unfold splice. rewrite firstn_app, Hhi.
  replace (lo - hi) with 0 by lia. cbn [firstn]. rewrite app_nil_r.
  rewrite firstn_firstn. replace (Nat.min lo hi) with lo by lia.
  rewrite <- Hhi at 2. rewrite skipn_exact.
  now rewrite <- app_assoc.
Qed.

Lemma spliced_cons (s : BufferString) (whole : bool) (sel : Selection)
      (rest : list Selection) (t : BufferString) :
  spliced s whole (sel :: rest) t
  = splice s (Selection.begin sel) (upto whole sel)
           (spliced s whole rest t).
Proof. reflexivity. Qed.

Lemma length_splice (s : BufferString) (lo hi : nat) (c : BufferString) :
  lo <= hi <= List.length c ->
  List.length (splice s lo hi c)
  = List.length c - (hi - lo) + List.length s.
Proof.
  intros H. unfold splice.
  rewrite !length_app, length_firstn_min, length_skipn. lia.
Qed.

(** Following the buffer's moves one at a time or all at once. *)
Lemma collapsed_moved (k j : nat) (sels : list Selection) :
  Forall (fun sel => k <= m_first sel /\ k <= m_last sel) sels ->
  collapsed j (map (Selection.moved (fun x => x - k)) sels)
  = collapsed (j + k) sels.
Proof.
  intros Hall. revert j.
  induction Hall as [|sel sels [H1 H2] _ IH]; intros j; [reflexivity|].
  cbn [map collapsed]. rewrite IH.
  unfold upto, Selection.begin, Selection.moved.
  cbn [m_first m_last m_captures].
  f_equal; [f_equal; lia|f_equal; lia].
Qed.

Lemma pushed_moved (n k j : nat) (sels : list Selection) :
  pushed n j (map (Selection.moved (fun x => x + k)) sels)
  = pushed n (j + k) sels.
Proof.
  revert j. induction sels as [|sel sels IH]; intros j; [reflexivity|].
  cbn [map pushed]. rewrite IH.
  unfold Selection.moved. cbn [m_first m_last m_captures].
  f_equal; [f_equal; lia|f_equal; lia].
Qed.

(** The moves of an erasure and of an insertion, on the selections
    after the range. *)
Lemma map_moved_erase (lo hi : nat) (rest : list Selection) :
  lo <= hi ->
  Forall (fun sel => hi <= m_first sel /\ hi <= m_last sel) rest ->
  map (Selection.moved (Buffer.after_erase lo hi)) rest
  = map (Selection.moved (fun x => x - (hi - lo) + 0)) rest.
Proof.
  intros Hle Hall. apply (map_moved_ext _ _ hi); [|exact Hall].
  intros x Hx. unfold Buffer.after_erase.
  destruct (Nat.ltb_spec x lo); [lia|].
  destruct (Nat.ltb_spec x hi); lia.
Qed.

Lemma map_moved_insert (pos n : nat) (rest : list Selection) :
  Forall (fun sel => pos <= m_first sel /\ pos <= m_last sel) rest ->
  map (Selection.moved (Buffer.after_insert pos n)) rest
  = map (Selection.moved (fun x => x - (pos - pos) + n)) rest.
Proof.
  intros Hall. apply (map_moved_ext _ _ pos); [|exact Hall].
  intros x Hx. unfold Buffer.after_insert.
  destruct (Nat.leb_spec pos x); lia.
Qed.

Lemma map_moved_plain (k : nat) (sels : list Selection) :
  map (Selection.moved (fun x => x - k + 0)) sels
  = map (Selection.moved (fun x => x - k)) sels.
Proof.
  apply map_ext. intros sel. apply moved_ext; lia.
Qed.

(** Where the erasures leave the selections, the insertions can be
    made one after the other. *)
Lemma collapsed_spaced (sels : list Selection) :
  forall (c : BufferString) (from : nat),
    spaced true from sels (List.length c) ->
    spaced false from (collapsed 0 sels)
           (List.length (spliced [] true sels c)).
Proof.
  remember (List.length sels) as n eqn:Hn. revert sels Hn.
  induction n as [|n IH]; intros [|sel rest] Hn c from;
    try discriminate; [auto|].
  injection Hn as Hn.
  cbn [spaced collapsed]. intros [Hfrom Hrest].
  set (b := Selection.begin sel) in *. set (e := upto true sel) in *.
  assert (Hbe : b <= e) by apply begin_le_upto.
  pose proof (spaced_inside _ _ _ _ Hrest) as He.
  pose proof (spaced_above _ _ _ _ Hrest) as Habove.
  rewrite Nat.sub_0_r, begin_caret, upto_caret. split; [exact Hfrom|].
  rewrite spliced_cons. fold b e.
  rewrite <- (spliced_step [] true b e c rest) by (auto; lia).
  rewrite map_moved_plain. cbn [Nat.add].
  assert (Hcollapsed :
    collapsed 0 (map (Selection.moved (fun x => x - (e - b))) rest)
    = collapsed (e - b) rest).
  { apply (collapsed_moved (e - b) 0 rest).
    eapply Forall_impl; [|exact Habove]. intros x [? ?]. lia. }
  rewrite <- Hcollapsed.
  apply IH; [now rewrite length_map|].
  rewrite length_splice by lia. cbn [List.length].
  rewrite <- map_moved_plain.
  replace b with (e - (e - b) + 0) at 1 by lia.
  apply spaced_moved; [lia|exact Hrest].
Qed.

(** Erasing every selection and then inserting where each was gives
    the text in which [s] has taken the place of every selection. *)
Lemma spliced_replace (s : BufferString) (sels : list Selection) :
  forall (c : BufferString) (from : nat),
    spaced true from sels (List.length c) ->
    spliced s false (collapsed 0 sels) (spliced [] true sels c)
    = spliced s true sels c.
Proof.
  remember (List.length sels) as n eqn:Hn. revert sels Hn.
  induction n as [|n IH]; intros [|sel rest] Hn c from;
    try discriminate; [reflexivity|].
  injection Hn as Hn.
  cbn [spaced collapsed]. intros [Hfrom Hrest].
  set (b := Selection.begin sel) in *. set (e := upto true sel) in *.
  assert (Hbe : b <= e) by apply begin_le_upto.
  pose proof (spaced_inside _ _ _ _ Hrest) as He.
  pose proof (spaced_above _ _ _ _ Hrest) as Habove.
  rewrite Nat.sub_0_r. cbn [Nat.add].
  rewrite !spliced_cons, begin_caret, upto_caret. fold b e.
  rewrite <- (spliced_step [] true b e c rest) by (auto; lia).
  rewrite <- (spliced_step s true b e c rest) by (auto; lia).
  rewrite map_moved_plain. cbn [List.length].
  assert (Hcollapsed :
    collapsed 0 (map (Selection.moved (fun x => x - (e - b))) rest)
    = collapsed (e - b) rest).
  { apply (collapsed_moved (e - b) 0 rest).
    eapply Forall_impl; [|exact Habove]. intros x [? ?]. lia. }
  rewrite <- Hcollapsed.
  rewrite (IH _ (eq_sym (eq_trans (length_map _ _) (eq_sym Hn)))
              (splice [] b e c) b).
  2:{ rewrite length_splice by lia. cbn [List.length].
      rewrite <- map_moved_plain.
      replace b with (e - (e - b) + 0) at 1 by lia.
      apply spaced_moved; [lia|exact Hrest]. }
  (* both sides behind the prefix [firstn b c] *)
  assert (Hb : List.length (firstn b c) = b)
    by (rewrite length_firstn_min; lia).
  assert (Hdown :
    map (Selection.moved (fun x => x - (e - b))) rest
    = map (Selection.moved (fun x => x + List.length (firstn b c)))
          (map (Selection.moved (fun x => x - e)) rest)).
  { apply map_moved_via; [intros x Hx; lia|exact Habove]. }
  assert (Hup :
    map (Selection.moved (fun x => x - (e - b) + List.length s)) rest
    = map (Selection.moved
             (fun x => x + List.length (firstn b c ++ s)))
          (map (Selection.moved (fun x => x - e)) rest)).
  { apply map_moved_via; [|exact Habove].
    intros x Hx. rewrite length_app. lia. }
  rewrite Hdown, Hup.
  unfold splice at 2. cbn [app]. rewrite spliced_prefix.
  unfold splice at 2. rewrite app_assoc, spliced_prefix.
  set (tail := spliced s true _ (skipn e c)).
  unfold splice.
  pose proof (firstn_exact (firstn b c) tail) as Hfirst.
  pose proof (skipn_exact (firstn b c) tail) as Hskip.
  rewrite Hb in Hfirst, Hskip. rewrite Hfirst, Hskip.
  now rewrite <- app_assoc.
Qed.

End Splicing.

Section SplicingLoops.

Context {buffer_queries : BufferQueries}.
Context {atom_queries : DisplayAtomQueries}.

(** One turn of a loop whose body returns. *)
Lemma visit_step (body : nat -> Selection -> Window.WM unit)
      (i count : nat) (w w1 : Window) (sel : Selection) :
  nth_error (m_selections w) i = Some sel ->
  body i sel w = (Ret tt, w1) ->
  Window.visit body i (S count) w = Window.visit body (S i) count w1.
Proof.
  intros Hsel Hbody. cbn [Window.visit]. unfold bind at 1.
  unfold Window.selection_at at 1, query at 1. rewrite Hsel.
  unfold bind at 1. now rewrite Hbody.
Qed.

Lemma nth_error_middle {A} (done rest : list A) (x : A) :
  nth_error (done ++ x :: rest) (List.length done) = Some x.
Proof. induction done; cbn; auto. Qed.

Lemma end_upto (b : Buffer) (sel : Selection) :
  Selection.end_ b sel = upto true sel.
Proof. unfold Selection.end_, Buffer.plus, upto. lia. Qed.

(** Erasing selections that follow one another without overlap: the
    buffer moves each one that is still to come back by what was
    erased, and leaves each erased one a caret where its text was. *)
Lemma erase_loop (n : nat) :
  forall (rest done : list Selection) (w w' : Window) (from : nat),
    n = List.length rest ->
    m_selections w = done ++ rest ->
    Forall (fun d => m_first d <= from /\ m_last d <= from) done ->
    spaced true from rest (Buffer.length (m_buffer w)) ->
    Window.visit
      (fun _ sel =>
         b <- gets m_buffer ;;
         Window.buffer_erase (Selection.begin sel) (Selection.end_ b sel))
      (List.length done) (List.length rest) w = (Ret tt, w') ->
    m_content (m_buffer w') = spliced [] true rest (m_content (m_buffer w))
    /\ m_selections w' = done ++ collapsed 0 rest.
Proof.
  induction n as [|n IH]; intros [|sel rest] done w w' from Hn Hsels
                                 Hdone Hspaced Hrun; try discriminate.
  - cbn in Hrun. injection Hrun as <-. cbn [collapsed spliced fold_right].
    now rewrite Hsels.
  - injection Hn as Hn. cbn [spaced] in Hspaced.
    destruct Hspaced as [Hfrom Hspaced].
    set (b := Selection.begin sel) in *.
    set (e := upto true sel) in *.
    set (c := m_content (m_buffer w)) in *.
    assert (Hbe : b <= e) by apply begin_le_upto.
    pose proof (spaced_inside _ _ _ _ Hspaced) as He.
    pose proof (spaced_above _ _ _ _ Hspaced) as Habove.
    set (w1 := Window.iterators_moved
                 (Buffer.after_erase b e)
                 (Window.set_buffer (Buffer.erase (m_buffer w) b e) w)).
    cbn [List.length] in Hrun.
    rewrite (visit_step _ _ _ w w1 sel) in Hrun.
    2:{ rewrite Hsels. apply nth_error_middle. }
    2:{ unfold bind, gets, Window.buffer_erase, modify.
        rewrite end_upto. reflexivity. }
    assert (Hcontent : m_content (m_buffer w1) = splice [] b e c).
    { subst w1. unfold Buffer.erase, splice.
      cbn [m_buffer Window.iterators_moved Window.set_buffer m_content].
      fold c. now replace (Nat.max b e) with e by lia. }
    assert (Hcaret : Selection.moved (Buffer.after_erase b e) sel
                     = mkSelection b b (m_captures sel)).
    { unfold Selection.moved, Buffer.after_erase.
      subst b e. unfold Selection.begin, upto in *.
      repeat match goal with
             | |- context [?x <? ?y] => destruct (Nat.ltb_spec x y)
             end; try lia; reflexivity. }
    assert (Hsels1 :
      m_selections w1
      = (done ++ [mkSelection b b (m_captures sel)])
          ++ map (Selection.moved (fun x => x - (e - b) + 0)) rest).
    { subst w1.
      cbn [m_selections Window.iterators_moved Window.set_buffer].
      rewrite Hsels, map_app. cbn [map].
      rewrite Hcaret, (map_moved_erase b e rest Hbe Habove).
      rewrite (map_moved_id _ from done); [now rewrite <- app_assoc| |].
      - intros x Hx. unfold Buffer.after_erase.
        repeat match goal with
               | |- context [?x <? ?y] => destruct (Nat.ltb_spec x y)
               end; lia.
      - exact Hdone. }
    destruct (IH (map (Selection.moved (fun x => x - (e - b) + 0)) rest)
                 (done ++ [mkSelection b b (m_captures sel)])
                 w1 w' b) as [Htext Hfinal].
    + now rewrite length_map.
    + exact Hsels1.
    + apply Forall_app. split.
      * eapply Forall_impl; [|exact Hdone]. intros d [? ?]. lia.
      * constructor; [cbn; lia|constructor].
    + unfold Buffer.length. rewrite Hcontent.
      rewrite length_splice by (subst c; unfold Buffer.length in He; lia).
      cbn [List.length].
      replace b with (e - (e - b) + 0) at 1 by lia.
      apply spaced_moved; [lia|exact Hspaced].
    + rewrite length_app, length_map. cbn [List.length].
      rewrite Nat.add_1_r. exact Hrun.
    + split.
      * rewrite Htext, Hcontent, spliced_cons. fold b e.
        apply (spliced_step [] true b e c rest);
          [unfold Buffer.length in He; subst c; lia|exact Habove].
      * rewrite Hfinal, <- app_assoc. cbn [app collapsed].
        rewrite Nat.sub_0_r. fold b e. cbn [Nat.add].
        rewrite map_moved_plain, (collapsed_moved (e - b) 0 rest);
          [reflexivity|].
        eapply Forall_impl; [|exact Habove]. intros x [? ?]. lia.
Qed.

(** Inserting before selections that begin one after the other: the
    text. *)
Lemma insert_loop_text (s : BufferString) (n : nat) :
  forall (rest done : list Selection) (w w' : Window) (from : nat),
    n = List.length rest ->
    m_selections w = done ++ rest ->
    spaced false from rest (Buffer.length (m_buffer w)) ->
    Window.visit
      (fun _ sel => Window.buffer_insert (Selection.begin sel) s)
      (List.length done) (List.length rest) w = (Ret tt, w') ->
    m_content (m_buffer w') = spliced s false rest (m_content (m_buffer w)).
Proof.
  induction n as [|n IH]; intros [|sel rest] done w w' from Hn Hsels
                                 Hspaced Hrun; try discriminate.
  - cbn in Hrun. now injection Hrun as <-.
  - injection Hn as Hn. cbn [spaced] in Hspaced.
    destruct Hspaced as [Hfrom Hspaced].
    change (upto false sel) with (Selection.begin sel) in Hspaced.
    set (b := Selection.begin sel) in *.
    set (c := m_content (m_buffer w)) in *.
    pose proof (spaced_inside _ _ _ _ Hspaced) as Hb.
    pose proof (spaced_above _ _ _ _ Hspaced) as Habove.
    set (f := Buffer.after_insert b (List.length s)).
    set (w1 := Window.iterators_moved
                 f (Window.set_buffer (Buffer.insert (m_buffer w) b s) w)).
    cbn [List.length] in Hrun.
    rewrite (visit_step _ _ _ w w1 sel) in Hrun;
      [|rewrite Hsels; apply nth_error_middle|reflexivity].
    assert (Hcontent : m_content (m_buffer w1) = splice s b b c)
      by reflexivity.
    assert (Hsels1 :
      m_selections w1
      = (map (Selection.moved f) done ++ [Selection.moved f sel])
          ++ map (Selection.moved
                    (fun x => x - (b - b) + List.length s)) rest).
    { subst w1.
      cbn [m_selections Window.iterators_moved Window.set_buffer].
      rewrite Hsels, map_app. cbn [map].
      subst f. rewrite (map_moved_insert b _ rest Habove).
      now rewrite <- app_assoc. }
    rewrite (IH (map (Selection.moved
                        (fun x => x - (b - b) + List.length s)) rest)
                (map (Selection.moved f) done ++ [Selection.moved f sel])
                w1 w' (b - (b - b) + List.length s)).
    + rewrite Hcontent, spliced_cons.
      change (upto false sel) with b. fold b.
      apply (spliced_step s false b b c rest);
        [unfold Buffer.length in Hb; subst c; lia|exact Habove].
    + now rewrite length_map.
    + exact Hsels1.
    + unfold Buffer.length. rewrite Hcontent.
      rewrite length_splice by (subst c; unfold Buffer.length in Hb; lia).
      apply spaced_moved; [lia|exact Hspaced].
    + rewrite length_app, !length_map. cbn [List.length].
      rewrite Nat.add_1_r. exact Hrun.
Qed.

(** Inserting before selections that follow one another without
    overlap: the buffer moves each selection forward by what was
    inserted before it and for it. *)
Lemma insert_loop_selections (s : BufferString) (n : nat) :
  forall (rest done : list Selection) (w w' : Window) (from : nat),
    n = List.length rest ->
    m_selections w = done ++ rest ->
    Forall (fun d => m_first d < from /\ m_last d < from) done ->
    spaced true from rest (Buffer.length (m_buffer w)) ->
    Window.visit
      (fun _ sel => Window.buffer_insert (Selection.begin sel) s)
      (List.length done) (List.length rest) w = (Ret tt, w') ->
    m_selections w' = done ++ pushed (List.length s) 0 rest.
Proof.
  induction n as [|n IH]; intros [|sel rest] done w w' from Hn Hsels
                                 Hdone Hspaced Hrun; try discriminate.
  - cbn in Hrun. injection Hrun as <-. now rewrite Hsels.
  - injection Hn as Hn. cbn [spaced] in Hspaced.
    destruct Hspaced as [Hfrom Hspaced].
    set (b := Selection.begin sel) in *.
    set (e := upto true sel) in *.
    set (c := m_content (m_buffer w)) in *.
    assert (Hbe : b <= e) by apply begin_le_upto.
    pose proof (spaced_inside _ _ _ _ Hspaced) as He.
    pose proof (spaced_above _ _ _ _ Hspaced) as Habove.
    set (f := Buffer.after_insert b (List.length s)).
    set (w1 := Window.iterators_moved
                 f (Window.set_buffer (Buffer.insert (m_buffer w) b s) w)).
    cbn [List.length] in Hrun.
    rewrite (visit_step _ _ _ w w1 sel) in Hrun;
      [|rewrite Hsels; apply nth_error_middle|reflexivity].
    assert (Hmoved : Selection.moved f sel
                     = Selection.moved
                         (fun it => it + (0 + List.length s)) sel).
    { apply moved_ext; subst f b; unfold Buffer.after_insert,
        Selection.begin;
        repeat match goal with
               | |- context [?x <=? ?y] => destruct (Nat.leb_spec x y)
               end; lia. }
    assert (Hsels1 :
      m_selections w1
      = (done ++ [Selection.moved
                    (fun it => it + (0 + List.length s)) sel])
          ++ map (Selection.moved (fun x => x + List.length s)) rest).
    { subst w1.
      cbn [m_selections Window.iterators_moved Window.set_buffer].
      rewrite Hsels, map_app. cbn [map]. rewrite Hmoved.
      assert (Hsame : map (Selection.moved f) done = done).
      { destruct done as [|d done']; [reflexivity|].
        assert (0 < from) by (inversion Hdone; lia).
        apply (map_moved_id f (from - 1)).
        - intros x Hx. subst f. unfold Buffer.after_insert.
          destruct (Nat.leb_spec b x); lia.
        - eapply Forall_impl; [|exact Hdone]. intros d0 [? ?]. lia. }
      rewrite Hsame, <- app_assoc. cbn [app]. do 2 f_equal.
      apply (map_moved_ext _ _ e); [|exact Habove].
      intros x Hx. subst f. unfold Buffer.after_insert.
      destruct (Nat.leb_spec b x); lia. }
    rewrite (IH (map (Selection.moved (fun x => x + List.length s)) rest)
                (done ++ [Selection.moved
                            (fun it => it + (0 + List.length s)) sel])
                w1 w' (e + List.length s)).
    + rewrite <- app_assoc. cbn [app pushed]. do 2 f_equal.
      apply (pushed_moved (List.length s) (List.length s) 0 rest).
    + now rewrite length_map.
    + exact Hsels1.
    + apply Forall_app. split.
      * eapply Forall_impl; [|exact Hdone]. intros d [? ?]. lia.
      * constructor; [|constructor].
        unfold Selection.moved. cbn [m_first m_last].
        subst e. unfold upto. lia.
    + assert (Hlen : Buffer.length (m_buffer w1)
                     = Buffer.length (m_buffer w) - (b - b)
                       + List.length s).
      { unfold Buffer.length.
        change (m_content (m_buffer w1)) with (splice s b b c).
        apply length_splice. unfold Buffer.length in He. subst c. lia. }
      rewrite Hlen.
      replace (e + List.length s) with (e - (b - b) + List.length s)
        by lia.
      rewrite <- (map_ext (Selection.moved
                             (fun x => x - (b - b) + List.length s))).
      * apply spaced_moved; [lia|exact Hspaced].
      * intros x. apply moved_ext; lia.
    + rewrite length_app, length_map. cbn [List.length].
      rewrite Nat.add_1_r. exact Hrun.
Qed.

End SplicingLoops.

(** ** Undo groups *)

Section UndoGroups.

Context {buffer_queries : BufferQueries}.
Context {atom_queries : DisplayAtomQueries}.

(** Leaving the scope closes the group, on a return as on a failure. *)
Lemma scoped_undo_group_closes {A} (body : Window.WM A) (w w2 : Window)
      (r : outcome A) :
  body (Window.set_buffer (Buffer.begin_undo_group (m_buffer w)) w)
  = (r, w2) ->
  r <> Fail undefined_behaviour ->
  Window.scoped_undo_group body w
  = (r, Window.set_buffer (Buffer.end_undo_group (m_buffer w2)) w2).
Proof.
  intros Hbody Hdefined. unfold Window.scoped_undo_group.
  rewrite Hbody. destruct r as [a|[]]; congruence.
Qed.

(** Closing a group that holds mutations only commits them as one step
    that one [undo] takes back. *)
Lemma end_undo_group_commits (b b2 : Buffer) (mutations : list BufferCall) :
  Buffer.extends_by mutations (Buffer.begin_undo_group b) b2 ->
  let b' := Buffer.end_undo_group b2 in
  m_calls b'
  = m_calls b ++ CallBeginUndoGroup :: mutations ++ [CallEndUndoGroup]
  /\ forallb Buffer.is_mutation mutations = true
  /\ m_current_undo_group b' = []
  /\ m_content b' = m_content b2
  /\ (m_current_undo_group b = [] ->
      (exists group, m_history b' = group :: m_history b)
      /\ fst (Buffer.undo b') = true
      /\ m_content (snd (Buffer.undo b')) = m_content b
      /\ m_history (snd (Buffer.undo b')) = m_history b).
Proof.
  intros [Hcalls [Hmut [Hhist [group [Hgroup Hundo]]]]] b'. subst b'.
  cbn [Buffer.begin_undo_group Buffer.log m_calls m_history m_content
       m_current_undo_group] in *.
  split; [|split; [assumption|split; [|split]]].
  - unfold Buffer.end_undo_group. cbn [m_calls].
    rewrite Hcalls, <- !app_assoc. reflexivity.
  - reflexivity.
  - reflexivity.
  - intros Hclosed. unfold Buffer.undo, Buffer.end_undo_group.
    cbn [m_history m_content fst snd].
    rewrite Hgroup, Hhist, Hclosed, app_nil_r.
    repeat split; eauto.
Qed.

(** [Window::undo] on a buffer whose last step can be taken back. *)
Lemma undo_runs (w : Window) :
  fst (Buffer.undo (m_buffer w)) = true ->
  Window.undo w
  = (Ret true, Window.set_buffer (snd (Buffer.undo (m_buffer w))) w).
Proof.
  unfold Window.undo. destruct (Buffer.undo (m_buffer w)) as [done b].
  cbn [fst snd]. now intros ->.
Qed.

(** The text and the selections after [erase_noundo], for selections
    that follow one another without overlap, however the scroll that
    ends it goes. *)
Lemma erase_noundo_text (w w' : Window) (r : outcome unit) :
  Window.erase_noundo w = (r, w') ->
  apart (m_selections w) (Buffer.length (m_buffer w)) ->
  m_content (m_buffer w')
  = spliced [] true (m_selections w) (m_content (m_buffer w))
  /\ m_selections w' = collapsed 0 (m_selections w).
Proof.
  unfold Window.erase_noundo. intros H Hapart. apply bind_inv in H.
  destruct H as [([] & w1 & H1 & H)|(e & H1 & ->)].
  - apply check_invariant_state in H1. subst w1.
    apply bind_inv in H.
    destruct H as [([] & w1 & Hloop & H)|(e & Hloop & ->)].
    + unfold Window.each_selection in Hloop.
      unfold bind at 1, gets at 1 in Hloop.
      apply (erase_loop _ (m_selections w) [] w w1 0 eq_refl eq_refl)
        in Hloop; [|constructor|exact Hapart].
      apply scroll_edited in H. destruct H as (_ & Hb & Hs & _).
      rewrite Hb, Hs. exact Hloop.
    + destruct (each_selection_calls _ _ w erase_body_one_call)
        as (w2 & calls & Hrun & _).
      rewrite Hrun in Hloop. discriminate Hloop.
  - pose proof (check_invariant_state _ _ _ H1) as ->.
    destruct (m_selections w) as [|s0 l0] eqn:Hs; [split; reflexivity|].
    rewrite check_invariant_nonempty in H1 by (rewrite Hs; discriminate).
    discriminate H1.
Qed.

(** The text after [insert_noundo], for selections that begin one
    after the other. *)
Lemma insert_noundo_text (s : BufferString) (w w' : Window)
      (r : outcome unit) :
  Window.insert_noundo s w = (r, w') ->
  spaced false 0 (m_selections w) (Buffer.length (m_buffer w)) ->
  m_content (m_buffer w')
  = spliced s false (m_selections w) (m_content (m_buffer w)).
Proof.
  unfold Window.insert_noundo. intros H Hspaced. apply bind_inv in H.
  destruct H as [([] & w1 & Hloop & H)|(e & Hloop & ->)].
  - unfold Window.each_selection in Hloop.
    unfold bind at 1, gets at 1 in Hloop.
    apply (insert_loop_text s _ (m_selections w) [] w w1 0 eq_refl eq_refl)
      in Hloop; [|exact Hspaced].
    apply scroll_edited in H. destruct H as (_ & Hb & _).
    now rewrite Hb.
  - destruct (each_selection_calls _ _ w (insert_body_one_call s))
      as (w2 & calls & Hrun & _).
    rewrite Hrun in Hloop. discriminate Hloop.
Qed.

(** The selections after [insert_noundo], for selections that follow
    one another without overlap. *)
Lemma insert_noundo_selections (s : BufferString) (w w' : Window)
      (r : outcome unit) :
  Window.insert_noundo s w = (r, w') ->
  apart (m_selections w) (Buffer.length (m_buffer w)) ->
  m_selections w' = pushed (List.length s) 0 (m_selections w).
Proof.
  unfold Window.insert_noundo. intros H Hapart. apply bind_inv in H.
  destruct H as [([] & w1 & Hloop & H)|(e & Hloop & ->)].
  - unfold Window.each_selection in Hloop.
    unfold bind at 1, gets at 1 in Hloop.
    apply (insert_loop_selections
             s _ (m_selections w) [] w w1 0 eq_refl eq_refl)
      in Hloop; [|constructor|exact Hapart].
    apply scroll_edited in H. destruct H as (_ & _ & Hs & _).
    now rewrite Hs.
  - destruct (each_selection_calls _ _ w (insert_body_one_call s))
      as (w2 & calls & Hrun & _).
    rewrite Hrun in Hloop. discriminate Hloop.
Qed.

(** Selections that follow one another without overlap begin one after
    the other. *)
Lemma apart_spaced (sels : list Selection) (from size : nat) :
  spaced true from sels size -> spaced false from sels size.
Proof.
  revert from. induction sels as [|sel sels IH]; intros from;
    cbn [spaced]; [auto|].
  intros [Hfrom Hrest]. split; [exact Hfrom|].
  apply IH. apply (spaced_weaken true _ (upto true sel)); [|exact Hrest].
  apply begin_le_upto.
Qed.

(** The calls of [erase_noundo] and of [insert_noundo] on a single
    selection. *)
Lemma erase_noundo_one (w w' : Window) (r : outcome unit)
      (sel : Selection) :
  Window.erase_noundo w = (r, w') ->
  m_selections w = [sel] ->
  m_calls (m_buffer w')
  = m_calls (m_buffer w)
    ++ [CallErase (Selection.begin sel) (Selection.end_ (m_buffer w) sel)].
Proof.
  unfold Window.erase_noundo. intros H Hsel. apply bind_inv in H.
  destruct H as [([] & w1 & H1 & H)|(e & H1 & ->)].
  - apply check_invariant_state in H1. subst w1.
    unfold Window.each_selection in H.
    unfold bind at 1 in H. unfold bind at 1, gets at 1 in H.
    rewrite Hsel in H. cbn [List.length] in H.
    erewrite (visit_step _ 0 0 w _ sel) in H;
      [|now rewrite Hsel|reflexivity].
    cbn [Window.visit] in H. unfold ret at 1 in H.
    apply scroll_edited in H. destruct H as (_ & Hb & _).
    now rewrite Hb.
  - rewrite check_invariant_nonempty in H1 by (rewrite Hsel; discriminate).
    discriminate H1.
Qed.

Lemma insert_noundo_one (s : BufferString) (w w' : Window)
      (r : outcome unit) (sel : Selection) :
  Window.insert_noundo s w = (r, w') ->
  m_selections w = [sel] ->
  m_calls (m_buffer w')
  = m_calls (m_buffer w) ++ [CallInsert (Selection.begin sel) s].
Proof.
  unfold Window.insert_noundo. intros H Hsel.
  unfold Window.each_selection in H.
  unfold bind at 1 in H. unfold bind at 1, gets at 1 in H.
  rewrite Hsel in H. cbn [List.length] in H.
  erewrite (visit_step _ 0 0 w _ sel) in H;
    [|now rewrite Hsel|reflexivity].
  cbn [Window.visit] in H. unfold ret at 1 in H.
  apply scroll_edited in H. destruct H as (_ & Hb & _).
  now rewrite Hb.
Qed.

(** The body of [replace]: erasures, then insertions when the erasing
    returned. *)
Lemma replace_body_spec (s : BufferString) (w w' : Window)
      (r : outcome unit) :
  (Window.erase_noundo ;; Window.insert_noundo s)%monad w = (r, w') ->
  r <> Fail undefined_behaviour
  /\ edited w w'
  /\ (exists mutations,
        Buffer.extends_by mutations (m_buffer w) (m_buffer w')
        /\ (r = Ret tt ->
            exists erasures insertions,
              mutations = erasures ++ insertions
              /\ List.length erasures = List.length (m_selections w)
              /\ Forall is_erase erasures
              /\ List.length insertions = List.length (m_selections w)
              /\ Forall (is_insert s) insertions))
  /\ (r = Ret tt ->
      apart (m_selections w) (Buffer.length (m_buffer w)) ->
      m_content (m_buffer w')
      = spliced s true (m_selections w) (m_content (m_buffer w)))
  /\ (forall sel,
        r = Ret tt ->
        m_selections w = [sel] ->
        m_calls (m_buffer w')
        = m_calls (m_buffer w)
          ++ [CallErase (Selection.begin sel)
                        (Selection.end_ (m_buffer w) sel);
              CallInsert (Selection.begin sel - 0) s]).
Proof.
  intros H. apply bind_inv in H.
  destruct H as [([] & w1 & Herase & Hinsert)|(e & Herase & ->)].
  - destruct (erase_noundo_spec _ _ _ Herase)
      as (_ & He1 & erasures & Hext1 & Hlen1 & Hkind1).
    destruct (insert_noundo_spec _ _ _ _ Hinsert)
      as (Hdefined & He2 & insertions & Hext2 & Hlen2 & Hkind2).
    split; [exact Hdefined|].
    split; [exact (edited_trans _ _ _ He1 He2)|]. split; [|split].
    + exists (erasures ++ insertions).
      split; [exact (extends_by_app _ _ _ _ _ Hext1 Hext2)|].
      intros _. exists erasures, insertions.
      rewrite Hlen2, (edited_length _ _ He1). auto.
    + intros _ Hapart.
      destruct (erase_noundo_text _ _ _ Herase Hapart)
        as [Htext Hsels].
      rewrite (insert_noundo_text _ _ _ _ Hinsert).
      * rewrite Htext, Hsels. exact (spliced_replace s _ _ 0 Hapart).
      * unfold Buffer.length. rewrite Htext, Hsels.
        exact (collapsed_spaced _ _ 0 Hapart).
    + intros sel _ Hsel.
      assert (Hsel1 : m_selections w1
                      = collapsed 0 (m_selections w) /\ True).
      { split; [|exact I].
        unfold Window.erase_noundo in Herase. apply bind_inv in Herase.
        destruct Herase as [([] & w0 & H1 & H)|(e & _ & [=])].
        apply check_invariant_state in H1. subst w0.
        unfold Window.each_selection in H.
        unfold bind at 1 in H. unfold bind at 1, gets at 1 in H.
        rewrite Hsel in H. cbn [List.length] in H.
        erewrite (visit_step _ 0 0 w _ sel) in H;
          [|now rewrite Hsel|reflexivity].
        cbn [Window.visit] in H. unfold ret at 1 in H.
        apply scroll_edited in H. destruct H as (_ & _ & Hs & _).
        rewrite Hs, Hsel.
        cbn [m_selections Window.iterators_moved Window.set_buffer
             collapsed].
        rewrite Hsel. cbn [map].
        f_equal. rewrite end_upto.
        unfold Selection.moved, Buffer.after_erase, Selection.begin, upto.
        cbn [m_first m_last m_captures].
        repeat match goal with
               | |- context [?x <? ?y] => destruct (Nat.ltb_spec x y)
               end; try lia; f_equal; lia. }
      destruct Hsel1 as [Hsel1 _]. rewrite Hsel in Hsel1.
      cbn [collapsed] in Hsel1.
      rewrite (insert_noundo_one _ _ _ _ _ Hinsert Hsel1).
      rewrite (erase_noundo_one _ _ _ _ Herase Hsel).
      rewrite begin_caret, <- app_assoc. reflexivity.
  - destruct (erase_noundo_spec _ _ _ Herase)
      as (Hdefined & He1 & erasures & Hext1 & _).
    split; [exact Hdefined|]. split; [exact He1|].
    split; [|split; [discriminate|discriminate]].
    exists erasures. split; [exact Hext1|discriminate].
Qed.

(** C4.  [replace(s)] makes one [begin_undo_group] call, then the
    erasure of every selection and the insertion of [s] at every
    selection, then one [end_undo_group] call; the group is closed
    however the erasing and inserting end, by return or by a failed
    assertion.  When [replace] returns, the erasures come first, one
    for every selection, then the insertions of [s], one for every
    selection; on a single selection they are the erasure of its range
    and the insertion at its beginning; and when the selections follow
    one another without overlap, the text is the one of before with [s]
    in the place of every selection.  The group is one step of the
    history, and one [undo] of the window gives the text back as it
    was. *)
Theorem replace_one_undo_group (s : BufferString) (w : Window) :
  let r := fst (Window.replace s w) in
  let w' := snd (Window.replace s w) in
  let b := m_buffer w in
  let b' := m_buffer w' in
  r <> Fail undefined_behaviour
  /\ (exists mutations,
        m_calls b'
        = m_calls b
          ++ CallBeginUndoGroup :: mutations ++ [CallEndUndoGroup]
        /\ forallb Buffer.is_mutation mutations = true
        /\ (r = Ret tt ->
            exists erasures insertions,
              mutations = erasures ++ insertions
              /\ List.length erasures = List.length (m_selections w)
              /\ Forall is_erase erasures
              /\ List.length insertions = List.length (m_selections w)
              /\ Forall (is_insert s) insertions)
        /\ (forall sel,
              r = Ret tt ->
              m_selections w = [sel] ->
              mutations
              = [CallErase (Selection.begin sel) (Selection.end_ b sel);
                 CallInsert (Selection.begin sel) s]))
  /\ m_current_undo_group b' = []
  /\ (r = Ret tt ->
      apart (m_selections w) (Buffer.length b) ->
      m_content b' = spliced s true (m_selections w) (m_content b))
  /\ (m_current_undo_group b = [] ->
      (exists group, m_history b' = group :: m_history b)
      /\ exists w'',
          Window.undo w' = (Ret true, w'')
          /\ m_content (m_buffer w'') = m_content b
          /\ m_history (m_buffer w'') = m_history b).
Proof.
  intros r w' b b'. subst r w' b'. unfold Window.replace.
  destruct ((Window.erase_noundo ;; Window.insert_noundo s)%monad
              (Window.set_buffer (Buffer.begin_undo_group b) w))
    as [r w2] eqn:Hbody.
  destruct (replace_body_spec _ _ _ _ Hbody)
    as (Hdefined & _ & [mutations [Hext Hreturned]] & Htext & Hone).
  rewrite (scoped_undo_group_closes _ _ _ _ Hbody Hdefined).
  cbn [fst snd Window.set_buffer m_buffer m_selections] in *.
  destruct (end_undo_group_commits _ _ _ Hext)
    as (Hcalls & Hmut & Hclosed & Hcontent & Hundo).
  split; [exact Hdefined|]. split; [|split; [|split]].
  - exists mutations. split; [exact Hcalls|]. split; [exact Hmut|].
    split; [exact Hreturned|].
    intros sel Hr Hsel. specialize (Hone sel Hr Hsel).
    destruct Hext as [Hcalls2 _]. rewrite Hone in Hcalls2.
    apply app_inv_head in Hcalls2. rewrite <- Hcalls2.
    now rewrite Nat.sub_0_r.
  - exact Hclosed.
  - intros Hr Hapart. rewrite Hcontent. now apply Htext.
  - intros Hnone. destruct (Hundo Hnone) as (Hgroup & Hdone & Hc & Hh).
    split; [exact Hgroup|].
    eexists. split; [apply undo_runs; exact Hdone|].
    cbn [m_buffer Window.set_buffer]. split; assumption.
Qed.

End UndoGroups.

(** Scenario S3: [foo] replaced by [bar], and taken back by one undo;
    and two words replaced at once. *)
Lemma replace_one_undo_group_witness :
  m_content
    (m_buffer
       (snd (Window.replace (buffer_queries := Plain.buffer_queries)
                            (atom_queries := Plain.atom_queries)
                            (text "bar") Plain.foo)))
  = text "bar"
  /\ (exists restored,
        Window.undo
          (snd (Window.replace (buffer_queries := Plain.buffer_queries)
                               (atom_queries := Plain.atom_queries)
                               (text "bar") Plain.foo))
        = (Ret true, restored)
        /\ m_content (m_buffer restored) = text "foo")
  /\ m_content
       (m_buffer
          (snd (Window.replace
                  (buffer_queries := Plain.buffer_queries)
                  (atom_queries := Plain.atom_queries)
                  (text "X")
                  (Plain.window (Plain.buffer_of "ab cd")
                                [Selection.make 0 1; Selection.make 4 3]))))
     = text "X X".
Proof.
  pose proof (@replace_one_undo_group
                Plain.buffer_queries Plain.atom_queries
                (text "bar") Plain.foo) as Hfoo.
  pose proof (@replace_one_undo_group
                Plain.buffer_queries Plain.atom_queries
                (text "X")
                (Plain.window (Plain.buffer_of "ab cd")
                              [Selection.make 0 1; Selection.make 4 3]))
    as Htwo.
  cbv zeta in Hfoo, Htwo.
  destruct Hfoo as (_ & _ & _ & Htext & Hundo).
  destruct Htwo as (_ & _ & _ & Htext2 & _).
  split; [|split].
  - rewrite Htext; [reflexivity|reflexivity|].
    unfold apart. cbn. lia.
  - destruct (Hundo eq_refl) as (_ & restored & Hrun & Hcontent & _).
    exists restored. split; [exact Hrun|exact Hcontent].
  - rewrite Htext2; [reflexivity|reflexivity|].
    unfold apart. cbn. lia.
Defined.

(** ** Opening a line *)

Section OpeningLines.

Context {buffer_queries : BufferQueries}.
Context {atom_queries : DisplayAtomQueries}.

(** What a returned forward scan says. *)
Lemma advance_to_newline_returned (fuel : nat) (b : Buffer)
      (pos stop : BufferIterator) :
  IncrementalInserter.advance_to_newline fuel b pos = Ret stop ->
  pos <= stop <= Buffer.length b
  /\ (stop = Buffer.length b \/ Buffer.deref b stop = Some newline)
  /\ (forall q, pos <= q < stop -> Buffer.deref b q <> Some newline).
Proof.
  revert pos. induction fuel as [|fuel IH]; intros pos Hrun;
    cbn [IncrementalInserter.advance_to_newline] in Hrun;
    unfold Buffer.is_end in Hrun;
    (destruct (Nat.eqb_spec pos (Buffer.length b)) as [Hend|Hne];
     [injection Hrun as <-; repeat split; auto; lia|]);
    (destruct (Buffer.deref b pos) as [c|] eqn:Hc; [|discriminate]);
    assert (Hin : pos < Buffer.length b)
      by (unfold Buffer.length; apply nth_error_Some;
          unfold Buffer.deref in Hc; congruence);
    (destruct (Ascii.eqb_spec c newline) as [Hnl|Hnl];
     [injection Hrun as <-; subst c; repeat split; auto; lia|]).
  - discriminate.
  - apply IH in Hrun. unfold Buffer.plus in Hrun.
    destruct Hrun as [Hle [Hstop Hnone]].
    repeat split; auto; try lia.
    intros q Hq.
    destruct (Nat.eq_dec q pos) as [->|Hqp];
      [rewrite Hc; congruence|apply Hnone; lia].
Qed.

(** A newline put in after a newline, or after the end, is a newline
    put in there. *)
Lemma insert_after_newline (c : BufferString) (stop : nat) :
  stop = List.length c \/ nth_error c stop = Some newline ->
  firstn (S stop) c ++ [newline] ++ skipn (S stop) c
  = firstn stop c ++ [newline] ++ skipn stop c.
Proof.
  intros [->|Hnl].
  - rewrite !firstn_all2, !skipn_all2 by lia. reflexivity.
  - destruct (split_at _ _ _ Hnl) as (Hfirst & Hskip & _).
    rewrite Hfirst, Hskip, <- app_assoc. reflexivity.
Qed.

(** The caret that [OpenLineBelow] leaves is at the start of a line
    that is empty. *)
Lemma below_is_empty_line (c : BufferString) (stop : nat) :
  stop <= List.length c ->
  stop = List.length c \/ nth_error c stop = Some newline ->
  let c' := firstn stop c ++ [newline] ++ skipn stop c in
  nth_error c' stop = Some newline
  /\ (nth_error c' (S stop) = Some newline \/ S stop = List.length c').
Proof.
  intros Hle Hstop c'. subst c'.
  assert (Hlen : List.length (firstn stop c) = stop)
    by (rewrite length_firstn_min; lia).
  split.
  - pose proof (nth_error_after (firstn stop c) (skipn stop c) newline)
      as Hthere.
    rewrite Hlen in Hthere. exact Hthere.
  - destruct Hstop as [->|Hnl].
    + right. rewrite firstn_all2, skipn_all2 by lia.
      rewrite length_app. cbn. lia.
    + left. destruct (split_at _ _ _ Hnl) as (_ & Hskip & _).
      rewrite Hskip.
      change (firstn stop c ++ [newline] ++ newline :: skipn (S stop) c)
        with (firstn stop c ++ [newline] ++ [newline]
                ++ skipn (S stop) c).
      rewrite app_assoc.
      pose proof (nth_error_after (firstn stop c ++ [newline])
                                  (skipn (S stop) c) newline) as Hthere.
      rewrite length_app, Hlen in Hthere. cbn [List.length] in Hthere.
      rewrite Nat.add_1_r in Hthere. exact Hthere.
Qed.

Lemma moved_same (sel : Selection) :
  Selection.moved (fun x => x) sel = sel.
Proof. now destruct sel. Qed.

Lemma map_moved_same (sels : list Selection) :
  map (Selection.moved (fun x => x)) sels = sels.
Proof.
  induction sels as [|sel sels IH]; [reflexivity|].
  cbn [map]. now rewrite IH, moved_same.
Qed.

(** Choosing the position of a caret calls the buffer once in the two
    modes that open a line and not at all in the others; the stored
    iterators are where the buffer has moved them; nothing else
    changes. *)
Lemma position_for_spec (mode : Mode) (sel : Selection) (w w1 : Window)
      (r : outcome BufferIterator) :
  IncrementalInserter.position_for mode sel w = (r, w1) ->
  edited w w1
  /\ m_position w1 = m_position w
  /\ (exists calls, Buffer.extends_by calls (m_buffer w) (m_buffer w1))
  /\ (exists f, m_selections w1
                = map (Selection.moved f) (m_selections w))
  /\ match mode with
     | OpenLineBelow | OpenLineAbove => True
     | _ => w1 = w
     end.
Proof.
  assert (Hsame : edited w w
                  /\ m_position w = m_position w
                  /\ (exists calls,
                         Buffer.extends_by calls (m_buffer w) (m_buffer w))
                  /\ (exists f, m_selections w
                                = map (Selection.moved f) (m_selections w))).
  { split; [apply edited_refl|]. split; [reflexivity|].
    split; [exists []; apply extends_by_nil|].
    exists (fun x => x). now rewrite map_moved_same. }
  assert (Hone : forall pos,
    let w2 := Window.iterators_moved
                (Buffer.after_insert pos 1)
                (Window.set_buffer
                   (Buffer.insert (m_buffer w) pos [newline]) w) in
    edited w w2
    /\ m_position w2 = m_position w
    /\ (exists calls, Buffer.extends_by calls (m_buffer w) (m_buffer w2))
    /\ (exists f, m_selections w2
                  = map (Selection.moved f) (m_selections w))).
  { intros pos w2. split; [apply edited_moved|]. split; [reflexivity|].
    split; [eexists; apply extends_by_insert|].
    eexists. reflexivity. }
  destruct Hsame as (S1 & S2 & S3 & S4).
  destruct mode; unfold IncrementalInserter.position_for,
    Window.buffer_insert; run;
    repeat match goal with
           | |- context [match ?x with Ret _ => _ | Fail _ => _ end] =>
               destruct x
           end;
    intros [= <- <-];
    try (split; [exact S1|split; [exact S2|split; [exact S3|
           split; [exact S4|first [reflexivity|exact I]]]]]);
    match goal with
    | |- edited w (Window.iterators_moved (Buffer.after_insert ?pos 1) _)
         /\ _ =>
        destruct (Hone pos) as (O1 & O2 & O3 & O4);
        split; [exact O1|split; [exact O2|split; [exact O3|
          split; [exact O4|exact I]]]]
    end.
Qed.

(** How the constructor goes before its loop. *)
Lemma construct_prefix (this : nat) (mode : Mode) (w w' : Window)
      (r : outcome unit) :
  IncrementalInserter.construct this mode w = (r, w') ->
  let begun := Window.set_buffer
                 (Buffer.begin_undo_group (m_buffer w))
                 (Window.set_current_inserter (Some this) w) in
  (m_current_inserter w <> None /\ r = Fail assert_failed /\ w' = w)
  \/ (m_current_inserter w = None
      /\ m_selections w = []
      /\ r = Fail assert_failed
      /\ w' = Window.set_current_inserter (Some this) w)
  \/ (m_current_inserter w = None
      /\ m_selections w <> []
      /\ exists r0 w0,
          match mode with
          | Change => Window.erase_noundo begun = (r0, w0)
          | _ => r0 = Ret tt /\ w0 = begun
          end
          /\ match r0 with
             | Ret _ =>
                 Window.for_each
                   (fun sel =>
                      pos <- IncrementalInserter.position_for mode sel ;;
                      ret (mkSelection pos pos (m_captures sel)))%monad
                   0 (List.length (m_selections w0)) w0 = (r, w')
             | Fail e => r = Fail e /\ w' = w0
             end).
Proof.
  intros H begun. unfold IncrementalInserter.construct in H.
  apply bind_inv in H.
  destruct H as [(current & w1 & H1 & H)|(e & H1 & ->)];
    [|discriminate H1].
  injection H1 as <- <-.
  apply bind_inv in H.
  destruct H as [([] & w1 & H1 & H)|(e & H1 & ->)].
  2:{ pose proof (assert_state _ _ _ _ H1) as ->.
      unfold assert, ret, fail in H1.
      destruct (m_current_inserter w); [|discriminate H1].
      injection H1 as <-. left. repeat split. discriminate. }
  pose proof (assert_state _ _ _ _ H1) as ->.
  assert (Hnone : m_current_inserter w = None).
  { unfold assert, ret, fail in H1.
    destruct (m_current_inserter w); [discriminate H1|reflexivity]. }
  clear H1. right.
  apply bind_inv in H.
  destruct H as [([] & w1 & H1 & H)|(e & H1 & _)];
    [|discriminate H1].
  unfold modify in H1. injection H1 as <-.
  apply bind_inv in H.
  destruct H as [([] & w1 & H1 & H)|(e & H1 & ->)].
  2:{ pose proof (check_invariant_state _ _ _ H1) as ->.
      left. destruct (m_selections w) as [|s0 l0] eqn:Hs.
      - rewrite check_invariant_empty in H1 by exact Hs.
        injection H1 as <-. auto.
      - rewrite check_invariant_nonempty in H1
          by (cbn [m_selections Window.set_current_inserter];
              rewrite Hs; discriminate).
        discriminate H1. }
  pose proof (check_invariant_state _ _ _ H1) as ->.
  assert (Hsels : m_selections w <> []).
  { intros Hs. rewrite check_invariant_empty in H1 by exact Hs.
    discriminate H1. }
  clear H1. right. split; [exact Hnone|]. split; [exact Hsels|].
  apply bind_inv in H.
  destruct H as [([] & w1 & H1 & H)|(e & H1 & _)];
    [|discriminate H1].
  unfold Window.on_buffer, modify in H1. injection H1 as <-.
  fold begun in H.
  apply bind_inv in H.
  destruct H as [([] & w0 & H1 & H)|(e & H1 & ->)].
  - exists (Ret tt), w0. split.
    + destruct mode; try (injection H1 as <-; split; reflexivity).
      exact H1.
    + unfold Window.for_each_selection in H.
      unfold bind at 1, gets at 1 in H. exact H.
  - exists (Fail e), w'. split; [|split; reflexivity].
    destruct mode; try discriminate H1. exact H1.
Qed.

(** One turn of the constructor's loop, when it returns. *)
Lemma reshape_step (mode : Mode) (i : nat) (sel : Selection)
      (before after : Window) :
  (sel' <- (pos <- IncrementalInserter.position_for mode sel ;;
            ret (mkSelection pos pos (m_captures sel))) ;;
   Window.assign i sel')%monad before = (Ret tt, after) ->
  exists pos w1,
    IncrementalInserter.position_for mode sel before = (Ret pos, w1)
    /\ after = Window.set_selections
                 (Window.store i (mkSelection pos pos (m_captures sel))
                               (m_selections w1)) w1.
Proof.
  intros H. apply bind_inv in H.
  destruct H as [(sel' & w1 & H1 & H)|(e & _ & [=])].
  apply bind_inv in H1.
  destruct H1 as [(pos & w2 & Hpos & H1)|(e & _ & [=])].
  injection H1 as <- <-. unfold Window.assign, modify in H.
  injection H as <-. eauto.
Qed.

Lemma position_for_below (sel : Selection) (w w1 : Window)
      (pos : BufferIterator) :
  IncrementalInserter.position_for OpenLineBelow sel w = (Ret pos, w1) ->
  let b := m_buffer w in
  exists stop,
    (Buffer.minus (Selection.end_ b sel) 1 <= stop <= Buffer.length b
     /\ (stop = Buffer.length b \/ Buffer.deref b stop = Some newline)
     /\ (forall q, Buffer.minus (Selection.end_ b sel) 1 <= q < stop ->
                   Buffer.deref b q <> Some newline))
    /\ pos = S stop
    /\ w1 = Window.iterators_moved
              (Buffer.after_insert (S stop) 1)
              (Window.set_buffer (Buffer.insert b (S stop) [newline]) w).
Proof.
  intros H b. unfold IncrementalInserter.position_for in H.
  unfold bind at 1, gets at 1 in H. unfold bind at 1, query at 1 in H.
  fold b in H.
  destruct (IncrementalInserter.advance_to_newline
              (Buffer.length b) b (Buffer.minus (Selection.end_ b sel) 1))
    as [stop|e] eqn:Hscan; [|discriminate H].
  exists stop. split; [exact (advance_to_newline_returned _ _ _ _ Hscan)|].
  unfold bind, Window.buffer_insert, modify, ret in H.
  unfold Buffer.plus in H. rewrite Nat.add_1_r in H.
  injection H as <- <-. split; reflexivity.
Qed.

Lemma position_for_above (sel : Selection) (w w1 : Window)
      (pos : BufferIterator) :
  IncrementalInserter.position_for OpenLineAbove sel w = (Ret pos, w1) ->
  let b := m_buffer w in
  exists stop,
    (stop <= Selection.begin sel
     /\ (stop = 0 \/ Buffer.deref b stop = Some newline)
     /\ (forall q, stop < q <= Selection.begin sel ->
                   Buffer.deref b q <> Some newline))
    /\ pos = S stop
    /\ w1 = Window.iterators_moved
              (Buffer.after_insert stop 1)
              (Window.set_buffer (Buffer.insert b stop [newline]) w).
Proof.
  intros H b. unfold IncrementalInserter.position_for in H.
  unfold bind at 1, gets at 1 in H. unfold bind at 1, query at 1 in H.
  fold b in H.
  destruct (IncrementalInserter.retreat_to_newline
              (Selection.begin sel) b (Selection.begin sel))
    as [stop|e] eqn:Hscan; [|discriminate H].
  exists stop. split; [exact (retreat_to_newline_returned _ _ _ _ Hscan)|].
  unfold bind, Window.buffer_insert, modify, gets, ret in H.
  unfold Buffer.plus in H. rewrite Nat.add_1_r in H.
  injection H as <- <-. split; reflexivity.
Qed.

(** The words of the spec, insert at the stop and advance past it,
    lead to the text and the caret that [position_for] leads to. *)
Lemma open_line_below_as_specified_agrees (sel : Selection)
      (w w1 : Window) (pos : BufferIterator) :
  IncrementalInserter.position_for OpenLineBelow sel w = (Ret pos, w1) ->
  exists w2,
    IncrementalInserter.open_line_below_as_specified sel w = (Ret pos, w2)
    /\ m_content (m_buffer w2) = m_content (m_buffer w1).
Proof.
  intros H. unfold IncrementalInserter.open_line_below_as_specified.
  unfold IncrementalInserter.position_for in H.
  unfold bind at 1, gets at 1 in H. unfold bind at 1, query at 1 in H.
  unfold bind at 1, gets at 1. unfold bind at 1, query at 1.
  destruct (IncrementalInserter.advance_to_newline
              (Buffer.length (m_buffer w)) (m_buffer w)
              (Buffer.minus (Selection.end_ (m_buffer w) sel) 1))
    as [stop|e] eqn:Hscan; [|discriminate H].
  destruct (advance_to_newline_returned _ _ _ _ Hscan) as (_ & Hstop & _).
  unfold bind, Window.buffer_insert, modify, gets, ret in H |- *.
  injection H as <- <-. eexists. split; [reflexivity|].
  cbn [m_buffer Window.iterators_moved Window.set_buffer Buffer.insert
       m_content].
  unfold Buffer.plus. rewrite Nat.add_1_r. symmetry.
  apply insert_after_newline. exact Hstop.
Qed.

End OpeningLines.

(** C2.  In [OpenLineBelow] mode the turn of every selection starts
    from [sel.end() - 1], advances until end-of-buffer or the next
    newline, and leaves the text with a newline put in at that
    position and the selection a caret just past it, its captures kept:
    the caret is at the start of a line, and the line is empty.  In
    [OpenLineAbove] mode the turn starts from [sel.begin()], retreats
    until beginning-of-buffer or the previous newline, and leaves the
    text with a newline put in there and the selection a caret just
    past it.  The selections are taken in their order, each as the
    buffer has left it after the turns before; the other selections
    are where the buffer moves them when the newline goes in. *)
Theorem open_line_positions
        {buffer_queries : BufferQueries} {atom_queries : DisplayAtomQueries}
        (this : nat) (mode : Mode) (w w' : Window) :
  mode = OpenLineBelow \/ mode = OpenLineAbove ->
  IncrementalInserter.construct this mode w = (Ret tt, w') ->
  exists run,
    List.length run = S (List.length (m_selections w))
    /\ nth_error run 0
       = Some (Window.set_buffer
                 (Buffer.begin_undo_group (m_buffer w))
                 (Window.set_current_inserter (Some this) w))
    /\ nth_error run (List.length (m_selections w)) = Some w'
    /\ forall i before after,
         nth_error run i = Some before ->
         nth_error run (S i) = Some after ->
         exists sel stop,
           nth_error (m_selections before) i = Some sel
           /\ (let b := m_buffer before in
               match mode with
               | OpenLineBelow =>
                   Buffer.minus (Selection.end_ b sel) 1 <= stop
                   <= Buffer.length b
                   /\ (stop = Buffer.length b
                       \/ Buffer.deref b stop = Some newline)
                   /\ (forall q,
                          Buffer.minus (Selection.end_ b sel) 1 <= q < stop ->
                          Buffer.deref b q <> Some newline)
               | _ =>
                   stop <= Selection.begin sel
                   /\ (stop = 0 \/ Buffer.deref b stop = Some newline)
                   /\ (forall q,
                          stop < q <= Selection.begin sel ->
                          Buffer.deref b q <> Some newline)
               end)
           /\ m_content (m_buffer after)
              = splice [newline] stop stop (m_content (m_buffer before))
           /\ nth_error (m_selections after) i
              = Some (mkSelection (S stop) (S stop) (m_captures sel))
           /\ (mode = OpenLineBelow ->
               nth_error (m_content (m_buffer after)) stop = Some newline
               /\ (nth_error (m_content (m_buffer after)) (S stop)
                   = Some newline
                   \/ S stop = Buffer.length (m_buffer after)))
           /\ (forall j other,
                 j <> i ->
                 nth_error (m_selections before) j = Some other ->
                 nth_error (m_selections after) j
                 = Some (Selection.moved
                           (Buffer.after_insert
                              (match mode with
                               | OpenLineBelow => S stop
                               | _ => stop
                               end) 1)
                           other)).
Proof.
  intros Hmode H.
  destruct (construct_prefix _ _ _ _ _ H)
    as [(_ & [=] & _)|[(_ & _ & [=] & _)|(_ & _ & r0 & w0 & Hbefore & Hloop)]].
  assert (Hw0 : r0 = Ret tt
                /\ w0 = Window.set_buffer
                          (Buffer.begin_undo_group (m_buffer w))
                          (Window.set_current_inserter (Some this) w))
    by (destruct Hmode as [-> | ->]; exact Hbefore).
  destruct Hw0 as [-> ->]. clear Hbefore.
  cbn [m_selections Window.set_buffer Window.set_current_inserter] in Hloop.
  unfold Window.for_each in Hloop. apply visit_run in Hloop.
  destruct Hloop as (run & Hlen & Hfirst & Hlast & Hsteps).
  exists run. split; [exact Hlen|]. split; [exact Hfirst|].
  split; [exact Hlast|].
  intros i before after Hi Hsi.
  destruct (Hsteps i before after Hi Hsi) as (sel & Hsel & Hstep).
  cbn [Nat.add] in Hsel, Hstep.
  apply reshape_step in Hstep. destruct Hstep as (pos & w1 & Hpos & ->).
  assert (Hin : i < List.length (m_selections before))
    by (apply nth_error_Some; congruence).
  exists sel.
  destruct Hmode as [-> | ->].
  - apply position_for_below in Hpos. cbv zeta in Hpos.
    destruct Hpos as (stop & Hscan & -> & ->). exists stop.
    split; [exact Hsel|]. split; [exact Hscan|].
    destruct Hscan as ([_ Hle] & Hstop & _).
    assert (Htext :
      firstn (S stop) (m_content (m_buffer before))
        ++ [newline] ++ skipn (S stop) (m_content (m_buffer before))
      = splice [newline] stop stop (m_content (m_buffer before)))
      by (apply insert_after_newline; exact Hstop).
    cbn [m_buffer m_selections Window.set_selections
         Window.iterators_moved Window.set_buffer Buffer.insert m_content].
    split; [exact Htext|]. split; [|split].
    + apply store_same. now rewrite length_map.
    + intros _. unfold Buffer.length at 1.
      cbn [Buffer.insert m_content]. rewrite Htext.
      apply (below_is_empty_line (m_content (m_buffer before)) stop);
        assumption.
    + intros j other Hj Hother.
      rewrite store_other by exact Hj.
      now rewrite nth_error_map, Hother.
  - apply position_for_above in Hpos. cbv zeta in Hpos.
    destruct Hpos as (stop & Hscan & -> & ->). exists stop.
    split; [exact Hsel|]. split; [exact Hscan|].
    cbn [m_buffer m_selections Window.set_selections
         Window.iterators_moved Window.set_buffer Buffer.insert m_content].
    split; [reflexivity|]. split; [|split].
    + apply store_same. now rewrite length_map.
    + discriminate.
    + intros j other Hj Hother.
      rewrite store_other by exact Hj.
      now rewrite nth_error_map, Hother.
Qed.

(** Scenario S4: on "abc\ndef" with the caret inside "abc", opening a
    line below gives "abc\n\ndef" and the caret at the start of the
    empty line; opening a line above the second line gives the same
    text and caret. *)
Lemma open_line_positions_witness :
  (let w' := snd (IncrementalInserter.construct
                    (buffer_queries := Plain.buffer_queries)
                    (atom_queries := Plain.atom_queries)
                    0 OpenLineBelow Plain.two_lines) in
   (exists run,
       List.length run = 2
       /\ nth_error run 1 = Some w'
       /\ forall before after,
            nth_error run 0 = Some before ->
            nth_error run 1 = Some after ->
            exists sel stop,
              nth_error (m_selections before) 0 = Some sel
              /\ m_content (m_buffer after)
                 = splice [newline] stop stop (m_content (m_buffer before))
              /\ nth_error (m_selections after) 0
                 = Some (mkSelection (S stop) (S stop) (m_captures sel)))
   /\ m_content (m_buffer w')
      = text "abc" ++ [newline] ++ [newline] ++ text "def"
   /\ m_selections w' = [Plain.caret 4]
   /\ measure_string (firstn 4 (m_content (m_buffer w'))) = mkCoord 1 0)
  /\ (let w' := snd (IncrementalInserter.construct
                       (buffer_queries := Plain.buffer_queries)
                       (atom_queries := Plain.atom_queries)
                       0 OpenLineAbove
                       (Plain.window (Plain.buffer_of_text Plain.abc_def)
                                     [Plain.caret 5])) in
      m_content (m_buffer w')
      = text "abc" ++ [newline] ++ [newline] ++ text "def"
      /\ m_selections w' = [Plain.caret 4]).
Proof.
  split.
  - intros w'.
    destruct (open_line_positions
                (buffer_queries := Plain.buffer_queries)
                (atom_queries := Plain.atom_queries)
                0 OpenLineBelow Plain.two_lines w'
                (or_introl eq_refl) eq_refl)
      as (run & Hlen & _ & Hlast & Hsteps).
    split; [|vm_compute; repeat split].
    exists run. split; [exact Hlen|]. split; [exact Hlast|].
    intros before after H0 H1.
    destruct (Hsteps 0 before after H0 H1)
      as (sel & stop & Hsel & _ & Htext & Hcaret & _).
    exists sel, stop. split; [exact Hsel|]. split; [exact Htext|exact Hcaret].
  - vm_compute. split; reflexivity.
Defined.

(** ** Loops that rewrite the selections *)

Section ForEach.

Context {buffer_queries : BufferQueries}.
Context {atom_queries : DisplayAtomQueries}.

Variable Inv : Window -> Prop.
Variable P : Selection -> Selection -> Prop.
Variable body : Selection -> Window.WM Selection.

Hypothesis Inv_selections :
  forall l w, Inv w -> Inv (Window.set_selections l w).

Hypothesis body_spec :
  forall sel w r w1,
    Inv w -> body sel w = (r, w1) ->
    m_selections w1 = m_selections w
    /\ Inv w1
    /\ (forall sel', r = Ret sel' -> P sel sel').

(** A loop whose body leaves the selections to the loop rewrites a
    prefix of them, each as the body says, and all of them when it
    returns. *)
Lemma for_each_spec (todo done : list Selection) (w w' : Window)
      (r : outcome unit) :
  Inv w ->
  m_selections w = done ++ todo ->
  Window.for_each body (List.length done) (List.length todo) w = (r, w') ->
  Inv w'
  /\ exists k news,
      k <= List.length todo
      /\ Forall2 P (firstn k todo) news
      /\ m_selections w' = done ++ news ++ skipn k todo
      /\ (r = Ret tt -> k = List.length todo).
Proof.
  revert done w.
  induction todo as [|sel rest IH]; intros done w Hinv Hsels Hrun.
  - cbn in Hrun. injection Hrun as <- <-.
    split; [assumption|]. exists 0, []. cbn.
    repeat split; auto.
  - unfold Window.for_each in Hrun.
    cbn [List.length Window.visit] in Hrun. unfold bind at 1 in Hrun.
    unfold Window.selection_at at 1, query at 1 in Hrun.
    rewrite Hsels, nth_error_middle in Hrun.
    unfold bind at 1 in Hrun. unfold bind at 1 in Hrun.
    destruct (body sel w) as [[sel'|e] w1] eqn:Hbody.
    + destruct (body_spec _ _ _ _ Hinv Hbody) as [Hsame [Hinv1 Hp]].
      unfold Window.assign at 1, modify at 1 in Hrun.
      rewrite Hsame, Hsels, store_after in Hrun.
      replace (S (List.length done))
        with (List.length (done ++ [sel'])) in Hrun
        by (rewrite length_app; cbn; lia).
      apply (IH (done ++ [sel'])) in Hrun.
      * destruct Hrun as [Hinv' [k [news [Hk [Hall [Hnew Hret]]]]]].
        split; [assumption|].
        exists (S k), (sel' :: news). cbn [firstn skipn List.length].
        repeat split.
        -- lia.
        -- constructor; [now apply Hp|assumption].
        -- rewrite Hnew, <- app_assoc. reflexivity.
        -- intros Hr. now rewrite (Hret Hr).
      * now apply Inv_selections.
      * cbn. rewrite <- app_assoc. reflexivity.
    + injection Hrun as <- <-.
      destruct (body_spec _ _ _ _ Hinv Hbody) as [Hsame [Hinv1 _]].
      split; [assumption|]. exists 0, []. cbn.
      repeat split; auto; try lia; try constructor; try discriminate.
      now rewrite Hsame.
Qed.

Variable Q : Selection -> Prop.

Hypothesis body_returns :
  forall sel w,
    Inv w -> Q sel -> exists sel' w1, body sel w = (Ret sel', w1).

(** The loop returns when its body does on every selection. *)
Lemma for_each_returns (todo done : list Selection) (w : Window) :
  Inv w ->
  m_selections w = done ++ todo ->
  Forall Q todo ->
  exists w',
    Window.for_each body (List.length done) (List.length todo) w
    = (Ret tt, w').
Proof.
  revert done w.
  induction todo as [|sel rest IH]; intros done w Hinv Hsels Hall.
  - cbn. unfold ret. eauto.
  - inversion Hall as [|? ? Hsel Hrest]; subst.
    unfold Window.for_each.
    cbn [List.length Window.visit]. unfold bind at 1.
    unfold Window.selection_at at 1, query at 1.
    rewrite Hsels, nth_error_middle.
    unfold bind at 1. unfold bind at 1.
    destruct (body_returns sel w Hinv Hsel) as (sel' & w1 & Hbody).
    rewrite Hbody.
    destruct (body_spec _ _ _ _ Hinv Hbody) as [Hsame [Hinv1 _]].
    unfold Window.assign at 1, modify at 1.
    rewrite Hsame, Hsels, store_after.
    replace (S (List.length done))
      with (List.length (done ++ [sel']))
      by (rewrite length_app; cbn; lia).
    apply IH; [now apply Inv_selections| |assumption].
    cbn. now rewrite <- app_assoc.
Qed.

End ForEach.

(** ** Entering an insertion session *)

Section Construction.

Context {buffer_queries : BufferQueries}.
Context {atom_queries : DisplayAtomQueries}.

Lemma moved_caret (f : BufferIterator -> BufferIterator) (sel : Selection) :
  m_first sel = m_last sel ->
  m_first (Selection.moved f sel) = m_last (Selection.moved f sel).
Proof. unfold Selection.moved. cbn. congruence. Qed.

(** The loop of the constructor.  Whatever its outcome it leaves the
    captures, the position, the display coordinates, the filters and
    the registered inserter as they were, and mutates the buffer in the
    two modes that open a line only; when it returns every selection is
    a caret. *)
Lemma construct_loop (mode : Mode) (w0 w' : Window) (r : outcome unit) :
  Window.for_each
    (fun sel =>
       pos <- IncrementalInserter.position_for mode sel ;;
       ret (mkSelection pos pos (m_captures sel)))%monad
    0 (List.length (m_selections w0)) w0 = (r, w') ->
  (edited w0 w'
   /\ m_position w' = m_position w0
   /\ (exists calls, Buffer.extends_by calls (m_buffer w0) (m_buffer w'))
   /\ match mode with
      | OpenLineBelow | OpenLineAbove => True
      | _ => m_buffer w' = m_buffer w0
      end)
  /\ (r = Ret tt ->
      Forall (fun sel => m_first sel = m_last sel) (m_selections w')).
Proof.
  intros Hloop. unfold Window.for_each in Hloop.
  pose (Frame := fun w1 : Window =>
          edited w0 w1
          /\ m_position w1 = m_position w0
          /\ (exists calls,
                 Buffer.extends_by calls (m_buffer w0) (m_buffer w1))
          /\ match mode with
             | OpenLineBelow | OpenLineAbove => True
             | _ => m_buffer w1 = m_buffer w0
             end).
  apply (visit_inv _ (List.length (m_selections w0))
           (fun i w1 =>
              Frame w1
              /\ forall j sel,
                   j < i -> nth_error (m_selections w1) j = Some sel ->
                   m_first sel = m_last sel)
           (fun _ w1 => Frame w1)) in Hloop.
  - destruct r as [[]|e]; [|split; [exact Hloop|discriminate]].
    destruct Hloop as [Hframe Hcarets]. split; [exact Hframe|].
    intros _. apply Forall_forall. intros sel Hin.
    destruct (In_nth_error _ _ Hin) as [j Hj].
    apply (Hcarets j sel); [|exact Hj].
    destruct Hframe as [He _]. rewrite <- (edited_length _ _ He).
    apply nth_error_Some. congruence.
  - intros i w1 [(He & _) _]. exact (edited_length _ _ He).
  - intros i w1 sel r1 w2 Hi [(He & Hp & [calls Hc] & Hq) Hcarets]
           Hsel Hbody.
    apply bind_inv in Hbody.
    destruct Hbody as [(sel' & w3 & Hreshape & Hassign)|(e & Hreshape & ->)];
      apply bind_inv in Hreshape;
      destruct Hreshape as [(pos & w4 & Hpos & Hret)|(e' & Hpos & Hfail)];
      try discriminate Hret; try discriminate Hfail;
      pose proof (position_for_spec _ _ _ _ _ Hpos)
        as (He1 & Hp1 & [calls1 Hc1] & [f Hf] & Hq1).
    + injection Hret as <- <-.
      unfold Window.assign, modify in Hassign. injection Hassign as <- <-.
      assert (Hsel4 : nth_error (m_selections w4) i
                      = Some (Selection.moved f sel))
        by (now rewrite Hf, nth_error_map, Hsel).
      assert (He2 : edited w4
                (Window.set_selections
                   (Window.store i (mkSelection pos pos (m_captures sel))
                                 (m_selections w4)) w4))
        by (apply (edited_assign i (Selection.moved f sel)); auto).
      split.
      * split; [exact (edited_trans _ _ _ He (edited_trans _ _ _ He1 He2))|].
        split; [cbn [m_position Window.set_selections]; congruence|].
        split; [exists (calls ++ calls1);
                exact (extends_by_app _ _ _ _ _ Hc Hc1)|].
        destruct mode; try exact I;
          cbn [m_buffer Window.set_selections]; rewrite Hq1; exact Hq.
      * intros j sel' Hj Hsel'.
        cbn [m_selections Window.set_selections] in Hsel'.
        destruct (Nat.eq_dec j i) as [->|Hne].
        -- rewrite store_same in Hsel'
             by (apply nth_error_Some; congruence).
           now injection Hsel' as <-.
        -- rewrite store_other in Hsel' by exact Hne.
           rewrite Hf, nth_error_map in Hsel'.
           destruct (nth_error (m_selections w1) j) as [old|] eqn:Hold;
             [|discriminate Hsel'].
           injection Hsel' as <-. apply moved_caret.
           apply (Hcarets j); [lia|exact Hold].
    + injection Hfail as <-.
      split; [exact (edited_trans _ _ _ He He1)|].
      split; [congruence|].
      split; [exists (calls ++ calls1);
              exact (extends_by_app _ _ _ _ _ Hc Hc1)|].
      destruct mode; try exact I; rewrite Hq1; exact Hq.
  - reflexivity.
  - split.
    + split; [apply edited_refl|]. split; [reflexivity|].
      split; [exists []; apply extends_by_nil|].
      destruct mode; try exact I; reflexivity.
    + intros j sel Hj. lia.
Qed.

(** What the constructor has done when it returns. *)
Lemma construct_steps (this : nat) (mode : Mode) (w w' : Window) :
  IncrementalInserter.construct this mode w = (Ret tt, w') ->
  m_current_inserter w = None
  /\ m_current_inserter w' = Some this
  /\ m_dimensions w' = m_dimensions w
  /\ m_filters w' = m_filters w
  /\ (exists calls,
         Buffer.extends_by
           calls (Buffer.begin_undo_group (m_buffer w)) (m_buffer w'))
  /\ match mode with
     | OpenLineBelow | OpenLineAbove | Change => True
     | _ => m_buffer w' = Buffer.begin_undo_group (m_buffer w)
            /\ m_position w' = m_position w
     end.
Proof.
  intros H.
  destruct (construct_prefix _ _ _ _ _ H)
    as [(_ & [=] & _)
       |[(_ & _ & [=] & _)
        |(Hnone & _ & r0 & w0 & Hbefore & Hloop)]].
  split; [exact Hnone|].
  set (begun := Window.set_buffer
                  (Buffer.begin_undo_group (m_buffer w))
                  (Window.set_current_inserter (Some this) w)) in *.
  assert (Hbegun : exists r0',
             r0 = Ret r0'
             /\ edited begun w0
             /\ (exists calls,
                    Buffer.extends_by calls (m_buffer begun) (m_buffer w0))
             /\ match mode with
                | Change => True
                | _ => w0 = begun
                end).
  { destruct mode;
      try (lazymatch type of Hbefore with _ /\ _ => idtac end;
           destruct Hbefore as [-> ->]; exists tt;
           split; [reflexivity|]; split; [apply edited_refl|];
           split; [exists []; apply extends_by_nil|reflexivity]).
    destruct r0 as [[]|e]; [|destruct Hloop as [[=] _]].
    apply erase_noundo_spec in Hbefore.
    destruct Hbefore as (_ & He & calls & Hext & _).
    exists tt. split; [reflexivity|]. split; [exact He|].
    split; [exists calls; exact Hext|exact I]. }
  destruct Hbegun as (r0' & -> & He0 & [calls0 Hc0] & Hq0).
  apply construct_loop in Hloop.
  destruct Hloop as [(He & Hp & [calls Hc] & Hq) _].
  pose proof (edited_trans _ _ _ He0 He) as (Hd & Hf & Hi & _).
  split; [exact Hi|]. split; [exact Hd|]. split; [exact Hf|].
  split; [exists (calls0 ++ calls);
          exact (extends_by_app _ _ _ _ _ Hc0 Hc)|].
  destruct mode; try exact I; subst w0; split; assumption.
Qed.

(** Carets that kept the captures. *)
Lemma carets_with_captures (sels sels' : list Selection) :
  map m_captures sels' = map m_captures sels ->
  Forall (fun sel => m_first sel = m_last sel) sels' ->
  Forall2 (fun sel sel' =>
             m_first sel' = m_last sel'
             /\ m_captures sel' = m_captures sel)
          sels sels'.
Proof.
  revert sels'. induction sels as [|sel sels IH]; intros [|sel' sels'];
    cbn [map]; try discriminate; [constructor|].
  intros [= Hc Hrest] Hall. inversion Hall; subst.
  constructor; [split; assumption|]. now apply IH.
Qed.

(** In every outcome the constructor leaves the captures; when it
    returns every selection is a caret. *)
Lemma construct_frame (this : nat) (mode : Mode) (w w' : Window)
      (r : outcome unit) :
  IncrementalInserter.construct this mode w = (r, w') ->
  map m_captures (m_selections w') = map m_captures (m_selections w)
  /\ (r = Ret tt ->
      Forall (fun sel => m_first sel = m_last sel) (m_selections w')).
Proof.
  intros Hrun.
  destruct (construct_prefix _ _ _ _ _ Hrun)
    as [(_ & -> & ->)
       |[(_ & _ & -> & ->)
        |(_ & _ & r0 & w0 & Hbefore & Hloop)]];
    [split; [reflexivity|discriminate]
    |split; [reflexivity|discriminate]|].
  set (begun := Window.set_buffer
                  (Buffer.begin_undo_group (m_buffer w))
                  (Window.set_current_inserter (Some this) w)) in *.
  assert (He0 : edited begun w0).
  { destruct mode;
      try (lazymatch type of Hbefore with _ /\ _ => idtac end;
           destruct Hbefore as [_ ->]; apply edited_refl).
    apply erase_noundo_spec in Hbefore. apply Hbefore. }
  destruct He0 as (_ & _ & _ & Hcaptures0 & _).
  change (m_selections begun) with (m_selections w) in Hcaptures0.
  destruct r0 as [[]|e].
  - apply construct_loop in Hloop.
    destruct Hloop as [((_ & _ & _ & Hcaptures & _) & _) Hcarets].
    split; [congruence|exact Hcarets].
  - destruct Hloop as [-> ->]. split; [exact Hcaptures0|discriminate].
Qed.

(** C7.  [merge_with] leaves the captures of the selection as they
    were; the constructor of the inserter, in every mode, leaves the
    captures of every selection as they were and, when it returns, has
    made every selection a caret. *)
Theorem captures_are_kept :
  (forall sel other : Selection,
      m_captures (Selection.merge_with sel other) = m_captures sel)
  /\ (forall (this : nat) (mode : Mode) (w : Window),
         let r := fst (IncrementalInserter.construct this mode w) in
         let w' := snd (IncrementalInserter.construct this mode w) in
         map m_captures (m_selections w')
         = map m_captures (m_selections w)
         /\ (r = Ret tt ->
             Forall2 (fun sel sel' =>
                        m_first sel' = m_last sel'
                        /\ m_captures sel' = m_captures sel)
                     (m_selections w) (m_selections w'))).
Proof.
  split; [reflexivity|].
  intros this mode w r w'. subst r w'.
  destruct (IncrementalInserter.construct this mode w) as [r w'] eqn:Hrun.
  cbn [fst snd].
  destruct (construct_frame _ _ _ _ _ Hrun) as [Hcaptures Hcarets].
  split; [exact Hcaptures|].
  intros Hr. apply carets_with_captures; auto.
Qed.

End Construction.

(** Opening a line below a reverse selection that has two captures. *)
Lemma captures_are_kept_witness :
  fst (IncrementalInserter.construct
         (buffer_queries := Plain.buffer_queries)
         (atom_queries := Plain.atom_queries)
         1 OpenLineBelow Plain.with_captures) = Ret tt
  /\ m_selections
       (snd (IncrementalInserter.construct
               (buffer_queries := Plain.buffer_queries)
               (atom_queries := Plain.atom_queries)
               1 OpenLineBelow Plain.with_captures))
     = [mkSelection 4 4 [text "foo"; text "bar"]]
  /\ Forall2 (fun sel sel' =>
                m_first sel' = m_last sel'
                /\ m_captures sel' = m_captures sel)
             (m_selections Plain.with_captures)
             (m_selections
                (snd (IncrementalInserter.construct
                        (buffer_queries := Plain.buffer_queries)
                        (atom_queries := Plain.atom_queries)
                        1 OpenLineBelow Plain.with_captures))).
Proof.
  split; [reflexivity|]. split; [reflexivity|].
  apply (proj2 (@captures_are_kept Plain.buffer_queries Plain.atom_queries)
               1 OpenLineBelow Plain.with_captures).
  reflexivity.
Defined.

(** ** Leaving an insertion session *)

Section Destruction.

Context {buffer_queries : BufferQueries}.
Context {atom_queries : DisplayAtomQueries}.

(** The body of the inserter's [move_cursor], run in a window that
    differs from [w] in its selections at most. *)
Lemma move_cursor_body_spec (offset : DisplayCoord) (w : Window)
      (sel : Selection) (w1 w2 : Window) (r : outcome Selection) :
  (exists l, w1 = Window.set_selections l w) ->
  (pos <- query (fun w => Window.line_and_column_at w (m_last sel)) ;;
   it <- query (fun w => Window.iterator_at w (Coord.add pos offset)) ;;
   ret (Selection.make it it))%monad w1 = (r, w2) ->
  m_selections w2 = m_selections w1
  /\ (exists l, w2 = Window.set_selections l w)
  /\ (forall sel',
         r = Ret sel' ->
         exists pos it,
           Window.line_and_column_at w (m_last sel) = Ret pos
           /\ Window.iterator_at w (Coord.add pos offset) = Ret it
           /\ sel' = Selection.make it it).
Proof.
  intros [l1 ->] Hbody.
  apply bind_inv in Hbody.
  destruct Hbody as [(pos & w3 & Hpos & Hbody)|(e & Hpos & ->)].
  - unfold query in Hpos. injection Hpos as Hpos <-.
    apply bind_inv in Hbody.
    destruct Hbody as [(it & w3 & Hit & Hbody)|(e & Hit & ->)].
    + unfold query in Hit. injection Hit as Hit <-.
      injection Hbody as <- <-.
      split; [reflexivity|]. split; [now exists l1|].
      intros sel' [= <-]. now exists pos, it.
    + unfold query in Hit. injection Hit as _ <-.
      split; [reflexivity|]. split; [now exists l1|discriminate].
  - unfold query in Hpos. injection Hpos as _ <-.
    split; [reflexivity|]. split; [now exists l1|discriminate].
Qed.

(** The inserter's [move_cursor] rewrites the selections only, each to
    the caret its cursor maps to once moved by the offset. *)
Lemma move_cursor_spec (offset : DisplayCoord) (w w' : Window)
      (r : outcome unit) :
  IncrementalInserter.move_cursor offset w = (r, w') ->
  (exists l, w' = Window.set_selections l w)
  /\ (r = Ret tt ->
      Forall2 (fun sel sel' =>
                 exists pos it,
                   Window.line_and_column_at w (m_last sel) = Ret pos
                   /\ Window.iterator_at w (Coord.add pos offset) = Ret it
                   /\ sel' = Selection.make it it)
              (m_selections w) (m_selections w')).
Proof.
  unfold IncrementalInserter.move_cursor, Window.for_each_selection.
  intros H. apply bind_inv in H.
  destruct H as [(sels & w1 & H1 & H)|(e & H1 & _)]; [|discriminate H1].
  injection H1 as <- <-.
  apply (for_each_spec
           (fun w1 => exists l, w1 = Window.set_selections l w)
           (fun sel sel' =>
              exists pos it,
                Window.line_and_column_at w (m_last sel) = Ret pos
                /\ Window.iterator_at w (Coord.add pos offset) = Ret it
                /\ sel' = Selection.make it it))
    with (todo := m_selections w) (done := []) in H.
  - destruct H as [Hinv (k & news & Hk & Hall & Hnew & Hret)].
    split; [assumption|]. intros Hr. specialize (Hret Hr). subst k.
    rewrite firstn_all in Hall. rewrite skipn_all, app_nil_r in Hnew.
    now rewrite Hnew.
  - intros l w1 [l1 ->]. now exists l.
  - intros sel w1 r1 w2. apply move_cursor_body_spec.
  - exists (m_selections w). now destruct w.
  - reflexivity.
Qed.

(** The destructor returns when it is the registered inserter and the
    cursor of every selection maps to a display position whose left
    neighbour maps back to the buffer. *)
Lemma destroy_returns (this : nat) (w : Window) :
  m_current_inserter w = Some this ->
  Forall (fun sel =>
            exists pos it,
              Window.line_and_column_at w (m_last sel) = Ret pos
              /\ Window.iterator_at w (Coord.add pos (mkCoord 0 (-1)))
                 = Ret it)
         (m_selections w) ->
  exists w', IncrementalInserter.destroy this w = (Ret tt, w').
Proof.
  intros Hthis Hall. unfold IncrementalInserter.destroy.
  assert (Hmove : exists w1,
    IncrementalInserter.move_cursor (mkCoord 0 (-1)) w = (Ret tt, w1)).
  { unfold IncrementalInserter.move_cursor, Window.for_each_selection.
    unfold bind at 1, gets at 1.
    apply (for_each_returns
             (fun w1 => exists l, w1 = Window.set_selections l w)
             (fun sel sel' =>
                exists pos it,
                  Window.line_and_column_at w (m_last sel) = Ret pos
                  /\ Window.iterator_at
                       w (Coord.add pos (mkCoord 0 (-1))) = Ret it
                  /\ sel' = Selection.make it it))
      with (Q := fun sel =>
                   exists pos it,
                     Window.line_and_column_at w (m_last sel) = Ret pos
                     /\ Window.iterator_at
                          w (Coord.add pos (mkCoord 0 (-1))) = Ret it)
           (done := []).
    - intros l w1 [l1 ->]. now exists l.
    - intros sel w1 r1 w2. apply move_cursor_body_spec.
    - intros sel w1 [l1 ->] (pos & it & Hpos & Hit).
      exists (Selection.make it it), (Window.set_selections l1 w).
      unfold bind, query, ret.
      change (Window.line_and_column_at (Window.set_selections l1 w)
                                        (m_last sel))
        with (Window.line_and_column_at w (m_last sel)).
      rewrite Hpos.
      change (Window.iterator_at (Window.set_selections l1 w)
                                 (Coord.add pos (mkCoord 0 (-1))))
        with (Window.iterator_at w (Coord.add pos (mkCoord 0 (-1)))).
      now rewrite Hit.
    - exists (m_selections w). now destruct w.
    - reflexivity.
    - exact Hall. }
  destruct Hmove as [w1 Hmove].
  unfold bind at 1. rewrite Hmove.
  apply move_cursor_spec in Hmove. destruct Hmove as [[l ->] _].
  unfold bind at 1, gets at 1.
  cbn [m_current_inserter Window.set_selections]. rewrite Hthis.
  rewrite Nat.eqb_refl.
  unfold bind, assert, ret, Window.on_buffer, modify. eauto.
Qed.

(** C10.  The destructor of the inserter leaves the scroll position
    and the dimensions of the window as they were and, when it returns,
    has made every selection of the window a caret, anchor and cursor
    both at the iterator found one display column to the left of where
    the cursor was. *)
Theorem destroy_collapses_selections (this : nat) (w : Window) :
  let r := fst (IncrementalInserter.destroy this w) in
  let w' := snd (IncrementalInserter.destroy this w) in
  m_position w' = m_position w
  /\ m_dimensions w' = m_dimensions w
  /\ (r = Ret tt ->
      Forall2 (fun sel sel' =>
                 exists pos it,
                   Window.line_and_column_at w (m_last sel) = Ret pos
                   /\ Window.iterator_at
                        w (Coord.add pos (mkCoord 0 (-1))) = Ret it
                   /\ sel' = Selection.make it it
                   /\ m_first sel' = m_last sel')
              (m_selections w) (m_selections w')).
Proof.
  intros r w'. subst r w'.
  destruct (IncrementalInserter.destroy this w) as [r w'] eqn:Hrun.
  cbn [fst snd]. unfold IncrementalInserter.destroy in Hrun.
  apply bind_inv in Hrun.
  destruct Hrun as [([] & w1 & Hmove & Hrun)|(e & Hmove & ->)].
  - apply move_cursor_spec in Hmove. destruct Hmove as [[l ->] Hall].
    specialize (Hall eq_refl). cbn [m_selections Window.set_selections]
      in Hall.
    apply bind_inv in Hrun.
    destruct Hrun as [(current & w1 & H1 & Hrun)|(e & H1 & ->)];
      [|discriminate H1].
    injection H1 as <- <-.
    apply bind_inv in Hrun.
    destruct Hrun as [([] & w1 & H1 & Hrun)|(e & H1 & ->)].
    + apply assert_state in H1. subst w1.
      apply bind_inv in Hrun.
      destruct Hrun as [([] & w1 & H1 & Hrun)|(e & H1 & ->)];
        [|discriminate H1].
      injection H1 as <-. injection Hrun as <- <-.
      cbn. split; [reflexivity|]. split; [reflexivity|]. intros _.
      clear - Hall. induction Hall as [|sel sel' l1 l2 Hsel _ IH];
        constructor; [|assumption].
      destruct Hsel as (pos & it & Hpos & Hit & ->).
      exists pos, it. repeat split; assumption.
    + apply assert_state in H1. subst w'.
      cbn. repeat split; discriminate.
  - apply move_cursor_spec in Hmove. destruct Hmove as [[l ->] _].
    cbn. repeat split; discriminate.
Qed.

End Destruction.

(** Leaving a session with a forward and a reverse selection. *)
Lemma destroy_collapses_selections_witness :
  IncrementalInserter.destroy (buffer_queries := Plain.buffer_queries)
                              (atom_queries := Plain.atom_queries)
                              1 Plain.inserting
  = (Ret tt,
     mkWindow (Buffer.end_undo_group (m_buffer Plain.inserting))
              (mkCoord 0 0) (mkCoord 3 80)
              [Selection.make 3 3; Selection.make 6 6]
              (m_display_buffer Plain.inserting) [] None)
  /\ Forall2 (fun sel sel' =>
                exists pos it,
                  Window.line_and_column_at
                    (buffer_queries := Plain.buffer_queries)
                    (atom_queries := Plain.atom_queries)
                    Plain.inserting (m_last sel) = Ret pos
                  /\ Window.iterator_at
                       (buffer_queries := Plain.buffer_queries)
                       (atom_queries := Plain.atom_queries)
                       Plain.inserting (Coord.add pos (mkCoord 0 (-1)))
                     = Ret it
                  /\ sel' = Selection.make it it
                  /\ m_first sel' = m_last sel')
             (m_selections Plain.inserting)
             [Selection.make 3 3; Selection.make 6 6].
Proof.
  split; [reflexivity|].
  apply (proj2 (proj2
    (@destroy_collapses_selections Plain.buffer_queries Plain.atom_queries
       1 Plain.inserting))).
  reflexivity.
Defined.


(** ** The range of a selection *)

Section SelectionRange.

Context {buffer_queries : BufferQueries}.
Context {atom_queries : DisplayAtomQueries}.

Lemma nth_error_firstn_skipn {A} (l : list A) (start count i : nat) :
  i < count ->
  nth_error (firstn count (skipn start l)) i = nth_error l (start + i).
Proof.
  intros Hi. rewrite nth_error_firstn.
  assert (Hlt : (i <? count) = true) by now apply Nat.ltb_lt.
  rewrite Hlt. apply nth_error_skipn.
Qed.

(** X1.  The range of a selection does not depend on its direction;
    inside the buffer it runs from the smaller endpoint to the larger
    one, both included, and [selection_content] returns those
    characters of the primary selection and leaves the window alone. *)
Theorem selection_content_covers (w : Window) (sel : Selection) :
  back (m_selections w) = Some sel ->
  m_first sel < Buffer.length (m_buffer w) ->
  m_last sel < Buffer.length (m_buffer w) ->
  let b := m_buffer w in
  let low := Nat.min (m_first sel) (m_last sel) in
  let high := Nat.max (m_first sel) (m_last sel) in
  let swapped := mkSelection (m_last sel) (m_first sel) (m_captures sel) in
  Selection.begin swapped = Selection.begin sel
  /\ Selection.end_ b swapped = Selection.end_ b sel
  /\ Selection.begin sel = low
  /\ Selection.end_ b sel = S high
  /\ exists content,
      Window.selection_content w = (Ret content, w)
      /\ List.length content = high - low + 1
      /\ forall i, i <= high - low ->
                   nth_error content i = Buffer.deref b (low + i).
Proof.
  intros Hback Hfirst Hlast b low high swapped.
  assert (Hend : Selection.end_ b sel = S high).
  { unfold Selection.end_, Buffer.plus. subst high b. lia. }
  split; [unfold Selection.begin; cbn; lia|].
  split; [unfold Selection.end_, Buffer.plus; cbn; lia|].
  split; [reflexivity|]. split; [exact Hend|].
  exists (Buffer.string b (Selection.begin sel) (Selection.end_ b sel)).
  split.
  - unfold Window.selection_content. unfold bind at 1.
    rewrite (check_invariant_nonempty w (back_nonempty _ _ Hback)).
    run. rewrite Hback. reflexivity.
  - rewrite Hend. unfold Buffer.string, Selection.begin. fold low.
    replace (S high - low) with (high - low + 1) by (subst low high; lia).
    split.
    + rewrite length_firstn_min, length_skipn.
      unfold Buffer.length in *. fold b in Hfirst, Hlast.
      subst low high. lia.
    + intros i Hi. unfold Buffer.deref.
      apply nth_error_firstn_skipn. lia.
Qed.

End SelectionRange.

(** The word [ell] of [hello world], selected backwards. *)
Lemma selection_content_covers_witness :
  Window.selection_content
    (Plain.window (Plain.buffer_of "hello world") [Selection.make 3 1])
  = (Ret (text "ell"),
     Plain.window (Plain.buffer_of "hello world") [Selection.make 3 1])
  /\ exists content,
      Window.selection_content
        (Plain.window (Plain.buffer_of "hello world") [Selection.make 3 1])
      = (Ret content,
         Plain.window (Plain.buffer_of "hello world") [Selection.make 3 1])
      /\ List.length content = 3 - 1 + 1
      /\ forall i, i <= 3 - 1 ->
                   nth_error content i
                   = Buffer.deref (Plain.buffer_of "hello world") (1 + i).
Proof.
  split; [reflexivity|].
  apply (selection_content_covers
           (Plain.window (Plain.buffer_of "hello world")
                         [Selection.make 3 1])
           (Selection.make 3 1)); [reflexivity|cbn; lia|cbn; lia].
Defined.

(** ** Measuring a text *)

Section Measure.

Lemma measure_from_line (s : BufferString) (from : DisplayCoord) :
  line (measure_from from s)
  = (line from + Z.of_nat (count_occ ascii_dec s newline))%Z.
Proof.
  revert from. induction s as [|c s IH]; intros from; cbn [measure_from].
  - cbn. lia.
  - cbn [count_occ].
    destruct (Ascii.eqb_spec c newline) as [->|Hne].
    + rewrite IH. cbn [line].
      destruct (ascii_dec newline newline); [|congruence]. lia.
    + rewrite IH. cbn [line].
      destruct (ascii_dec c newline); [congruence|]. lia.
Qed.

Lemma measure_from_one_line (s : BufferString) (from : DisplayCoord) :
  ~ In newline s ->
  measure_from from s
  = mkCoord (line from) (column from + Z.of_nat (List.length s)).
Proof.
  revert from. induction s as [|c s IH]; intros from Hnone.
  - cbn. destruct from. cbn. f_equal. lia.
  - cbn [measure_from].
    destruct (Ascii.eqb_spec c newline) as [->|Hne].
    + exfalso. apply Hnone. now left.
    + rewrite IH by (intros Hin; apply Hnone; now right).
      cbn [line column List.length]. f_equal. lia.
Qed.

(** X2.  [measure_string] counts the newlines of a text in its line
    and, in its column, the characters after the last newline. *)
Theorem measure_string_counts (s1 s2 : BufferString) :
  line (measure_string s1)
  = Z.of_nat (count_occ ascii_dec s1 newline)
  /\ (~ In newline s2 ->
      measure_string s2 = mkCoord 0 (Z.of_nat (List.length s2))
      /\ measure_string (s1 ++ newline :: s2)
         = mkCoord (Z.of_nat (count_occ ascii_dec s1 newline) + 1)
                   (Z.of_nat (List.length s2))).
Proof.
  split.
  - unfold measure_string. rewrite measure_from_line. cbn. lia.
  - intros Hnone. split.
    + unfold measure_string. rewrite measure_from_one_line by assumption.
      reflexivity.
    + unfold measure_string. rewrite measure_from_app.
      cbn [measure_from]. rewrite Ascii.eqb_refl.
      rewrite measure_from_one_line by assumption.
      cbn [line column]. rewrite measure_from_line. cbn [line]. f_equal.
Qed.

End Measure.

(** Two lines and the beginning of a third. *)
Lemma measure_string_counts_witness :
  measure_string (Plain.abc_def ++ newline :: text "gh") = mkCoord 2 2.
Proof.
  apply (proj2 (measure_string_counts Plain.abc_def (text "gh"))).
  cbn. intros [H|[H|[]]]; discriminate H.
Defined.

(** ** The filter list *)

Section FilterList.

Lemma erase_filter_id_ids (id : string) (filters : list FilterAndId) :
  forall other, In other (map fst (Window.erase_filter_id id filters)) ->
                In other (map fst filters).
Proof.
  induction filters as [|f rest IH]; cbn; [tauto|].
  intros other. destruct (String.eqb (fst f) id); cbn; [tauto|].
  intros [H|H]; [now left|right; now apply IH].
Qed.

Lemma erase_filter_id_unique (id : string) (filters : list FilterAndId) :
  NoDup (map fst filters) ->
  NoDup (map fst (Window.erase_filter_id id filters))
  /\ ~ In id (map fst (Window.erase_filter_id id filters)).
Proof.
  induction filters as [|f rest IH]; cbn; intros Hunique.
  - split; [constructor|tauto].
  - inversion Hunique as [|? ? Hfresh Hrest]; subst.
    destruct (String.eqb_spec (fst f) id) as [Heq|Hne].
    + subst id. split; assumption.
    + destruct (IH Hrest) as [Hnodup Hgone]. cbn. split.
      * constructor; [|assumption].
        intros Hin. apply Hfresh. now apply (erase_filter_id_ids id).
      * intros [H|H]; [congruence|tauto].
Qed.

Lemma erase_filter_id_last (filter : FilterAndId)
      (filters : list FilterAndId) :
  ~ In (fst filter) (map fst filters) ->
  Window.erase_filter_id (fst filter) (filters ++ [filter]) = filters.
Proof.
  induction filters as [|f rest IH]; cbn; intros Hfresh.
  - now rewrite String.eqb_refl.
  - destruct (String.eqb_spec (fst f) (fst filter)) as [Heq|Hne];
      [tauto|].
    rewrite IH; tauto.
Qed.

(** X3.  Filter ids stay unique: [add_filter] and [remove_filter] take
    a filter list without a repeated id to one without a repeated id,
    whatever their outcome, and after [remove_filter(id)] no installed
    filter has that id. *)
Theorem filter_ids_stay_unique (w : Window) :
  NoDup (map fst (m_filters w)) ->
  (forall filter,
      NoDup (map fst (m_filters (snd (Window.add_filter filter w)))))
  /\ (forall id,
         NoDup (map fst (m_filters (snd (Window.remove_filter id w))))
         /\ ~ In id (map fst (m_filters (snd (Window.remove_filter id w))))).
Proof.
  intros Hunique. split.
  - intros filter.
    destruct (in_dec string_dec (fst filter) (map fst (m_filters w)))
      as [Hin|Hnot].
    + apply has_filter_id_In in Hin.
      unfold Window.add_filter, bind, gets, fail. now rewrite Hin.
    + assert (Hhas : Window.has_filter_id (fst filter) (m_filters w) = false).
      { destruct (Window.has_filter_id (fst filter) (m_filters w)) eqn:E;
          [|reflexivity].
        apply has_filter_id_In in E. tauto. }
      unfold Window.add_filter, bind, gets, modify. rewrite Hhas.
      cbn [snd m_filters Window.set_filters].
      rewrite map_app. cbn [map].
      apply NoDup_app; [assumption|repeat constructor; tauto|].
      intros id Hin [<-|[]]. tauto.
  - intros id. unfold Window.remove_filter, modify.
    cbn [snd m_filters Window.set_filters].
    now apply erase_filter_id_unique.
Qed.

(** X4.  Removing a filter that was just added, under an id that was
    free, gives the window back as it was. *)
Theorem add_then_remove_filter (filter : FilterAndId) (w : Window) :
  ~ In (fst filter) (map fst (m_filters w)) ->
  (Window.add_filter filter ;; Window.remove_filter (fst filter))%monad w
  = (Ret tt, w).
Proof.
  intros Hfresh.
  assert (Hhas : Window.has_filter_id (fst filter) (m_filters w) = false).
  { destruct (Window.has_filter_id (fst filter) (m_filters w)) eqn:E;
      [|reflexivity].
    apply has_filter_id_In in E. tauto. }
  unfold Window.add_filter, Window.remove_filter, bind, gets, modify.
  rewrite Hhas. cbn [m_filters Window.set_filters].
  rewrite erase_filter_id_last by assumption.
  now destruct w.
Qed.

Lemma substring_prefix (p s : string) :
  substring 0 (String.length p) s = p <-> exists rest, s = (p ++ rest)%string.
Proof.
  revert s. induction p as [|c p IH]; intros s; cbn.
  - split; [intros _; now exists s|].
    intros _. now destruct s.
  - destruct s as [|d s]; cbn.
    + split; [discriminate|]. intros [rest H]. discriminate H.
    + split.
      * intros [= -> Hp]. apply IH in Hp. destruct Hp as [rest ->].
        now exists rest.
      * intros [rest [= -> ->]]. f_equal. apply IH. now exists rest.
Qed.

(** X5.  [complete_filterid] returns, in the order of installation, the
    ids of the installed filters that begin with the first [cursor_pos]
    characters of the prefix, and every id when [cursor_pos] is zero; it
    leaves the window as it was. *)
Theorem complete_filterid_candidates
        (prefix : string) (cursor_pos : nat) (w : Window) :
  let typed := substring 0 cursor_pos prefix in
  exists candidates,
    Window.complete_filterid prefix cursor_pos w = (Ret candidates, w)
    /\ candidates
       = filter (fun id => String.prefix typed id) (map fst (m_filters w))
    /\ (forall id,
           In id candidates <->
           In id (map fst (m_filters w))
           /\ exists rest, id = (typed ++ rest)%string)
    /\ (cursor_pos = 0 -> candidates = map fst (m_filters w)).
Proof.
  intros typed. unfold Window.complete_filterid, bind, gets, ret.
  fold typed. eexists. split; [reflexivity|].
  assert (Hsame : forall filters : list FilterAndId,
    map fst
      (filter (fun f => String.eqb (substring 0 (String.length typed) (fst f))
                                   typed) filters)
    = filter (fun id => String.prefix typed id) (map fst filters)).
  { induction filters as [|f rest IH]; [reflexivity|].
    cbn [filter map].
    assert (Heq : String.eqb (substring 0 (String.length typed) (fst f)) typed
                  = String.prefix typed (fst f)).
    { destruct (String.prefix typed (fst f)) eqn:Hp.
      - apply prefix_correct in Hp. now apply String.eqb_eq.
      - apply String.eqb_neq. intros Hs.
        apply prefix_correct in Hs. congruence. }
    rewrite Heq. destruct (String.prefix typed (fst f)); cbn [map];
      now rewrite IH. }
  rewrite Hsame. split; [reflexivity|]. split.
  - intros id. rewrite filter_In, prefix_correct, substring_prefix.
    reflexivity.
  - intros ->. subst typed.
    assert (Hempty : substring 0 0 prefix = EmptyString)
      by now destruct prefix.
    rewrite Hempty.
    induction (map fst (m_filters w)) as [|id ids IH]; [reflexivity|].
    cbn [filter]. replace (String.prefix "" id) with true
      by now destruct id.
    now rewrite IH.
Qed.

End FilterList.

(** The default filters, after a second [hlcpp] is refused and after
    [hlcpp] is removed. *)
Lemma filter_ids_stay_unique_witness :
  NoDup (map fst (m_filters
    (snd (Window.add_filter ("hlcpp"%string, fun d => d)
                            Plain.default_filters))))
  /\ ~ In "hlcpp"%string
       (map fst (m_filters
          (snd (Window.remove_filter "hlcpp" Plain.default_filters)))).
Proof.
  assert (Hunique : NoDup (map fst (m_filters Plain.default_filters))).
  { cbn. repeat constructor; cbn;
      intros H; repeat destruct H as [H|H]; try discriminate H; exact H. }
  split.
  - apply (proj1 (filter_ids_stay_unique Plain.default_filters Hunique)).
  - apply (proj2 (filter_ids_stay_unique Plain.default_filters Hunique)).
Defined.

(** Adding [show_spaces] to the default filters and removing it. *)
Lemma add_then_remove_filter_witness :
  (Window.add_filter ("show_spaces"%string, fun d => d) ;;
   Window.remove_filter "show_spaces")%monad Plain.default_filters
  = (Ret tt, Plain.default_filters).
Proof.
  apply (add_then_remove_filter ("show_spaces"%string, fun d => d)
                                Plain.default_filters).
  cbn. intros [H|[H|[H|[]]]]; discriminate H.
Defined.

(** Completing [h] among the default filters. *)
Lemma complete_filterid_candidates_witness :
  exists candidates,
    Window.complete_filterid "hx" 1 Plain.default_filters
    = (Ret candidates, Plain.default_filters)
    /\ candidates
       = filter (fun id => String.prefix "h" id)
                (map fst (m_filters Plain.default_filters))
    /\ (forall id,
           In id candidates <->
           In id (map fst (m_filters Plain.default_filters))
           /\ exists rest, id = ("h" ++ rest)%string)
    /\ (1 = 0 -> candidates = map fst (m_filters Plain.default_filters)).
Proof.
  exact (complete_filterid_candidates "hx" 1 Plain.default_filters).
Defined.


(** ** Edits and their undo groups *)

Section Edits.

Context {buffer_queries : BufferQueries}.
Context {atom_queries : DisplayAtomQueries}.

Lemma length_insert (b : Buffer) (pos : BufferIterator) (s : BufferString) :
  Buffer.length (Buffer.insert b pos s) = Buffer.length b + List.length s.
Proof.
  unfold Buffer.length, Buffer.insert. cbn [m_content].
  rewrite !length_app, length_firstn_min, length_skipn. lia.
Qed.

Lemma length_erase (b : Buffer) (first last : BufferIterator) :
  Buffer.length (Buffer.erase b first last) <= Buffer.length b.
Proof.
  unfold Buffer.length, Buffer.erase. cbn [m_content].
  rewrite !length_app, length_firstn_min, length_skipn. lia.
Qed.

(** A loop whose body asks the buffer for one mutation keeps what
    every such mutation keeps. *)
Lemma each_selection_buffers (Inv : nat -> Buffer -> Prop)
      (body : Selection -> Window.WM unit) (w w' : Window)
      (r : outcome unit) :
  (forall sel w1,
      exists f b1,
        body sel w1
        = (Ret tt, Window.iterators_moved f (Window.set_buffer b1 w1))
        /\ forall i, Inv i (m_buffer w1) -> Inv (S i) b1) ->
  Inv 0 (m_buffer w) ->
  Window.each_selection body w = (r, w') ->
  r = Ret tt /\ Inv (List.length (m_selections w)) (m_buffer w').
Proof.
  intros Hbody Hstart Hloop. unfold Window.each_selection in Hloop.
  unfold bind at 1, gets at 1 in Hloop.
  apply (visit_inv _ (List.length (m_selections w))
           (fun i w1 =>
              List.length (m_selections w1) = List.length (m_selections w)
              /\ Inv i (m_buffer w1))
           (fun _ _ => False)) in Hloop.
  - destruct r as [[]|e]; [|contradiction].
    split; [reflexivity|apply Hloop].
  - intros i w1 [Hlen _]. exact Hlen.
  - intros i w1 sel r1 w2 _ [Hlen Hinv] _ Hrun.
    destruct (Hbody sel w1) as (f & b1 & Hret & Hstep).
    rewrite Hret in Hrun. injection Hrun as <- <-.
    split; [|apply Hstep; exact Hinv].
    cbn [m_selections Window.iterators_moved Window.set_buffer].
    now rewrite length_map.
  - reflexivity.
  - split; [reflexivity|exact Hstart].
Qed.

(** A scope whose body only mutates the buffer commits one step, which
    one [undo] takes back. *)
Lemma scoped_commits {A} (body : Window.WM A) (w w2 : Window)
      (r : outcome A) (mutations : list BufferCall) :
  body (Window.set_buffer (Buffer.begin_undo_group (m_buffer w)) w)
  = (r, w2) ->
  r <> Fail undefined_behaviour ->
  Buffer.extends_by mutations (Buffer.begin_undo_group (m_buffer w))
                    (m_buffer w2) ->
  let b := m_buffer w in
  let b' := m_buffer (snd (Window.scoped_undo_group body w)) in
  fst (Window.scoped_undo_group body w) = r
  /\ m_calls b'
     = m_calls b ++ CallBeginUndoGroup :: mutations ++ [CallEndUndoGroup]
  /\ forallb Buffer.is_mutation mutations = true
  /\ m_current_undo_group b' = []
  /\ (m_current_undo_group b = [] ->
      (exists group, m_history b' = group :: m_history b)
      /\ fst (Buffer.undo b') = true
      /\ m_content (snd (Buffer.undo b')) = m_content b
      /\ m_history (snd (Buffer.undo b')) = m_history b).
Proof.
  intros Hbody Hdefined Hext b b'. subst b b'.
  rewrite (scoped_undo_group_closes _ _ _ _ Hbody Hdefined).
  cbn [fst snd Window.set_buffer m_buffer].
  destruct (end_undo_group_commits _ _ _ Hext) as (Ha & Hb & Hc & _ & Hd).
  split; [reflexivity|]. split; [exact Ha|]. split; [exact Hb|].
  split; [exact Hc|exact Hd].
Qed.

(** X6.  [erase()], [insert(s)] and [append(s)] each open one undo
    group, make their mutations, at most one for every selection, and
    close the group whether the work returns or fails; the group is one
    step of the history and one [undo] gives the text back as it was. *)
Theorem edits_commit_one_group (s : BufferString) (w : Window)
        (edit : Window.WM unit) :
  edit = Window.erase \/ edit = Window.insert s \/ edit = Window.append s ->
  let b := m_buffer w in
  let b' := m_buffer (snd (edit w)) in
  fst (edit w) <> Fail undefined_behaviour
  /\ (exists mutations,
        m_calls b'
        = m_calls b ++ CallBeginUndoGroup :: mutations ++ [CallEndUndoGroup]
        /\ forallb Buffer.is_mutation mutations = true
        /\ List.length mutations = List.length (m_selections w))
  /\ m_current_undo_group b' = []
  /\ (m_current_undo_group b = [] ->
      (exists group, m_history b' = group :: m_history b)
      /\ fst (Buffer.undo b') = true
      /\ m_content (snd (Buffer.undo b')) = m_content b
      /\ m_history (snd (Buffer.undo b')) = m_history b).
Proof.
  intros Hedit b b'.
  assert (Hbody : exists body r w2 mutations,
    edit = Window.scoped_undo_group body
    /\ body (Window.set_buffer (Buffer.begin_undo_group b) w) = (r, w2)
    /\ r <> Fail undefined_behaviour
    /\ Buffer.extends_by mutations (Buffer.begin_undo_group b) (m_buffer w2)
    /\ List.length mutations = List.length (m_selections w)).
  { destruct Hedit as [->|[->| ->]].
    - destruct (Window.erase_noundo
                  (Window.set_buffer (Buffer.begin_undo_group b) w))
        as [r w2] eqn:Hrun.
      destruct (erase_noundo_spec _ _ _ Hrun)
        as (Hdefined & _ & calls & Hext & Hlen & _).
      exists Window.erase_noundo, r, w2, calls.
      split; [reflexivity|]. split; [exact Hrun|].
      split; [assumption|]. split; [exact Hext|exact Hlen].
    - destruct (Window.insert_noundo s
                  (Window.set_buffer (Buffer.begin_undo_group b) w))
        as [r w2] eqn:Hrun.
      destruct (insert_noundo_spec _ _ _ _ Hrun)
        as (Hdefined & _ & calls & Hext & Hlen & _).
      exists (Window.insert_noundo s), r, w2, calls.
      split; [reflexivity|]. split; [exact Hrun|].
      split; [assumption|]. split; [exact Hext|exact Hlen].
    - destruct (Window.append_noundo s
                  (Window.set_buffer (Buffer.begin_undo_group b) w))
        as [r w2] eqn:Hrun.
      destruct (append_noundo_spec _ _ _ _ Hrun)
        as (Hdefined & _ & calls & Hext & Hlen & _).
      exists (Window.append_noundo s), r, w2, calls.
      split; [reflexivity|]. split; [exact Hrun|].
      split; [assumption|]. split; [exact Hext|exact Hlen]. }
  destruct Hbody as (body & r & w2 & mutations & -> & Hrun & Hdefined
                     & Hext & Hlen).
  destruct (scoped_commits body w w2 r mutations Hrun Hdefined Hext)
    as [Hr [Hcalls [Hmut [Hclosed Hundo]]]].
  subst b'. split; [now rewrite Hr|].
  split; [exists mutations; repeat split; assumption|].
  split; assumption.
Qed.

(** X7.  [insert(s)] and [append(s)] lengthen the text by the length
    of [s] for every selection, wherever the selections are and however
    the call ends; [erase()] never lengthens it. *)
Theorem edits_change_length (s : BufferString) (w : Window) :
  let n := List.length (m_selections w) in
  Buffer.length (m_buffer (snd (Window.insert s w)))
  = Buffer.length (m_buffer w) + n * List.length s
  /\ Buffer.length (m_buffer (snd (Window.append s w)))
     = Buffer.length (m_buffer w) + n * List.length s
  /\ Buffer.length (m_buffer (snd (Window.erase w)))
     <= Buffer.length (m_buffer w).
Proof.
  intros n. subst n.
  set (begun := Window.set_buffer (Buffer.begin_undo_group (m_buffer w)) w).
  assert (Hinserts : forall (position : Buffer -> Selection -> BufferIterator)
                            r w1 w2 r2,
    Window.each_selection
      (fun sel =>
         b <- gets m_buffer ;;
         Window.buffer_insert (position b sel) s)%monad begun = (r, w1) ->
    Window.scroll_to_keep_cursor_visible_ifn w1 = (r2, w2) ->
    Buffer.length (Buffer.end_undo_group (m_buffer w2))
    = Buffer.length (m_buffer w)
      + List.length (m_selections w) * List.length s).
  { intros position r w1 w2 r2 Hloop Hscroll.
    apply (each_selection_buffers
             (fun i b1 =>
                Buffer.length b1
                = Buffer.length (m_buffer w) + i * List.length s))
      in Hloop.
    - apply scroll_edited in Hscroll. destruct Hscroll as (_ & -> & _).
      destruct Hloop as [_ Hlen]. exact Hlen.
    - intros sel w1'. eexists. eexists. split; [reflexivity|].
      intros i Hi. rewrite length_insert. lia.
    - unfold begun, Buffer.length. cbn. lia. }
  split; [|split].
  - unfold Window.insert.
    destruct (Window.insert_noundo s begun) as [r w2] eqn:Hrun.
    destruct (insert_noundo_spec _ _ _ _ Hrun) as [Hdefined _].
    rewrite (scoped_undo_group_closes _ _ _ _ Hrun Hdefined).
    cbn [snd m_buffer Window.set_buffer].
    unfold Window.insert_noundo in Hrun. apply bind_inv in Hrun.
    destruct Hrun as [([] & w1 & Hloop & Hscroll)|(e & Hloop & ->)].
    + exact (Hinserts (fun _ sel => Selection.begin sel)
                      _ _ _ _ Hloop Hscroll).
    + destruct (each_selection_calls _ _ begun (insert_body_one_call s))
        as (w1 & calls & Hret & _).
      rewrite Hret in Hloop. discriminate Hloop.
  - unfold Window.append.
    destruct (Window.append_noundo s begun) as [r w2] eqn:Hrun.
    destruct (append_noundo_spec _ _ _ _ Hrun) as [Hdefined _].
    rewrite (scoped_undo_group_closes _ _ _ _ Hrun Hdefined).
    cbn [snd m_buffer Window.set_buffer].
    unfold Window.append_noundo in Hrun. apply bind_inv in Hrun.
    destruct Hrun as [([] & w1 & Hloop & Hscroll)|(e & Hloop & ->)].
    + exact (Hinserts (fun b sel => Selection.end_ b sel)
                      _ _ _ _ Hloop Hscroll).
    + destruct (each_selection_calls _ _ begun (append_body_one_call s))
        as (w1 & calls & Hret & _).
      rewrite Hret in Hloop. discriminate Hloop.
  - unfold Window.erase.
    destruct (Window.erase_noundo begun) as [r w2] eqn:Hrun.
    destruct (erase_noundo_spec _ _ _ Hrun) as [Hdefined _].
    rewrite (scoped_undo_group_closes _ _ _ _ Hrun Hdefined).
    cbn [snd m_buffer Window.set_buffer].
    unfold Window.erase_noundo in Hrun. apply bind_inv in Hrun.
    destruct Hrun as [([] & w1 & H1 & Hrun)|(e & H1 & ->)].
    + apply check_invariant_state in H1. subst w1.
      apply bind_inv in Hrun.
      destruct Hrun as [([] & w1 & Hloop & Hscroll)|(e & Hloop & ->)].
      * apply (each_selection_buffers
                 (fun _ b1 => Buffer.length b1 <= Buffer.length (m_buffer w)))
          in Hloop.
        -- apply scroll_edited in Hscroll. destruct Hscroll as (_ & -> & _).
           apply Hloop.
        -- intros sel w1'. eexists. eexists. split; [reflexivity|].
           intros _ Hi. etransitivity; [apply length_erase|exact Hi].
        -- unfold begun, Buffer.length. cbn. lia.
      * destruct (each_selection_calls _ _ begun erase_body_one_call)
          as (w1 & calls & Hret & _).
        rewrite Hret in Hloop. discriminate Hloop.
    + apply check_invariant_state in H1. subst w2. reflexivity.
Qed.

End Edits.

(** Scenario S1: [hello] typed into an empty buffer, and taken back. *)
Lemma edits_commit_one_group_witness :
  let inserted :=
    snd (Window.insert (buffer_queries := Plain.buffer_queries)
                       (atom_queries := Plain.atom_queries)
                       (text "hello") (Window.initial (Plain.buffer_of ""))) in
  m_content (m_buffer inserted) = text "hello"
  /\ fst (Buffer.undo (m_buffer inserted)) = true
  /\ m_content (snd (Buffer.undo (m_buffer inserted))) = [].
Proof.
  split; [reflexivity|].
  destruct (proj2 (proj2 (proj2
    (@edits_commit_one_group Plain.buffer_queries Plain.atom_queries
       (text "hello") (Window.initial (Plain.buffer_of ""))
       (Window.insert (text "hello"))
       (or_intror (or_introl eq_refl))))) eq_refl)
    as [_ [Hdone [Htext _]]].
  split; assumption.
Defined.


(** ** From the buffer to the display *)

Section ToDisplay.

Context {buffer_queries : BufferQueries}.
Context {atom_queries : DisplayAtomQueries}.

(** The loop returns at the first atom that ends after the iterator. *)
Lemma line_and_column_at_loop_first
      (earlier later : DisplayBuffer) (atom : DisplayAtom)
      (it : BufferIterator) :
  (forall a, In a earlier -> atom_end a <= it) ->
  it < atom_end atom ->
  Window.line_and_column_at_loop (earlier ++ atom :: later) it
  = Some (if atom_begin atom <=? it
          then Ret (atom_line_and_column_at atom it)
          else Fail assert_failed).
Proof.
  intros Hearlier Hatom.
  induction earlier as [|a earlier IH];
    cbn [app Window.line_and_column_at_loop].
  - assert (Hlt : (it <? atom_end atom) = true) by now apply Nat.ltb_lt.
    now rewrite Hlt.
  - assert (Hge : (it <? atom_end a) = false).
    { apply Nat.ltb_ge. apply Hearlier. now left. }
    rewrite Hge. apply IH. intros a' Hin. apply Hearlier. now right.
Qed.

(** With chained ranges the loop, started at or after the beginning of
    its first atom, never fails its assertion. *)
Lemma line_and_column_at_loop_chained
      (atoms : DisplayBuffer) (it : BufferIterator)
      (found : outcome DisplayCoord) :
  ranges_chained atoms = true ->
  match atoms with
  | front :: _ => atom_begin front <= it
  | [] => True
  end ->
  Window.line_and_column_at_loop atoms it = Some found ->
  exists coord, found = Ret coord.
Proof.
  induction atoms as [|a atoms IH]; cbn [Window.line_and_column_at_loop];
    [discriminate|].
  intros Hchained Hfront.
  destruct (it <? atom_end a) eqn:Hlt.
  - assert (Hle : (atom_begin a <=? it) = true) by now apply Nat.leb_le.
    rewrite Hle. intros [= <-]. eauto.
  - cbn [ranges_chained] in Hchained.
    apply andb_true_iff in Hchained. destruct Hchained as [Hnext Hrest].
    apply IH; [assumption|].
    destruct atoms as [|a' atoms]; [exact I|].
    apply Nat.leb_le in Hnext. apply Nat.ltb_ge in Hlt. lia.
Qed.

(** X8.  [line_and_column_at] returns (0,0) when nothing is rendered;
    for an iterator outside the rendered range it returns the buffer
    coordinate less the scroll position; inside the range it asks the
    first atom that ends after the iterator, and fails the assertion when
    that atom begins after the iterator.  When no atom begins after the
    end of the atom before it, it always returns. *)
Theorem line_and_column_at_cases (w : Window) (it : BufferIterator) :
  (m_display_buffer w = [] ->
   Window.line_and_column_at w it = Ret (mkCoord 0 0))
  /\ (forall front rest last_atom,
         m_display_buffer w = front :: rest ->
         back (m_display_buffer w) = Some last_atom ->
         it < atom_begin front \/ atom_end last_atom <= it ->
         Window.line_and_column_at w it
         = Ret (Coord.sub (buffer_line_and_column_at (m_buffer w) it)
                          (m_position w)))
  /\ (forall front rest last_atom earlier atom later,
         m_display_buffer w = front :: rest ->
         back (m_display_buffer w) = Some last_atom ->
         atom_begin front <= it < atom_end last_atom ->
         m_display_buffer w = earlier ++ atom :: later ->
         (forall a, In a earlier -> atom_end a <= it) ->
         it < atom_end atom ->
         Window.line_and_column_at w it
         = if atom_begin atom <=? it
           then Ret (atom_line_and_column_at atom it)
           else Fail assert_failed)
  /\ (ranges_chained (m_display_buffer w) = true ->
      exists coord, Window.line_and_column_at w it = Ret coord).
Proof.
  split; [|split; [|split]].
  - unfold Window.line_and_column_at. now intros ->.
  - intros front rest last_atom. apply line_and_column_at_off_screen.
  - intros front rest last_atom earlier atom later Hd Hback Hin Hsplit
           Hearlier Hatom.
    unfold Window.line_and_column_at. rewrite Hback.
    rewrite Hd at 1.
    assert (Hrange : (atom_begin front <=? it) && (it <? atom_end last_atom)
                     = true).
    { apply andb_true_iff. split;
        [apply Nat.leb_le|apply Nat.ltb_lt]; lia. }
    rewrite Hrange, Hsplit.
    now rewrite (line_and_column_at_loop_first
                   earlier later atom it Hearlier Hatom).
  - intros Hchained. unfold Window.line_and_column_at.
    destruct (m_display_buffer w) as [|front rest] eqn:Hd; [eauto|].
    destruct (back (front :: rest)) as [last_atom|]; [|eauto].
    destruct ((atom_begin front <=? it) && (it <? atom_end last_atom))
      eqn:Hrange; [|eauto].
    destruct (Window.line_and_column_at_loop (front :: rest) it)
      as [found|] eqn:Hloop; [|eauto].
    apply andb_true_iff in Hrange. destruct Hrange as [Hbegin _].
    apply Nat.leb_le in Hbegin.
    now apply (line_and_column_at_loop_chained (front :: rest) it).
Qed.

(** X9.  Scrolling brings an off-screen cursor into view.  When the
    cursor lies outside the rendered range, at a buffer coordinate that
    is not negative, and the window has at least one line and one
    column, the scroll returns, the cursor then lies within the
    dimensions from the new position, and scrolling again changes
    nothing. *)
Theorem scroll_brings_cursor_into_view
        (w : Window) (sel : Selection) (front last_atom : DisplayAtom)
        (rest : DisplayBuffer) :
  back (m_selections w) = Some sel ->
  m_display_buffer w = front :: rest ->
  back (m_display_buffer w) = Some last_atom ->
  m_last sel < atom_begin front \/ atom_end last_atom <= m_last sel ->
  (1 <= line (m_dimensions w))%Z ->
  (1 <= column (m_dimensions w))%Z ->
  let cursor := buffer_line_and_column_at (m_buffer w) (m_last sel) in
  (0 <= line cursor)%Z ->
  (0 <= column cursor)%Z ->
  exists w',
    Window.scroll_to_keep_cursor_visible_ifn w = (Ret tt, w')
    /\ (0 <= line cursor - line (m_position w') < line (m_dimensions w))%Z
    /\ (0 <= column cursor - column (m_position w')
        < column (m_dimensions w))%Z
    /\ Window.line_and_column_at w' (m_last sel)
       = Ret (Coord.sub cursor (m_position w'))
    /\ Window.scroll_to_keep_cursor_visible_ifn w' = (Ret tt, w').
Proof.
  intros Hback Hd Hlast Hout Hlines Hcolumns cursor Hline Hcolumn.
  pose proof (line_and_column_at_off_screen
                w front last_atom rest (m_last sel) Hd Hlast Hout) as Hmap.
  fold cursor in Hmap.
  pose proof (scroll_runs w sel _ Hback Hmap) as Hrun.
  eexists. split; [exact Hrun|].
  set (w' := Window.set_position _ w) in *.
  assert (Hmap' : Window.line_and_column_at w' (m_last sel)
                  = Ret (Coord.sub cursor (m_position w'))).
  { apply (line_and_column_at_off_screen w' front last_atom rest);
      assumption. }
  assert (Hl : (0 <= line cursor - line (m_position w')
                < line (m_dimensions w))%Z).
  { subst w'. cbn [m_position Window.set_position line Coord.sub].
    destruct (Z.ltb_spec (line cursor - line (m_position w)) 0);
      [lia|].
    destruct (Z.leb_spec (line (m_dimensions w))
                         (line cursor - line (m_position w))); lia. }
  assert (Hc : (0 <= column cursor - column (m_position w')
                < column (m_dimensions w))%Z).
  { subst w'. cbn [m_position Window.set_position column Coord.sub].
    destruct (Z.ltb_spec (line cursor - line (m_position w)) 0);
      destruct (Z.leb_spec (line (m_dimensions w))
                           (line cursor - line (m_position w)));
      destruct (Z.ltb_spec (column cursor - column (m_position w)) 0);
      destruct (Z.leb_spec (column (m_dimensions w))
                           (column cursor - column (m_position w)));
      cbn [column]; lia. }
  split; [exact Hl|]. split; [exact Hc|]. split; [exact Hmap'|].
  rewrite (scroll_runs w' sel _ Hback Hmap').
  f_equal. cbn [Coord.sub line column].
  change (m_dimensions w') with (m_dimensions w).
  destruct (Z.ltb_spec (line cursor - line (m_position w')) 0); [lia|].
  destruct (Z.leb_spec (line (m_dimensions w))
                       (line cursor - line (m_position w'))); [lia|].
  destruct (Z.ltb_spec (column cursor - column (m_position w')) 0); [lia|].
  destruct (Z.leb_spec (column (m_dimensions w))
                       (column cursor - column (m_position w'))); [lia|].
  subst w'. destruct w as [b [pl pc] d sels db fs ins]. cbn.
  now destruct (m_position _).
Qed.

End ToDisplay.

(** An inner position of the second atom of [three_atoms]. *)
Lemma line_and_column_at_cases_witness :
  Window.line_and_column_at (buffer_queries := Plain.buffer_queries)
                            (atom_queries := Plain.atom_queries)
                            Plain.three_atoms 4
  = Ret (mkCoord 0 4)
  /\ exists coord,
      Window.line_and_column_at (buffer_queries := Plain.buffer_queries)
                                (atom_queries := Plain.atom_queries)
                                Plain.three_atoms 4 = Ret coord.
Proof.
  pose proof (@line_and_column_at_cases
                Plain.buffer_queries Plain.atom_queries
                Plain.three_atoms 4) as [_ [_ [Hinside Hchained]]].
  split.
  - apply (Hinside (mkAtom (mkCoord 0 0) 0 3)
                   [mkAtom (mkCoord 0 3) 3 6; mkAtom (mkCoord 0 6) 6 11]
                   (mkAtom (mkCoord 0 6) 6 11)
                   [mkAtom (mkCoord 0 0) 0 3]
                   (mkAtom (mkCoord 0 3) 3 6)
                   [mkAtom (mkCoord 0 6) 6 11]);
      try reflexivity; cbn; try lia.
    intros a [<-|[]]. cbn. lia.
  - apply Hchained. reflexivity.
Defined.

(** Scenario S6 again: the caret on line 10 ends on the last of the
    three visible lines. *)
Lemma scroll_brings_cursor_into_view_witness :
  exists w',
    Window.scroll_to_keep_cursor_visible_ifn
      (buffer_queries := Plain.buffer_queries)
      (atom_queries := Plain.atom_queries) Plain.scrolled_window
    = (Ret tt, w')
    /\ (0 <= 10 - line (m_position w') < 3)%Z
    /\ (0 <= 0 - column (m_position w') < 80)%Z
    /\ Window.line_and_column_at
         (buffer_queries := Plain.buffer_queries)
         (atom_queries := Plain.atom_queries) w' 20
       = Ret (Coord.sub (mkCoord 10 0) (m_position w'))
    /\ Window.scroll_to_keep_cursor_visible_ifn
         (buffer_queries := Plain.buffer_queries)
         (atom_queries := Plain.atom_queries) w'
       = (Ret tt, w').
Proof.
  apply (@scroll_brings_cursor_into_view
           Plain.buffer_queries Plain.atom_queries
           Plain.scrolled_window (Plain.caret 20)
           (mkAtom (mkCoord 0 0) 0 4) (mkAtom (mkCoord 0 0) 0 4) []);
    try reflexivity; cbn; lia.
Defined.

(** ** Rendering *)

Section Rendering.

Context {buffer_queries : BufferQueries}.
Context {atom_queries : DisplayAtomQueries}.
Context {display_check : DisplayBufferCheck}.

(** The filters run in the order of the list; each one is followed by
    the check of the invariant, and only the display buffer changes. *)
Lemma run_filters_spec (filters : list FilterAndId) (w w' : Window)
      (r : outcome unit) :
  Window.run_filters filters w = (r, w') ->
  (exists d, w' = Window.set_display_buffer d w)
  /\ r <> Fail undefined_behaviour
  /\ (r = Ret tt ->
      m_display_buffer w'
      = fold_left (fun d filter => snd filter d) filters (m_display_buffer w)
      /\ (filters <> [] ->
          display_buffer_check_invariant (m_display_buffer w') = true)).
Proof.
  revert w. induction filters as [|filter rest IH]; intros w.
  - cbn. intros [= <- <-]. split; [|split].
    + exists (m_display_buffer w). now destruct w.
    + discriminate.
    + intros _. split; [reflexivity|congruence].
  - cbn [Window.run_filters fold_left]. unfold bind at 1, modify at 1.
    unfold bind at 1, gets at 1.
    cbn [m_display_buffer Window.set_display_buffer].
    unfold bind at 1, assert at 1.
    destruct (display_buffer_check_invariant
                (snd filter (m_display_buffer w))) eqn:Hcheck.
    + unfold ret at 1. intros Hrest. apply IH in Hrest.
      destruct Hrest as [[d ->] [Hdefined Hreturned]].
      split; [now exists d|]. split; [assumption|].
      intros Hr. destruct (Hreturned Hr) as [Hfold Hchecked].
      cbn [m_display_buffer Window.set_display_buffer] in *.
      split; [exact Hfold|]. intros _.
      destruct rest as [|next rest]; [|apply Hchecked; discriminate].
      cbn [fold_left] in Hfold. now rewrite Hfold.
    + unfold fail. intros [= <- <-].
      split; [eauto|]. split; discriminate.
Qed.

(** X10.  [update_display_buffer] changes the display buffer only.  It
    leaves it empty when the window shows an empty range of the buffer;
    otherwise, when it returns, the display buffer is the one atom at
    (0,0) over that range passed through the filters in the order of
    their installation.  When the check asserted after every filter admits
    only display buffers that start at (0,0) with coordinates that never
    decrease, [iterator_at] is defined at every position afterwards. *)
Theorem update_display_buffer_renders (w : Window) :
  let b := m_buffer w in
  let first := buffer_iterator_at b (m_position w) in
  let last :=
    Buffer.plus b
      (buffer_iterator_at
         b (Coord.add (m_position w)
                      (mkCoord (line (m_dimensions w))
                               (column (m_dimensions w)))))
      1 in
  let r := fst (Window.update_display_buffer w) in
  let w' := snd (Window.update_display_buffer w) in
  w' = Window.set_display_buffer (m_display_buffer w') w
  /\ r <> Fail undefined_behaviour
  /\ (first = last -> r = Ret tt /\ m_display_buffer w' = [])
  /\ (first <> last -> r = Ret tt ->
      m_display_buffer w'
      = fold_left (fun d filter => snd filter d) (m_filters w)
                  [mkAtom (mkCoord 0 0) first last])
  /\ ((forall d, display_buffer_check_invariant d = true ->
                 display_buffer_invariant d = true) ->
      r = Ret tt ->
      display_buffer_invariant (m_display_buffer w') = true
      /\ forall window_pos,
           exists it, Window.iterator_at w' window_pos = Ret it).
Proof.
  intros b first last r w'.
  assert (Hcases :
    (first = last /\ r = Ret tt /\ w' = Window.set_display_buffer [] w)
    \/ (first <> last
        /\ Window.run_filters
             (m_filters w)
             (Window.set_display_buffer
                [mkAtom (mkCoord 0 0) first last] w) = (r, w'))).
  { assert (Hrun :
      Window.update_display_buffer w
      = if first =? last then (Ret tt, Window.set_display_buffer [] w)
        else Window.run_filters
               (m_filters w)
               (Window.set_display_buffer
                  [mkAtom (mkCoord 0 0) first last] w)).
    { unfold Window.update_display_buffer, bind, modify, gets, ret.
      cbn [m_buffer m_position m_dimensions m_filters
           Window.set_display_buffer].
      fold b. fold first. fold last.
      destruct (first =? last); [reflexivity|].
      now destruct (Window.run_filters _ _) as [[[]|e] w2]. }
    subst r w'. rewrite Hrun.
    destruct (Nat.eqb_spec first last) as [Heq|Hne].
    - left. repeat split; assumption.
    - right. split; [assumption|].
      now destruct (Window.run_filters _ _). }
  destruct Hcases as [(Heq & Hr & Hw)|(Hne & Hrun)].
  - rewrite Hw, Hr. cbn [m_display_buffer Window.set_display_buffer].
    split; [reflexivity|]. split; [discriminate|].
    split; [auto|]. split; [tauto|].
    intros _ _. split; [reflexivity|].
    intros window_pos. apply iterator_at_defined. reflexivity.
  - apply run_filters_spec in Hrun.
    destruct Hrun as [[d Hw] [Hdefined Hreturned]].
    cbn [m_display_buffer Window.set_display_buffer] in Hreturned.
    split; [rewrite Hw; reflexivity|]. split; [assumption|].
    split; [tauto|]. split.
    + intros _ Hr. now destruct (Hreturned Hr).
    + intros Hcheck Hr. destruct (Hreturned Hr) as [Hfold Hchecked].
      assert (Hinv : display_buffer_invariant (m_display_buffer w') = true).
      { destruct (m_filters w) as [|filter rest].
        - rewrite Hfold. reflexivity.
        - apply Hcheck. apply Hchecked. discriminate. }
      split; [assumption|].
      intros window_pos. now apply iterator_at_defined.
Qed.

End Rendering.

(** Rendering [hello world] through the three default filters. *)
Lemma update_display_buffer_renders_witness :
  let rendered :=
    Window.update_display_buffer
      (buffer_queries := Plain.buffer_queries)
      (display_check := Plain.display_check) Plain.default_filters in
  fst rendered = Ret tt
  /\ m_display_buffer (snd rendered) = [mkAtom (mkCoord 0 0) 0 12]
  /\ display_buffer_invariant (m_display_buffer (snd rendered)) = true
  /\ forall window_pos,
       exists it,
         Window.iterator_at (buffer_queries := Plain.buffer_queries)
                            (atom_queries := Plain.atom_queries)
                            (snd rendered) window_pos = Ret it.
Proof.
  split; [reflexivity|]. split; [reflexivity|].
  apply (proj2 (proj2 (proj2 (proj2
    (@update_display_buffer_renders
       Plain.buffer_queries Plain.atom_queries Plain.display_check
       Plain.default_filters))))).
  - intros d Hd. exact Hd.
  - reflexivity.
Defined.


(** ** Insertion sessions *)

Section Sessions.

Context {buffer_queries : BufferQueries}.
Context {atom_queries : DisplayAtomQueries}.

(** What the destructor has done when it returns. *)
Lemma destroy_steps (this : nat) (w w' : Window) :
  IncrementalInserter.destroy this w = (Ret tt, w') ->
  m_current_inserter w = Some this
  /\ exists l,
      w' = Window.set_buffer
             (Buffer.end_undo_group (m_buffer w))
             (Window.set_current_inserter None (Window.set_selections l w)).
Proof.
  unfold IncrementalInserter.destroy. intros H.
  apply bind_inv in H.
  destruct H as [([] & w1 & Hmove & H)|(e & _ & [=])].
  apply move_cursor_spec in Hmove. destruct Hmove as [[l ->] _].
  apply bind_inv in H.
  destruct H as [(current & w1 & H1 & H)|(e & _ & [=])].
  injection H1 as <- <-.
  apply bind_inv in H.
  destruct H as [([] & w1 & H1 & H)|(e & _ & [=])].
  pose proof (assert_state _ _ _ _ H1) as ->.
  cbn [m_current_inserter Window.set_selections] in H1.
  unfold assert, ret, fail in H1.
  destruct (m_current_inserter w) as [registered|] eqn:Hreg;
    [|discriminate H1].
  destruct (Nat.eqb_spec registered this) as [->|Hne];
    [|discriminate H1].
  split; [reflexivity|]. exists l.
  unfold bind, modify, Window.on_buffer in H. unfold modify in H.
  now injection H as <-.
Qed.

(** A loop that rewrites every selection by a function of it. *)
Lemma for_each_map (f : Selection -> Selection) (w : Window) :
  Window.for_each_selection (fun sel => ret (f sel)) w
  = (Ret tt, Window.set_selections (map f (m_selections w)) w).
Proof.
  unfold Window.for_each_selection. unfold bind at 1, gets at 1.
  destruct (for_each_returns
              (fun w1 => exists l, w1 = Window.set_selections l w)
              (fun sel sel' => sel' = f sel)
              (fun sel => ret (f sel))) with
    (Q := fun _ : Selection => True) (todo := m_selections w)
    (done := @nil Selection) (w := w) as [w' Hrun].
  - intros l w1 [l1 ->]. now exists l.
  - intros sel w1 r w2 Hinv [= <- <-].
    split; [reflexivity|]. split; [exact Hinv|]. now intros sel' [= <-].
  - intros sel w1 _ _. now exists (f sel), w1.
  - exists (m_selections w). now destruct w.
  - reflexivity.
  - apply Forall_forall. auto.
  - cbn [List.length] in Hrun. rewrite Hrun. f_equal.
    apply (for_each_spec
             (fun w1 => exists l, w1 = Window.set_selections l w)
             (fun sel sel' => sel' = f sel))
      with (todo := m_selections w) (done := []) in Hrun.
    + destruct Hrun as [[l ->] (k & news & _ & Hall & Hnew & Hk)].
      specialize (Hk eq_refl). subst k.
      rewrite firstn_all in Hall. rewrite skipn_all, app_nil_r in Hnew.
      cbn [app m_selections Window.set_selections] in Hnew. subst l.
      f_equal. clear - Hall.
      induction Hall as [|sel sel' l l' -> _ IH]; [reflexivity|].
      cbn [map]. now rewrite IH.
    + intros l w1 [l1 ->]. now exists l.
    + intros sel w1 r w2 Hinv [= <- <-].
      split; [reflexivity|]. split; [exact Hinv|]. now intros sel' [= <-].
    + exists (m_selections w). now destruct w.
    + reflexivity.
Qed.

(** [IncrementalInserter::erase], step by step. *)
Lemma inserter_erase_steps (w w' : Window) (r : outcome unit) :
  IncrementalInserter.erase w = (r, w') ->
  let stepped :=
    Window.set_selections
      (map (fun sel => Selection.make (Buffer.minus (m_first sel) 1)
                                      (Buffer.minus (m_last sel) 1))
           (m_selections w)) w in
  exists r1 w1,
    Window.erase_noundo stepped = (r1, w1)
    /\ m_buffer w' = m_buffer w1
    /\ m_selections w' = m_selections w1
    /\ edited w1 w'
    /\ r <> Fail undefined_behaviour.
Proof.
  intros H stepped. unfold IncrementalInserter.erase in H.
  unfold bind at 1 in H. rewrite for_each_map in H. fold stepped in H.
  apply bind_inv in H.
  destruct H as [([] & w1 & H1 & H)|(e & H1 & ->)].
  - exists (Ret tt), w1. split; [exact H1|].
    apply scroll_edited in H. destruct H as (He & Hb & Hs & Hdefined).
    auto.
  - exists (Fail e), w'. split; [exact H1|].
    split; [reflexivity|]. split; [reflexivity|].
    split; [apply edited_refl|].
    now destruct (erase_noundo_spec _ _ _ H1).
Qed.

(** A call on the inserter keeps it registered and mutates the buffer
    only. *)
Lemma press_extends (key : IncrementalInserter.Key) (w w' : Window)
      (r : outcome unit) :
  IncrementalInserter.press key w = (r, w') ->
  m_current_inserter w' = m_current_inserter w
  /\ exists calls, Buffer.extends_by calls (m_buffer w) (m_buffer w').
Proof.
  destruct key as [s|index| |offset]; cbn [IncrementalInserter.press].
  - unfold IncrementalInserter.insert. intros H.
    destruct (insert_noundo_spec _ _ _ _ H)
      as (_ & (_ & _ & Hi & _) & calls & Hext & _).
    split; [exact Hi|eauto].
  - unfold IncrementalInserter.insert_capture. intros H.
    destruct (each_selection_calls _ _ w (capture_body_one_call index))
      as (w1 & calls & Hrun & (_ & _ & Hi & _) & _ & Hext & _).
    unfold bind at 1 in H. rewrite Hrun in H.
    apply scroll_edited in H.
    destruct H as ((_ & _ & Hi' & _) & Hb & _).
    split; [congruence|]. exists calls. now rewrite Hb.
  - intros H.
    destruct (inserter_erase_steps _ _ _ H)
      as (r1 & w1 & H1 & Hb & _ & (_ & _ & Hi & _) & _).
    destruct (erase_noundo_spec _ _ _ H1)
      as (_ & (_ & _ & Hi1 & _) & calls & Hext & _).
    cbn [m_current_inserter m_buffer Window.set_selections] in Hi1, Hext.
    split; [congruence|]. exists calls. now rewrite Hb.
  - intros H. apply move_cursor_spec in H. destruct H as [[l ->] _].
    split; [reflexivity|]. exists []. apply extends_by_nil.
Qed.

Lemma press_all_extends (keys : list IncrementalInserter.Key)
      (w w' : Window) (r : outcome unit) :
  IncrementalInserter.press_all keys w = (r, w') ->
  m_current_inserter w' = m_current_inserter w
  /\ exists calls, Buffer.extends_by calls (m_buffer w) (m_buffer w').
Proof.
  revert w. induction keys as [|key keys IH]; intros w.
  - cbn. intros [= _ <-]. split; [reflexivity|].
    exists []. apply extends_by_nil.
  - cbn [IncrementalInserter.press_all]. intros H. apply bind_inv in H.
    destruct H as [([] & w1 & H1 & H)|(e & H1 & _)].
    + destruct (press_extends _ _ _ _ H1) as [Hi [c1 He1]].
      destruct (IH _ H) as [Hi2 [c2 He2]].
      split; [congruence|]. exists (c1 ++ c2).
      exact (extends_by_app _ _ _ _ _ He1 He2).
    + exact (press_extends _ _ _ _ H1).
Qed.

(** The loop of the constructor in the modes that open no line:
    the buffer is left alone, and every caret is where its mode puts
    it. *)
Lemma place_carets (mode : Mode) (w0 w' : Window) :
  mode <> OpenLineBelow -> mode <> OpenLineAbove ->
  Window.for_each
    (fun sel =>
       pos <- IncrementalInserter.position_for mode sel ;;
       ret (mkSelection pos pos (m_captures sel)))%monad
    0 (List.length (m_selections w0)) w0 = (Ret tt, w') ->
  m_buffer w' = m_buffer w0
  /\ Forall2 (placed mode (m_buffer w0)) (m_selections w0) (m_selections w').
Proof.
  intros Hbelow Habove Hloop.
  set (b := m_buffer w0).
  apply (for_each_spec (fun w1 => m_buffer w1 = b) (placed mode b))
    with (todo := m_selections w0) (done := []) in Hloop.
  - destruct Hloop as [Hbuf (k & news & _ & Hall & Hnew & Hk)].
    specialize (Hk eq_refl). subst k.
    rewrite firstn_all in Hall. rewrite skipn_all, app_nil_r in Hnew.
    split; [exact Hbuf|]. now rewrite Hnew.
  - intros l w1 Hbuf. exact Hbuf.
  - intros sel w1 r1 w2 Hbuf Hbody.
    apply bind_inv in Hbody.
    destruct Hbody as [(pos & w3 & Hpos & Hbody)|(e & Hpos & ->)];
      pose proof (position_for_spec _ _ _ _ _ Hpos) as (_ & _ & _ & _ & Hq).
    + injection Hbody as <- <-.
      assert (w3 = w1) as -> by (destruct mode; auto; congruence).
      split; [reflexivity|]. split; [exact Hbuf|].
      intros sel' [= <-]. unfold placed. cbn [m_first m_last m_captures].
      split; [reflexivity|]. split; [reflexivity|].
      destruct mode; try exact I; try congruence;
        unfold IncrementalInserter.position_for in Hpos; run;
        rewrite ?Hbuf in Hpos.
      * now injection Hpos as <-.
      * now injection Hpos as <-.
      * now injection Hpos as <-.
      * destruct (IncrementalInserter.advance_to_newline
                    (Buffer.length b) b
                    (Buffer.minus (Selection.end_ b sel) 1))
          as [stop|e] eqn:Hrun; [|discriminate Hpos].
        injection Hpos as <-.
        destruct (advance_to_newline_returned _ _ _ _ Hrun)
          as ([Hle _] & Hstop & Hnone).
        split; [exact Hle|]. split; assumption.
      * destruct (IncrementalInserter.retreat_to_newline
                    (Selection.begin sel) b (Selection.begin sel))
          as [stop|e] eqn:Hrun; [|discriminate Hpos].
        injection Hpos as <-.
        destruct (retreat_to_newline_returned _ _ _ _ Hrun)
          as (Hle & Hstop & Hnone).
        exists stop. repeat split; assumption.
    + assert (w2 = w1) as -> by (destruct mode; auto; congruence).
      split; [reflexivity|]. split; [exact Hbuf|discriminate].
  - reflexivity.
  - reflexivity.
Qed.

(** A list of carets is what the [Insert] and [Change] modes make of
    it. *)
Lemma placed_carets (b : Buffer) (sels sels' : list Selection) :
  Forall (fun sel => m_first sel = m_last sel) sels ->
  Forall2 (placed Change b) sels sels' ->
  sels' = sels.
Proof.
  intros Hcarets Hall.
  induction Hall as [|sel sel' l l' (H1 & H2 & H3) _ IH]; [reflexivity|].
  inversion Hcarets as [|? ? Hsel Hrest]; subst.
  rewrite IH by assumption. f_equal.
  destruct sel as [f l0 c], sel' as [f' l0' c'].
  unfold Selection.begin in H3.
  cbn [m_first m_last m_captures] in H1, H2, H3, Hsel.
  assert (l0' = l0) by lia. assert (f' = f) by lia. congruence.
Qed.

Lemma collapsed_carets (erased : nat) (sels : list Selection) :
  Forall (fun sel => m_first sel = m_last sel) (collapsed erased sels).
Proof.
  revert erased. induction sels as [|sel sels IH]; intros erased;
    cbn [collapsed]; constructor; [reflexivity|apply IH].
Qed.

End Sessions.

(** X11. At most one inserter is active on a window.  When the
    constructor returns, no inserter was registered before and this one
    is now; constructing another one then fails on the first assertion
    and leaves the window as it is; destroying an inserter other than
    the registered one does not return; and when the destructor of the
    registered one returns no inserter is registered any more. *)
Theorem inserter_is_exclusive
        {buffer_queries : BufferQueries} {atom_queries : DisplayAtomQueries}
        (this other : nat) (mode mode' : Mode) (w w1 : Window) :
  IncrementalInserter.construct this mode w = (Ret tt, w1) ->
  m_current_inserter w = None
  /\ m_current_inserter w1 = Some this
  /\ IncrementalInserter.construct other mode' w1 = (Fail assert_failed, w1)
  /\ (other <> this ->
      fst (IncrementalInserter.destroy other w1) <> Ret tt)
  /\ (forall w2,
        IncrementalInserter.destroy this w1 = (Ret tt, w2) ->
        m_current_inserter w2 = None).
Proof.
  intros H.
  destruct (construct_steps _ _ _ _ H) as (Hnone & Hcur1 & _).
  split; [exact Hnone|]. split; [exact Hcur1|]. split; [|split].
  - unfold IncrementalInserter.construct.
    unfold bind at 1, gets at 1. rewrite Hcur1. reflexivity.
  - intros Hne.
    destruct (IncrementalInserter.destroy other w1) as [r w2] eqn:Hd.
    cbn [fst]. intros ->.
    destruct (destroy_steps _ _ _ Hd) as [Hreg _]. congruence.
  - intros w2 Hd. destruct (destroy_steps _ _ _ Hd) as [_ [l ->]].
    reflexivity.
Qed.

Lemma inserter_is_exclusive_witness :
  exists w1,
    IncrementalInserter.construct
      (buffer_queries := Plain.buffer_queries)
      (atom_queries := Plain.atom_queries) 1 Insert Plain.two_lines
    = (Ret tt, w1)
    /\ m_current_inserter w1 = Some 1
    /\ IncrementalInserter.construct
         (buffer_queries := Plain.buffer_queries)
         (atom_queries := Plain.atom_queries) 2 Append w1
       = (Fail assert_failed, w1).
Proof.
  eexists. split; [vm_compute; reflexivity|].
  refine (let H := inserter_is_exclusive
                     (buffer_queries := Plain.buffer_queries)
                     (atom_queries := Plain.atom_queries)
                     1 2 Insert Append Plain.two_lines _ eq_refl in _).
  split; [exact (proj1 (proj2 H))|exact (proj1 (proj2 (proj2 H)))].
Defined.

(** X12. A whole life of an inserter is one undo step, whatever is
    typed.  When a session (construction in any mode, any sequence of
    [insert], [insert_capture], [erase] and [move_cursor] calls,
    destruction) returns, the buffer has received [begin_undo_group],
    then mutations only, then [end_undo_group]; no group is left open;
    and when none was open before, the history has grown by exactly one
    step and one [undo] gives the text and the history of before the
    session back. *)
Theorem inserter_session_one_undo_step
        {buffer_queries : BufferQueries} {atom_queries : DisplayAtomQueries}
        (this : nat) (mode : Mode)
        (keys : list IncrementalInserter.Key) (w w' : Window) :
  IncrementalInserter.session this mode keys w = (Ret tt, w') ->
  let b := m_buffer w in
  let b' := m_buffer w' in
  m_current_inserter w = None
  /\ m_current_inserter w' = None
  /\ exists mutations,
      m_calls b'
      = m_calls b ++ CallBeginUndoGroup :: mutations ++ [CallEndUndoGroup]
      /\ forallb Buffer.is_mutation mutations = true
      /\ m_current_undo_group b' = []
      /\ (m_current_undo_group b = [] ->
          (exists group, m_history b' = group :: m_history b)
          /\ fst (Buffer.undo b') = true
          /\ m_content (snd (Buffer.undo b')) = m_content b
          /\ m_history (snd (Buffer.undo b')) = m_history b).
Proof.
  intros H b b'. subst b b'. unfold IncrementalInserter.session in H.
  apply bind_inv in H.
  destruct H as [([] & w1 & Hc & H)|(e & _ & [=])].
  apply bind_inv in H.
  destruct H as [([] & w2 & Hk & Hd)|(e & _ & [=])].
  destruct (construct_steps _ _ _ _ Hc) as (Hnone & _ & _ & _ & [c1 Hext1] & _).
  destruct (press_all_extends _ _ _ _ Hk) as [Hcur2 [c2 Hext2]].
  destruct (destroy_steps _ _ _ Hd) as [_ [l ->]].
  split; [exact Hnone|]. split; [reflexivity|].
  cbn [m_buffer Window.set_buffer].
  exists (c1 ++ c2).
  destruct (end_undo_group_commits
              _ _ _ (extends_by_app _ _ _ _ _ Hext1 Hext2))
    as (Ha & Hb & Hc' & _ & Hd').
  split; [exact Ha|]. split; [exact Hb|]. split; [exact Hc'|exact Hd'].
Qed.

Lemma inserter_session_one_undo_step_witness :
  fst (Buffer.undo
         (m_buffer
            (snd (IncrementalInserter.session
                    (buffer_queries := Plain.buffer_queries)
                    (atom_queries := Plain.atom_queries)
                    1 OpenLineBelow
                    [IncrementalInserter.KeyInsert (text "xy");
                     IncrementalInserter.KeyErase]
                    Plain.two_lines))))
  = true
  /\ m_content
       (snd (Buffer.undo
               (m_buffer
                  (snd (IncrementalInserter.session
                          (buffer_queries := Plain.buffer_queries)
                          (atom_queries := Plain.atom_queries)
                          1 OpenLineBelow
                          [IncrementalInserter.KeyInsert (text "xy");
                           IncrementalInserter.KeyErase]
                          Plain.two_lines)))))
     = Plain.abc_def.
Proof.
  assert (H : IncrementalInserter.session
                (buffer_queries := Plain.buffer_queries)
                (atom_queries := Plain.atom_queries)
                1 OpenLineBelow
                [IncrementalInserter.KeyInsert (text "xy");
                 IncrementalInserter.KeyErase]
                Plain.two_lines
              = (Ret tt,
                 snd (IncrementalInserter.session
                        (buffer_queries := Plain.buffer_queries)
                        (atom_queries := Plain.atom_queries)
                        1 OpenLineBelow
                        [IncrementalInserter.KeyInsert (text "xy");
                         IncrementalInserter.KeyErase]
                        Plain.two_lines)))
    by (vm_compute; reflexivity).
  destruct (inserter_session_one_undo_step _ _ _ _ _ H)
    as (_ & _ & mutations & _ & _ & _ & Hundo).
  destruct (Hundo eq_refl) as (_ & Hu & Hc & _).
  split; [exact Hu|exact Hc].
Defined.

(** X13. Where the constructor puts the carets.  When it returns in one
    of the modes that open no line, every selection has become a caret
    with the captures it had, placed on the selections and the text as
    they are once [Change] mode has erased what was selected, and as
    they were given in the other modes: at the beginning of the
    selection in [Insert] and [Change] mode; at its end in [Append]
    mode; in [AppendAtLineEnd] mode at the first newline at or after
    the last selected character, or at the end of the buffer when there
    is none; in [InsertAtLineBegin] mode one step after the last newline
    at or before the beginning of the selection, or one step after the
    beginning of the buffer when there is none.  Except in [Change] mode
    the text is the one of before and the buffer has received
    [begin_undo_group] and nothing else.  In [Change] mode, for
    selections that follow one another without overlap, the text has
    lost what was selected and every caret is where its selection
    began, moved back by what was erased before it. *)
Theorem construct_places_carets
        {buffer_queries : BufferQueries} {atom_queries : DisplayAtomQueries}
        (this : nat) (mode : Mode) (w w' : Window) :
  IncrementalInserter.construct this mode w = (Ret tt, w') ->
  mode <> OpenLineBelow -> mode <> OpenLineAbove ->
  let b := m_buffer w in
  let begun := Window.set_buffer
                 (Buffer.begin_undo_group b)
                 (Window.set_current_inserter (Some this) w) in
  exists w0,
    match mode with
    | Change => Window.erase_noundo begun = (Ret tt, w0)
    | _ => w0 = begun
    end
    /\ m_buffer w' = m_buffer w0
    /\ Forall2 (placed mode (m_buffer w0))
               (m_selections w0) (m_selections w')
    /\ (mode = Change ->
        apart (m_selections w) (Buffer.length b) ->
        m_content (m_buffer w')
        = spliced [] true (m_selections w) (m_content b)
        /\ m_selections w' = collapsed 0 (m_selections w)).
Proof.
  intros H Hbelow Habove b begun.
  destruct (construct_prefix _ _ _ _ _ H)
    as [(_ & [=] & _)
       |[(_ & _ & [=] & _)
        |(_ & _ & r0 & w0 & Hbefore & Hloop)]].
  fold b in Hbefore. fold begun in Hbefore.
  assert (Hr0 : r0 = Ret tt).
  { destruct mode; try (now destruct Hbefore).
    destruct r0 as [[]|e]; [reflexivity|now destruct Hloop]. }
  subst r0. exists w0.
  destruct (place_carets _ _ _ Hbelow Habove Hloop) as [Hbuf Hall].
  split; [destruct mode; try (now destruct Hbefore); exact Hbefore|].
  split; [exact Hbuf|]. split; [exact Hall|].
  intros -> Hapart.
  destruct (erase_noundo_text _ _ _ Hbefore Hapart) as [Htext Hsels].
  change (m_selections begun) with (m_selections w) in Htext, Hsels.
  rewrite Hbuf. split; [exact Htext|].
  rewrite Hsels in Hall.
  apply (placed_carets (m_buffer w0)); [apply collapsed_carets|exact Hall].
Qed.

(** Changing two words of "ab cd", and appending at the end of the
    first line of scenario S4. *)
Lemma construct_places_carets_witness :
  (let w := Plain.window (Plain.buffer_of "ab cd")
                         [Selection.make 0 1; Selection.make 4 3] in
   let w' := snd (IncrementalInserter.construct
                    (buffer_queries := Plain.buffer_queries)
                    (atom_queries := Plain.atom_queries) 1 Change w) in
   m_content (m_buffer w') = text " "
   /\ m_selections w' = [Plain.caret 0; Plain.caret 1])
  /\ IncrementalInserter.construct
       (buffer_queries := Plain.buffer_queries)
       (atom_queries := Plain.atom_queries)
       1 AppendAtLineEnd Plain.two_lines
     = (Ret tt,
        Window.set_current_inserter
          (Some 1)
          (Plain.window (Buffer.begin_undo_group
                           (Plain.buffer_of_text Plain.abc_def))
                        [Plain.caret 3])).
Proof.
  split; [|reflexivity].
  intros w w'.
  destruct (construct_places_carets
              (buffer_queries := Plain.buffer_queries)
              (atom_queries := Plain.atom_queries)
              1 Change w w' eq_refl)
    as (w0 & _ & _ & _ & Hchange); [discriminate|discriminate|].
  apply (Hchange eq_refl). vm_compute. lia.
Defined.

(** ** Typing *)

Section Typing.

Context {buffer_queries : BufferQueries}.
Context {atom_queries : DisplayAtomQueries}.

Lemma scroll_selections (w : Window) :
  m_selections (snd (Window.scroll_to_keep_cursor_visible_ifn w))
  = m_selections w.
Proof.
  destruct (Window.scroll_to_keep_cursor_visible_ifn w) as [r w'] eqn:H.
  apply scroll_frame in H. destruct H as [[p ->] _]. reflexivity.
Qed.



(** A loop over the selections whose body leaves the list alone
    rewrites its elements and keeps their number, also when it stops
    early. *)
Lemma for_each_length (body : Selection -> Window.WM Selection)
      (w w' : Window) (r : outcome unit) :
  (forall sel w1 r1 w2,
      body sel w1 = (r1, w2) -> m_selections w2 = m_selections w1) ->
  Window.for_each_selection body w = (r, w') ->
  List.length (m_selections w') = List.length (m_selections w).
Proof.
  intros Hbody H. unfold Window.for_each_selection in H.
  unfold bind at 1, gets at 1 in H.
  apply (for_each_spec (fun _ => True) (fun _ _ => True))
    with (todo := m_selections w) (done := []) in H.
  - destruct H as [_ (k & news & Hk & Hall & Hnew & _)].
    rewrite Hnew. cbn [app]. rewrite length_app, length_skipn.
    rewrite <- (Forall2_length Hall), length_firstn. lia.
  - auto.
  - intros sel w1 r1 w2 _ H1. split; [exact (Hbody _ _ _ _ H1)|].
    split; [exact I|]. intros; exact I.
  - exact I.
  - reflexivity.
Qed.

Lemma move_cursor_body_selections (offset : DisplayCoord) (sel : Selection)
      (w1 w2 : Window) (r : outcome Selection) :
  (pos <- query (fun w => Window.line_and_column_at w (m_last sel)) ;;
   it <- query (fun w => Window.iterator_at w (Coord.add pos offset)) ;;
   ret (Selection.make it it))%monad w1 = (r, w2) ->
  m_selections w2 = m_selections w1.
Proof.
  intros H.
  assert (Hw : exists l, w1 = Window.set_selections l w1)
    by (exists (m_selections w1); now destruct w1).
  now destruct (move_cursor_body_spec offset w1 sel w1 w2 r Hw H) as [Hs _].
Qed.

Lemma destroy_length (this : nat) (w : Window) :
  List.length (m_selections (snd (IncrementalInserter.destroy this w)))
  = List.length (m_selections w).
Proof.
  destruct (IncrementalInserter.destroy this w) as [r w'] eqn:H.
  cbn [snd]. unfold IncrementalInserter.destroy in H.
  apply bind_inv in H.
  destruct H as [([] & w1 & Hmove & H)|(e & Hmove & _)].
  - apply for_each_length in Hmove;
      [|intros sel wa ra wb; apply move_cursor_body_selections].
    rewrite <- Hmove.
    apply bind_inv in H.
    destruct H as [(current & w2 & H1 & H)|(e & H1 & _)];
      [|discriminate H1].
    injection H1 as <- <-.
    apply bind_inv in H.
    destruct H as [([] & w2 & H1 & H)|(e & H1 & _)].
    + apply assert_state in H1. subst w2.
      unfold bind, modify, Window.on_buffer in H. unfold modify in H.
      injection H as _ <-. reflexivity.
    + apply assert_state in H1. now subst.
  - apply for_each_length in Hmove;
      [|intros sel wa ra wb; apply move_cursor_body_selections].
    exact Hmove.
Qed.

End Typing.

(** X14. [IncrementalInserter::erase] is a backspace.  The call never
    runs into undefined behaviour and in every outcome the selections
    have lost their captures.  Each selection is first moved one
    character back, both ends; when the selections so moved follow one
    another without overlap, the text loses what they cover and each is
    left a caret where its text was, moved back by what was erased
    before it.  For a single caret at [p], neither at the beginning of
    the buffer nor past its end, the text has lost the character before
    [p] and nothing else, and the caret is at [p - 1]. *)
Theorem inserter_erase_is_backspace
        {buffer_queries : BufferQueries} {atom_queries : DisplayAtomQueries}
        (w w' : Window) (r : outcome unit) :
  IncrementalInserter.erase w = (r, w') ->
  let stepped :=
    map (fun sel => Selection.make (Buffer.minus (m_first sel) 1)
                                   (Buffer.minus (m_last sel) 1))
        (m_selections w) in
  r <> Fail undefined_behaviour
  /\ map m_captures (m_selections w') = map (fun _ => []) (m_selections w)
  /\ (apart stepped (Buffer.length (m_buffer w)) ->
      m_content (m_buffer w')
      = spliced [] true stepped (m_content (m_buffer w))
      /\ m_selections w' = collapsed 0 stepped)
  /\ (forall p captures,
        m_selections w = [mkSelection p p captures] ->
        0 < p <= Buffer.length (m_buffer w) ->
        m_content (m_buffer w')
        = firstn (p - 1) (m_content (m_buffer w))
          ++ skipn p (m_content (m_buffer w))
        /\ m_selections w' = [Selection.make (p - 1) (p - 1)]).
Proof.
  intros H stepped.
  destruct (inserter_erase_steps _ _ _ H)
    as (r1 & w1 & H1 & Hb & Hs & _ & Hdefined).
  destruct (erase_noundo_spec _ _ _ H1) as (_ & (_ & _ & _ & Hc & _) & _).
  cbn [m_selections Window.set_selections] in Hc. fold stepped in Hc.
  assert (Hapart : apart stepped (Buffer.length (m_buffer w)) ->
            m_content (m_buffer w')
            = spliced [] true stepped (m_content (m_buffer w))
            /\ m_selections w' = collapsed 0 stepped).
  { intros Ha. rewrite Hb, Hs.
    exact (erase_noundo_text _ _ _ H1 Ha). }
  split; [exact Hdefined|]. split; [|split; [exact Hapart|]].
  - rewrite Hs, Hc. unfold stepped. rewrite map_map. reflexivity.
  - intros p captures Hsel Hp.
    assert (Hstepped : stepped = [Selection.make (p - 1) (p - 1)])
      by (unfold stepped; rewrite Hsel; reflexivity).
    rewrite Hstepped in Hapart.
    destruct Hapart as [Htext Hsels].
    { unfold apart, upto, Selection.begin. cbn. lia. }
    rewrite Htext, Hsels.
    unfold spliced, splice, upto, Selection.make.
    cbn [fold_right collapsed m_captures app].
    rewrite begin_caret. cbn [m_first m_last].
    rewrite Nat.max_id, Nat.sub_0_r.
    replace (S (p - 1)) with p by lia. split; reflexivity.
Qed.

(** Backspace in "hello" with the caret before the first l, and with
    carets before the first l and before the o. *)
Lemma inserter_erase_is_backspace_witness :
  (let w' := snd (IncrementalInserter.erase
                    (buffer_queries := Plain.buffer_queries)
                    (atom_queries := Plain.atom_queries)
                    (Plain.window (Plain.buffer_of "hello")
                                  [mkSelection 2 2 [text "x"]])) in
   m_content (m_buffer w') = text "hllo"
   /\ m_selections w' = [Plain.caret 1])
  /\ (let w' := snd (IncrementalInserter.erase
                       (buffer_queries := Plain.buffer_queries)
                       (atom_queries := Plain.atom_queries)
                       (Plain.window (Plain.buffer_of "hello")
                                     [Plain.caret 2; Plain.caret 4])) in
      m_content (m_buffer w') = text "hlo"
      /\ m_selections w' = [Plain.caret 1; Plain.caret 2]).
Proof.
  split.
  - intros w'.
    pose proof (inserter_erase_is_backspace
                  (buffer_queries := Plain.buffer_queries)
                  (atom_queries := Plain.atom_queries)
                  (Plain.window (Plain.buffer_of "hello")
                                [mkSelection 2 2 [text "x"]])
                  _ _ (surjective_pairing _)) as (_ & _ & _ & Hone).
    apply (Hone 2 [text "x"]); [reflexivity|].
    unfold Buffer.length. cbn. lia.
  - intros w'.
    pose proof (inserter_erase_is_backspace
                  (buffer_queries := Plain.buffer_queries)
                  (atom_queries := Plain.atom_queries)
                  (Plain.window (Plain.buffer_of "hello")
                                [Plain.caret 2; Plain.caret 4])
                  _ _ (surjective_pairing _)) as (_ & _ & Hall & _).
    apply Hall. vm_compute. lia.
Defined.



(** X16. The selections follow the text.  For selections that follow
    one another without overlap, [insert(s)] and the inserter's
    [insert(s)] put [s] before the first character of every selection
    and leave every selection on the text it covered, moved forward by
    what was inserted before it and for it; [erase()] takes the text of
    every selection out and leaves every selection a caret where its
    text was, moved back by what was erased before it. *)
Theorem selections_follow_edits
        {buffer_queries : BufferQueries} {atom_queries : DisplayAtomQueries}
        (s : BufferString) (w : Window) :
  apart (m_selections w) (Buffer.length (m_buffer w)) ->
  let sels := m_selections w in
  let c := m_content (m_buffer w) in
  (let w' := snd (Window.insert s w) in
   m_content (m_buffer w') = spliced s false sels c
   /\ m_selections w' = pushed (List.length s) 0 sels)
  /\ (let w' := snd (IncrementalInserter.insert s w) in
      m_content (m_buffer w') = spliced s false sels c
      /\ m_selections w' = pushed (List.length s) 0 sels)
  /\ (let w' := snd (Window.erase w) in
      m_content (m_buffer w') = spliced [] true sels c
      /\ m_selections w' = collapsed 0 sels).
Proof.
  intros Hapart sels c.
  set (begun := Window.set_buffer (Buffer.begin_undo_group (m_buffer w)) w).
  split; [|split].
  - intros w'. subst w'. unfold Window.insert.
    destruct (Window.insert_noundo s begun) as [r w2] eqn:Hrun.
    destruct (insert_noundo_spec _ _ _ _ Hrun) as [Hdefined _].
    rewrite (scoped_undo_group_closes _ _ _ _ Hrun Hdefined).
    cbn [snd m_buffer m_selections Window.set_buffer].
    split.
    + exact (insert_noundo_text _ _ _ _ Hrun (apart_spaced _ _ _ Hapart)).
    + exact (insert_noundo_selections _ _ _ _ Hrun Hapart).
  - intros w'. subst w'. unfold IncrementalInserter.insert.
    destruct (Window.insert_noundo s w) as [r w2] eqn:Hrun.
    cbn [snd]. split.
    + exact (insert_noundo_text _ _ _ _ Hrun (apart_spaced _ _ _ Hapart)).
    + exact (insert_noundo_selections _ _ _ _ Hrun Hapart).
  - intros w'. subst w'. unfold Window.erase.
    destruct (Window.erase_noundo begun) as [r w2] eqn:Hrun.
    destruct (erase_noundo_spec _ _ _ Hrun) as [Hdefined _].
    rewrite (scoped_undo_group_closes _ _ _ _ Hrun Hdefined).
    cbn [snd m_buffer m_selections Window.set_buffer].
    exact (erase_noundo_text _ _ _ Hrun Hapart).
Qed.

(** Scenario S2: "X" inserted at the carets at the start of the two
    lines of "ab\ncd". *)
Lemma selections_follow_edits_witness :
  let w := Plain.window
             (Plain.buffer_of_text (text "ab" ++ [newline] ++ text "cd"))
             [Plain.caret 0; Plain.caret 3] in
  let w' := snd (Window.insert (buffer_queries := Plain.buffer_queries)
                               (atom_queries := Plain.atom_queries)
                               (text "X") w) in
  m_content (m_buffer w')
  = text "Xab" ++ [newline] ++ text "Xcd"
  /\ m_selections w' = [Plain.caret 1; Plain.caret 5].
Proof.
  intros w w'.
  apply (selections_follow_edits
           (buffer_queries := Plain.buffer_queries)
           (atom_queries := Plain.atom_queries) (text "X") w).
  vm_compute. lia.
Defined.

(** X17. How many selections there are.  On a window that has
    selections, [clear_selections], [select] without [append],
    [move_cursor_to] and [move_cursor] without [append] leave exactly
    one selection; [select] and [move_cursor] with [append], the
    constructor and the destructor of an inserter, its [erase] and its
    [move_cursor] leave as many as there were: whatever the outcome, the
    list stays non-empty. *)
Theorem selection_count
        {buffer_queries : BufferQueries} {atom_queries : DisplayAtomQueries}
        (w : Window) (selector : Selector) (it : BufferIterator)
        (offset : DisplayCoord) (this : nat) (mode : Mode) :
  m_selections w <> [] ->
  let count (operation : Window.WM unit) :=
    List.length (m_selections (snd (operation w))) in
  count Window.clear_selections = 1
  /\ count (Window.select selector false) = 1
  /\ count (Window.move_cursor_to it) = 1
  /\ count (Window.move_cursor offset false) = 1
  /\ count (Window.select selector true) = List.length (m_selections w)
  /\ count (Window.move_cursor offset true) = List.length (m_selections w)
  /\ count (IncrementalInserter.construct this mode)
     = List.length (m_selections w)
  /\ count (IncrementalInserter.destroy this)
     = List.length (m_selections w)
  /\ count IncrementalInserter.erase = List.length (m_selections w)
  /\ count (IncrementalInserter.move_cursor offset)
     = List.length (m_selections w).
Proof.
  intros Hsels count. subst count. cbv beta.
  destruct (back_some (m_selections w) Hsels) as [cursor Hback].
  repeat match goal with |- _ /\ _ => split end.
  - unfold Window.clear_selections. unfold bind at 1.
    rewrite check_invariant_nonempty by exact Hsels.
    unfold Window.primary, bind, query, modify. rewrite Hback. reflexivity.
  - unfold Window.select. unfold bind at 1.
    rewrite check_invariant_nonempty by exact Hsels.
    cbn [negb]. unfold bind at 1. unfold bind at 1.
    unfold Window.primary at 1, query at 1. rewrite Hback.
    unfold modify at 1. now rewrite scroll_selections.
  - unfold Window.move_cursor_to. unfold bind at 1, modify at 1.
    now rewrite scroll_selections.
  - unfold Window.move_cursor. cbn [negb].
    unfold Window.cursor_iterator. unfold bind at 1. unfold bind at 1.
    rewrite check_invariant_nonempty by exact Hsels.
    unfold bind at 1. unfold Window.primary at 1, query at 1.
    rewrite Hback. unfold ret at 1. unfold bind at 1, gets at 1.
    unfold Window.move_cursor_to. unfold bind at 1, modify at 1.
    now rewrite scroll_selections.
  - unfold Window.select. unfold bind at 1.
    rewrite check_invariant_nonempty by exact Hsels.
    cbn [negb]. unfold bind at 1, modify at 1.
    rewrite scroll_selections. apply length_map.
  - unfold Window.move_cursor. cbn [negb].
    unfold bind at 1, modify at 1.
    rewrite scroll_selections. apply length_map.
  - destruct (IncrementalInserter.construct this mode w) as [r w'] eqn:H.
    cbn [snd]. destruct (construct_frame _ _ _ _ _ H) as [Hcaptures _].
    rewrite <- (length_map m_captures (m_selections w')), Hcaptures.
    apply length_map.
  - apply destroy_length.
  - destruct (IncrementalInserter.erase w) as [r w'] eqn:H.
    cbn [snd].
    destruct (inserter_erase_steps _ _ _ H)
      as (r1 & w1 & H1 & _ & Hs & _).
    destruct (erase_noundo_spec _ _ _ H1) as (_ & He & _).
    rewrite Hs, (edited_length _ _ He).
    cbn [m_selections Window.set_selections]. apply length_map.
  - destruct (IncrementalInserter.move_cursor offset w) as [r w'] eqn:H.
    cbn [snd]. apply for_each_length in H; [exact H|].
    intros sel wa ra wb. apply move_cursor_body_selections.
Qed.

Lemma selection_count_witness :
  List.length
    (m_selections
       (snd (Window.select
               (buffer_queries := Plain.buffer_queries)
               (atom_queries := Plain.atom_queries)
               (fun it => Selection.make it (it + 2)) false
               Plain.inserting)))
  = 1
  /\ List.length
       (m_selections
          (snd (Window.select
                  (buffer_queries := Plain.buffer_queries)
                  (atom_queries := Plain.atom_queries)
                  (fun it => Selection.make it (it + 2)) true
                  Plain.inserting)))
     = 2.
Proof.
  pose proof (selection_count
                (buffer_queries := Plain.buffer_queries)
                (atom_queries := Plain.atom_queries)
                Plain.inserting (fun it => Selection.make it (it + 2))
                0 (mkCoord 0 0) 1 Insert) as H.
  cbv zeta in H.
  destruct H as (_ & Hone & _ & _ & Hsame & _); [discriminate|].
  split; [exact Hone|exact Hsame].
Defined.

(** ** From an iterator to the display and back *)

Section RoundTrip.

Lemma back_snoc {A} (v : list A) (x : A) : back (v ++ [x]) = Some x.
Proof.
  induction v as [|y v IH]; [reflexivity|].
  cbn [app]. destruct (v ++ [x]) eqn:Hv.
  - now destruct v.
  - exact IH.
Qed.

Lemma nondecreasing_prefix (earlier later : DisplayBuffer)
      (atom : DisplayAtom) :
  coords_nondecreasing (earlier ++ atom :: later) = true ->
  coords_nondecreasing (earlier ++ [atom]) = true.
Proof.
  induction earlier as [|a earlier IH]; [reflexivity|].
  cbn [app coords_nondecreasing]. intros H.
  apply andb_true_iff in H. destruct H as [Hhead Hrest].
  apply andb_true_iff. split; [|now apply IH].
  destruct earlier; exact Hhead.
Qed.

End RoundTrip.

(** X18. Mapping an iterator to the display and back gives the iterator
    again.  In a display buffer that keeps its invariant, take an
    iterator inside the range of an atom that is not the last one, the
    atoms before it ending at or before the iterator.  When the atom
    maps the iterator to a coordinate of its own part of the display, at
    or after where the atom starts and before where the next one starts,
    and maps that coordinate back to the iterator, then
    [line_and_column_at] returns that coordinate and [iterator_at]
    returns the iterator from it. *)
Theorem display_round_trip
        {buffer_queries : BufferQueries} {atom_queries : DisplayAtomQueries}
        (w : Window) (it : BufferIterator)
        (earlier later : DisplayBuffer) (atom next last_atom : DisplayAtom) :
  m_display_buffer w = earlier ++ atom :: next :: later ->
  display_buffer_invariant (m_display_buffer w) = true ->
  back (m_display_buffer w) = Some last_atom ->
  (forall a, In a earlier -> atom_begin a <= it /\ atom_end a <= it) ->
  atom_begin atom <= it < atom_end atom ->
  it < atom_end last_atom ->
  let pos := atom_line_and_column_at atom it in
  Coord.leb (atom_coord atom) pos = true ->
  Coord.ltb pos (atom_coord next) = true ->
  atom_iterator_at atom pos = it ->
  Window.line_and_column_at w it = Ret pos
  /\ Window.iterator_at w pos = Ret it.
Proof.
  intros Hd Hinv Hback Hearlier Hatom Hlast pos Hfrom Hbefore Hround.
  assert (Hsorted : coords_nondecreasing (earlier ++ [atom]) = true).
  { unfold display_buffer_invariant in Hinv.
    apply andb_true_iff in Hinv. destruct Hinv as [_ Hinv].
    rewrite Hd in Hinv. now apply nondecreasing_prefix in Hinv. }
  assert (Hbelow : forall a, In a (earlier ++ [atom]) ->
                             Coord.leb (atom_coord a) pos = true).
  { intros a Hin. apply (leb_trans _ (atom_coord atom)); [|exact Hfrom].
    exact (nondecreasing_below_last _ _ Hsorted (back_snoc _ _) a Hin). }
  assert (Horigin : Coord.leb Coord.origin pos = true).
  { unfold display_buffer_invariant in Hinv.
    apply andb_true_iff in Hinv. destruct Hinv as [Hfront _].
    rewrite Hd in Hfront.
    destruct earlier as [|front earlier]; cbn [app] in Hfront.
    - now rewrite <- (eqb_origin_leb _ pos Hfront).
    - rewrite <- (eqb_origin_leb _ pos Hfront).
      apply Hbelow. now left. }
  split.
  - unfold Window.line_and_column_at. rewrite Hback.
    assert (Hloop :
      Window.line_and_column_at_loop (m_display_buffer w) it
      = Some (Ret pos)).
    { rewrite Hd.
      rewrite (line_and_column_at_loop_first earlier (next :: later)
                 atom it);
        [|intros a Hin; now apply Hearlier|lia].
      destruct (Nat.leb_spec (atom_begin atom) it); [reflexivity|lia]. }
    rewrite Hloop.
    assert (Hend : (it <? atom_end last_atom) = true)
      by now apply Nat.ltb_lt.
    rewrite Hend. rewrite Hd.
    destruct earlier as [|front earlier]; cbn [app].
    + assert (Hbegin : (atom_begin atom <=? it) = true)
        by (apply Nat.leb_le; lia).
      now rewrite Hbegin.
    + assert (Hbegin : (atom_begin front <=? it) = true)
        by (apply Nat.leb_le; apply Hearlier; now left).
      now rewrite Hbegin.
  - unfold Window.iterator_at.
    assert (Hloop :
      Window.iterator_at_loop None (earlier ++ atom :: next :: later) pos
      = Some (Ret it)).
    { rewrite <- Hround.
      apply iterator_at_loop_first; [|exact Hbefore].
      intros a Hin. rewrite ltb_negb_leb.
      apply negb_false_iff. now apply Hbelow. }
    rewrite Hd.
    destruct earlier; cbn [app] in *; cbv beta iota;
      rewrite Horigin, Hloop; reflexivity.
Qed.

Lemma display_round_trip_witness :
  Window.line_and_column_at
    (buffer_queries := Plain.buffer_queries)
    (atom_queries := Plain.atom_queries) Plain.three_atoms 4
  = Ret (mkCoord 0 4)
  /\ Window.iterator_at
       (buffer_queries := Plain.buffer_queries)
       (atom_queries := Plain.atom_queries) Plain.three_atoms (mkCoord 0 4)
     = Ret 4.
Proof.
  apply (display_round_trip
           (buffer_queries := Plain.buffer_queries)
           (atom_queries := Plain.atom_queries)
           Plain.three_atoms 4
           [mkAtom (mkCoord 0 0) 0 3] [] (mkAtom (mkCoord 0 3) 3 6)
           (mkAtom (mkCoord 0 6) 6 11) (mkAtom (mkCoord 0 6) 6 11));
    try reflexivity.
  - intros a [<-|[]]. cbn. lia.
  - cbn. lia.
  - cbn. lia.
Defined.

(** ** The cursor *)

Section Cursor.

Context {buffer_queries : BufferQueries}.
Context {atom_queries : DisplayAtomQueries}.

Lemma back_map {A B} (f : A -> B) (v : list A) :
  back (map f v) = option_map f (back v).
Proof.
  induction v as [|x v IH]; [reflexivity|].
  destruct v as [|y v]; [reflexivity|]. exact IH.
Qed.

Lemma cursor_iterator_of (w : Window) (sel : Selection) :
  back (m_selections w) = Some sel ->
  Window.cursor_iterator w = (Ret (m_last sel), w).
Proof.
  intros Hback. unfold Window.cursor_iterator. unfold bind at 1.
  rewrite check_invariant_nonempty by exact (back_nonempty _ _ Hback).
  unfold bind, Window.primary, query, ret. now rewrite Hback.
Qed.

End Cursor.

(** X19. The cursor is the last position of the last selection, and
    the selection operations move it where they say.  On a window whose
    last selection is [sel], [cursor_iterator] returns [sel.last()] and
    [cursor_position] is [line_and_column_at] of it; after
    [move_cursor_to(it)] the cursor is [it]; after [clear_selections] it
    is where it was; after [select], with or without [append], it is the
    last position of what the selector gave for the old cursor.  The
    last three hold whether or not the scroll that ends the operation
    returns. *)
Theorem cursor_follows_selection
        {buffer_queries : BufferQueries} {atom_queries : DisplayAtomQueries}
        (w : Window) (sel : Selection) (selector : Selector)
        (it : BufferIterator) (append : bool) :
  back (m_selections w) = Some sel ->
  Window.cursor_iterator w = (Ret (m_last sel), w)
  /\ Window.cursor_position w
     = (Window.line_and_column_at w (m_last sel), w)
  /\ fst (Window.cursor_iterator (snd (Window.move_cursor_to it w)))
     = Ret it
  /\ fst (Window.cursor_iterator (snd (Window.clear_selections w)))
     = Ret (m_last sel)
  /\ fst (Window.cursor_iterator (snd (Window.select selector append w)))
     = Ret (m_last (selector (m_last sel))).
Proof.
  intros Hback.
  pose proof (back_nonempty _ _ Hback) as Hsels.
  split; [exact (cursor_iterator_of w sel Hback)|]. split; [|split; [|split]].
  - unfold Window.cursor_position. unfold bind at 1.
    rewrite check_invariant_nonempty by exact Hsels.
    unfold bind at 1. rewrite (cursor_iterator_of w sel Hback).
    reflexivity.
  - rewrite (cursor_iterator_of _ (Selection.make it it)); [reflexivity|].
    unfold Window.move_cursor_to. unfold bind at 1, modify at 1.
    now rewrite scroll_selections.
  - rewrite (cursor_iterator_of
               _ (Selection.make (m_last sel) (m_last sel)));
      [reflexivity|].
    unfold Window.clear_selections. unfold bind at 1.
    rewrite check_invariant_nonempty by exact Hsels.
    unfold Window.primary, bind, query, modify. now rewrite Hback.
  - destruct append.
    + rewrite (cursor_iterator_of
                 _ (Selection.merge_with sel (selector (m_last sel))));
        [reflexivity|].
      unfold Window.select. unfold bind at 1.
      rewrite check_invariant_nonempty by exact Hsels.
      cbn [negb]. unfold bind at 1, modify at 1.
      rewrite scroll_selections.
      cbn [m_selections Window.set_selections].
      now rewrite back_map, Hback.
    + rewrite (cursor_iterator_of _ (selector (m_last sel)));
        [reflexivity|].
      unfold Window.select. unfold bind at 1.
      rewrite check_invariant_nonempty by exact Hsels.
      cbn [negb]. unfold bind at 1. unfold bind at 1.
      unfold Window.primary at 1, query at 1. rewrite Hback.
      unfold modify at 1. now rewrite scroll_selections.
Qed.

Lemma cursor_follows_selection_witness :
  Window.cursor_iterator Plain.inserting = (Ret 7, Plain.inserting)
  /\ fst (Window.cursor_iterator
            (snd (Window.select
                    (buffer_queries := Plain.buffer_queries)
                    (atom_queries := Plain.atom_queries)
                    (fun it => Selection.make it (it + 2)) true
                    Plain.inserting)))
     = Ret 9.
Proof.
  pose proof (cursor_follows_selection
                (buffer_queries := Plain.buffer_queries)
                (atom_queries := Plain.atom_queries)
                Plain.inserting (Selection.make 8 7)
                (fun it => Selection.make it (it + 2)) 0 true eq_refl)
    as (Hcursor & _ & _ & _ & Hselect).
  split; [exact Hcursor|exact Hselect].
Defined.

